(** * A shallow embedding of secure-io/sio-go (package sio)

    The package turns an AEAD into an authenticated channel for byte
    streams: a [Stream] fixes the AEAD and the fragment size, and the
    adapters [EncWriter], [DecWriter], [EncReader], [DecReader] and
    [DecReaderAt] en- and decrypt fragment by fragment.

    Conventions of the model:
    - Go's [[]byte] is [list byte]; Go slices that the code keeps as working
      buffers are modelled by the part of the slice that the code reads
      again ([buffer[:offset]] for the writers).
    - a [uint32] sequence number is a [Z] in [[0, 2^32)] whose increment
      wraps around; [int64] arithmetic in [Stream.Overhead] wraps as well.
    - a Go panic is the [Panic] outcome.
    - the upstream [io.Reader] of the readers is an in-memory reader over a
      byte slice (a [bytes.Reader]); the downstream [io.Writer] is an
      in-memory buffer (a [bytes.Buffer]) that accepts every write. *)

From Stdlib Require Import ZArith Lia Strings.Byte.
From stdpp Require Import base list.

Open Scope Z_scope.

Abbreviation bytes := (list byte).

Global Instance byte_eq_decision : EqDecision byte := Byte.byte_eq_dec.

(** ** Go runtime helpers *)

Inductive outcome (A : Type) : Type :=
  | Panic : outcome A
  | Ret : A -> outcome A.
Arguments Panic {A}.
Arguments Ret {A} _.

(** The errors of the package (ErrAuth was renamed to NotAuthentic, the
    code uses both names for the same value) and the io errors it meets. *)
Inductive error : Type :=
  | ErrExceeded
  | NotAuthentic
  | EOF
  | ErrNegativeOffset.

Definition error_eqb (e1 e2 : error) : bool :=
  match e1, e2 with
  | ErrExceeded, ErrExceeded | NotAuthentic, NotAuthentic
  | EOF, EOF | ErrNegativeOffset, ErrNegativeOffset => true
  | _, _ => false
  end.

Definition ErrAuth : error := NotAuthentic.

Definition MaxUint32 : Z := 2 ^ 32 - 1.

(** [x++] on a [uint32]. *)
Definition u32_incr (x : Z) : Z := (x + 1) mod 2 ^ 32.

(** two's complement wrap-around of [int64] arithmetic *)
Definition wrap64 (z : Z) : Z := (z + 2 ^ 63) mod 2 ^ 64 - 2 ^ 63.

Definition byte_of_Z (z : Z) : byte :=
  match Byte.of_N (Z.to_N (z mod 256)) with Some b => b | None => x00 end.

(** [binary.LittleEndian.PutUint32] *)
Definition PutUint32LE (v : Z) : bytes :=
  [byte_of_Z v; byte_of_Z (Z.shiftr v 8); byte_of_Z (Z.shiftr v 16);
   byte_of_Z (Z.shiftr v 24)].

(** ** The AEAD interface ([cipher.AEAD]) *)

(** [Seal nonce plaintext ad] returns the ciphertext (the code always seals
    into an empty [dst]); [Open nonce ciphertext ad] the plaintext or an
    authentication failure. *)
Record AEAD := {
  NonceSize : Z;
  Overhead : nat;
  Seal : bytes -> bytes -> bytes -> bytes;
  Open : bytes -> bytes -> bytes -> option bytes
}.

(** ** Stream *)

Definition MaxBufSize : Z := 2 ^ 24 - 1.
Definition BufSize : Z := 2 ^ 14.

Record Stream := { cipher : AEAD; bufSize : nat }.

Definition NewStream (c : AEAD) (bufSize : Z) : outcome Stream :=
  if NonceSize c <? 4 then Panic
  else if bufSize >? MaxBufSize then Panic
  else if bufSize <=? 0 then Panic
  else Ret {| cipher := c; bufSize := Z.to_nat bufSize |}.

Definition Stream_NonceSize (s : Stream) : Z := NonceSize (cipher s) - 4.

(** [Stream.Overhead]: Go's [/] and [%] truncate, that is [Z.quot] and
    [Z.rem]. *)
Definition Stream_Overhead (s : Stream) (length : Z) : outcome Z :=
  if length <? 0 then Panic
  else if length >? wrap64 (Z.of_nat (bufSize s) * MaxUint32) then Panic
  else
    let overhead := Z.of_nat (Overhead (cipher s)) in
    if length =? 0 then Ret overhead
    else
      let t := Z.quot length (Z.of_nat (bufSize s)) in
      if Z.rem length (Z.of_nat (bufSize s)) >? 0
      then Ret (wrap64 (wrap64 (t * overhead) + overhead))
      else Ret (wrap64 (t * overhead)).

(** [readFrom(r, p)] of the package over an in-memory reader holding [src]:
    the bytes read into [p], the bytes left in the reader and the error
    ([io.EOF] when fewer than [len(p)] bytes were left, nil otherwise). *)
Definition readFrom (src : bytes) (k : nat) : bytes * bytes * option error :=
  (take k src, drop k src, if (length src <? k)%nat then Some EOF else None).

(** [binary.LittleEndian.PutUint32(nonce[NonceSize()-4:], seq)] *)
Definition put_seq (nonce : bytes) (seq : Z) : bytes :=
  take (length nonce - 4) nonce ++ PutUint32LE seq.

(** [associatedData[0] = 0x80] *)
Definition set_final (ad : bytes) : bytes :=
  match ad with [] => [] | _ :: t => x80 :: t end.

Section Writers.

Variable c : AEAD.
Variable bufSize : nat.

(** ** EncWriter *)

(** The mutable fields of an [EncWriter]; [ew_buffer] is [buffer[:offset]]
    and [ew_out] everything written to the underlying writer. *)
Record EncWriter := mkEncWriter {
  ew_seqNum : Z;
  ew_nonce : bytes;
  ew_associatedData : bytes;
  ew_buffer : bytes;
  ew_err : option error;
  ew_closed : bool;
  ew_out : bytes
}.

Definition ew_set_err (w : EncWriter) (e : option error) : EncWriter :=
  mkEncWriter (ew_seqNum w) (ew_nonce w) (ew_associatedData w) (ew_buffer w)
    e (ew_closed w) (ew_out w).

Definition ew_set_buffer (w : EncWriter) (b : bytes) : EncWriter :=
  mkEncWriter (ew_seqNum w) (ew_nonce w) (ew_associatedData w) b
    (ew_err w) (ew_closed w) (ew_out w).

(** [writeTo(w.w, ciphertext)] *)
Definition ew_emit (w : EncWriter) (ct : bytes) : EncWriter :=
  mkEncWriter (ew_seqNum w) (ew_nonce w) (ew_associatedData w) (ew_buffer w)
    (ew_err w) (ew_closed w) (ew_out w ++ ct).

Definition EncWriter_nextNonce (w : EncWriter) : EncWriter * (bytes + error) :=
  if ew_seqNum w =? MaxUint32 then (w, inr ErrExceeded)
  else
    let n := put_seq (ew_nonce w) (ew_seqNum w) in
    (mkEncWriter (u32_incr (ew_seqNum w)) n (ew_associatedData w) (ew_buffer w)
       (ew_err w) (ew_closed w) (ew_out w), inl n).

(** [Stream.EncryptWriter]: the nonce argument has [NonceSize()] bytes,
    [make] fills the nonce's last four bytes with zeros. *)
Definition EncryptWriter (nonce ad : bytes) : outcome EncWriter :=
  if negb (Z.of_nat (length nonce) =? NonceSize c - 4) then Panic
  else
    let w0 := mkEncWriter 0 (nonce ++ [x00; x00; x00; x00]) [] [] None false [] in
    match EncWriter_nextNonce w0 with
    | (w1, inl n) =>
        Ret (mkEncWriter (ew_seqNum w1) (ew_nonce w1) (x00 :: Seal c n [] ad)
               [] None false [])
    | (w1, inr _) => Ret w1
    end.

(** the [for len(p) > w.bufSize] loop of [Write] and the final
    [w.offset = copy(w.buffer, p)] *)
Fixpoint ew_write_loop (fuel : nat) (w : EncWriter) (p : bytes) (n : nat)
    : EncWriter * nat * option error :=
  match fuel with
  | O => (w, n, None)
  | S fuel' =>
      if (bufSize <? length p)%nat then
        match EncWriter_nextNonce w with
        | (w1, inr e) => (ew_set_err w1 (Some e), n, Some e)
        | (w1, inl nonce) =>
            let ct := Seal c nonce (take bufSize p) (ew_associatedData w1) in
            ew_write_loop fuel' (ew_emit w1 ct) (drop bufSize p) (n + bufSize)%nat
        end
      else (ew_set_buffer w p, (n + length p)%nat, None)
  end.

Definition EncWriter_Write (w : EncWriter) (p : bytes)
    : outcome (EncWriter * nat * option error) :=
  if ew_closed w then Panic else
  match ew_err w with
  | Some e => Ret (w, 0%nat, Some e)
  | None =>
      if (0 <? length (ew_buffer w))%nat then
        let n := Nat.min (bufSize - length (ew_buffer w)) (length p) in
        if (n =? length p)%nat then Ret (ew_set_buffer w (ew_buffer w ++ p), n, None)
        else
          let full := ew_buffer w ++ take n p in
          let p' := drop n p in
          match EncWriter_nextNonce (ew_set_buffer w []) with
          | (w1, inr e) => Ret (ew_set_err w1 (Some e), n, Some e)
          | (w1, inl nonce) =>
              let ct := Seal c nonce (take bufSize full) (ew_associatedData w1) in
              Ret (ew_write_loop (S (length p')) (ew_emit w1 ct) p' n)
          end
      else Ret (ew_write_loop (S (length p)) w p 0)
  end.

Definition EncWriter_WriteByte (w : EncWriter) (b : byte)
    : outcome (EncWriter * option error) :=
  if ew_closed w then Panic else
  match ew_err w with
  | Some e => Ret (w, Some e)
  | None =>
      if (length (ew_buffer w) <? bufSize)%nat then
        Ret (ew_set_buffer w (ew_buffer w ++ [b]), None)
      else
        match EncWriter_nextNonce w with
        | (w1, inr e) => Ret (ew_set_err w1 (Some e), Some e)
        | (w1, inl nonce) =>
            let ct := Seal c nonce (take bufSize (ew_buffer w1)) (ew_associatedData w1) in
            Ret (ew_set_buffer (ew_emit w1 ct) [b], None)
        end
  end.

(** [Close]; the in-memory writer is no [io.Closer], and the successful
    [writeTo] stores nil in [w.err].  [ew_close_final] is the part after
    the error check. *)
Definition ew_close_final (w : EncWriter) : EncWriter * option error :=
  if ew_closed w then (w, None) else
  let ad := set_final (ew_associatedData w) in
  let nonce := put_seq (ew_nonce w) (ew_seqNum w) in
  let ct := Seal c nonce (ew_buffer w) ad in
  (mkEncWriter (ew_seqNum w) nonce ad (ew_buffer w) None true (ew_out w ++ ct), None).

Definition EncWriter_Close (w : EncWriter) : EncWriter * option error :=
  match ew_err w with
  | Some e => if error_eqb e ErrExceeded then ew_close_final w else (w, Some e)
  | None => ew_close_final w
  end.

(** the [for] loop of [ReadFrom]: [carry] is the byte read ahead.
    [readFrom] reads into [w.buffer] itself, so when [nextNonce] fails
    [w.buffer[:w.offset]] holds the first [w.offset] bytes just read. *)
Fixpoint ew_readfrom_loop (fuel : nat) (w : EncWriter) (r : bytes) (carry : byte)
    (n : nat) : EncWriter * bytes * nat * option error :=
  match fuel with
  | O => (w, r, n, None)
  | S fuel' =>
      match readFrom r bufSize with
      | (data, r1, Some _) =>
          let '(w', e') := EncWriter_Close (ew_set_buffer w (carry :: data)) in
          (w', r1, (n + length data)%nat, e')
      | (data, r1, None) =>
          let full := carry :: data in
          let carry' := nth bufSize full x00 in
          match EncWriter_nextNonce w with
          | (w1, inr e) =>
              (ew_set_err (ew_set_buffer w1 (take (length (ew_buffer w1)) full)) (Some e),
               r1, n, Some e)
          | (w1, inl nonce) =>
              let ct := Seal c nonce (take bufSize full) (ew_associatedData w1) in
              ew_readfrom_loop fuel' (ew_emit w1 ct) r1 carry' (n + bufSize)%nat
          end
      end
  end.

(** [ReadFrom(r)]: returns the writer, the bytes left in [r], the count and
    the error.  [w.buffer[:w.bufSize+1]] is out of the buffer's capacity
    (bufSize + Overhead) when the AEAD has no overhead. *)
Definition EncWriter_ReadFrom (w : EncWriter) (r : bytes)
    : outcome (EncWriter * bytes * nat * option error) :=
  if ew_closed w then Panic else
  match ew_err w with
  | Some e => Ret (w, r, 0%nat, Some e)
  | None =>
      if (Overhead c =? 0)%nat then Panic else
      match readFrom r (bufSize + 1)%nat with
      | (data, r1, Some _) =>
          let '(w', e') := EncWriter_Close (ew_set_buffer w data) in
          Ret (w', r1, length data, e')
      | (data, r1, None) =>
          let carry := nth bufSize data x00 in
          match EncWriter_nextNonce w with
          | (w1, inr e) =>
              Ret (ew_set_err (ew_set_buffer w1 (take (length (ew_buffer w1)) data)) (Some e),
                   r1, 0%nat, Some e)
          | (w1, inl nonce) =>
              let ct := Seal c nonce (take bufSize data) (ew_associatedData w1) in
              Ret (ew_readfrom_loop (S (length r1)) (ew_emit w1 ct) r1 carry (length data))
          end
      end
  end.

(** ** DecWriter *)

(** The mutable fields of a [DecWriter].  Two ghost fields record what the
    AEAD did: [dw_opened] is the concatenation of the plaintexts of all
    successful [Open] calls, [dw_rejected] whether an [Open] failed. *)
Record DecWriter := mkDecWriter {
  dw_seqNum : Z;
  dw_nonce : bytes;
  dw_associatedData : bytes;
  dw_buffer : bytes;
  dw_err : option error;
  dw_closed : bool;
  dw_out : bytes;
  dw_opened : bytes;
  dw_rejected : bool
}.

Definition dw_set_err (w : DecWriter) (e : option error) : DecWriter :=
  mkDecWriter (dw_seqNum w) (dw_nonce w) (dw_associatedData w) (dw_buffer w)
    e (dw_closed w) (dw_out w) (dw_opened w) (dw_rejected w).

Definition dw_set_buffer (w : DecWriter) (b : bytes) : DecWriter :=
  mkDecWriter (dw_seqNum w) (dw_nonce w) (dw_associatedData w) b
    (dw_err w) (dw_closed w) (dw_out w) (dw_opened w) (dw_rejected w).

Definition dw_emit (w : DecWriter) (pt : bytes) : DecWriter :=
  mkDecWriter (dw_seqNum w) (dw_nonce w) (dw_associatedData w) (dw_buffer w)
    (dw_err w) (dw_closed w) (dw_out w ++ pt) (dw_opened w) (dw_rejected w).

(** [cipher.Open] with the ghost bookkeeping *)
Definition dw_open (w : DecWriter) (nonce ct : bytes) : DecWriter * option bytes :=
  match Open c nonce ct (dw_associatedData w) with
  | Some pt =>
      (mkDecWriter (dw_seqNum w) (dw_nonce w) (dw_associatedData w) (dw_buffer w)
         (dw_err w) (dw_closed w) (dw_out w) (dw_opened w ++ pt) (dw_rejected w), Some pt)
  | None =>
      (mkDecWriter (dw_seqNum w) (dw_nonce w) (dw_associatedData w) (dw_buffer w)
         (dw_err w) (dw_closed w) (dw_out w) (dw_opened w) true, None)
  end.

Definition DecWriter_nextNonce (w : DecWriter) : DecWriter * (bytes + error) :=
  if dw_seqNum w =? MaxUint32 then (w, inr ErrExceeded)
  else
    let n := put_seq (dw_nonce w) (dw_seqNum w) in
    (mkDecWriter (u32_incr (dw_seqNum w)) n (dw_associatedData w) (dw_buffer w)
       (dw_err w) (dw_closed w) (dw_out w) (dw_opened w) (dw_rejected w), inl n).

Definition DecryptWriter (nonce ad : bytes) : outcome DecWriter :=
  if negb (Z.of_nat (length nonce) =? NonceSize c - 4) then Panic
  else
    let w0 := mkDecWriter 0 (nonce ++ [x00; x00; x00; x00]) [] [] None false [] [] false in
    match DecWriter_nextNonce w0 with
    | (w1, inl n) =>
        Ret (mkDecWriter (dw_seqNum w1) (dw_nonce w1) (x00 :: Seal c n [] ad)
               [] None false [] [] false)
    | (w1, inr _) => Ret w1
    end.

(** one authenticated fragment: next nonce, [Open], [writeTo] *)
Definition dw_fragment (w : DecWriter) (ct : bytes) : DecWriter * option error :=
  match DecWriter_nextNonce w with
  | (w1, inr e) => (dw_set_err w1 (Some e), Some e)
  | (w1, inl nonce) =>
      match dw_open w1 nonce ct with
      | (w2, None) => (dw_set_err w2 (Some ErrAuth), Some ErrAuth)
      | (w2, Some pt) => (dw_emit w2 pt, None)
      end
  end.

(** the [for len(p) > ciphertextLen] loop of [Write] *)
Fixpoint dw_write_loop (fuel : nat) (w : DecWriter) (p : bytes) (n : nat)
    : DecWriter * nat * option error :=
  let ciphertextLen := (bufSize + Overhead c)%nat in
  match fuel with
  | O => (w, n, None)
  | S fuel' =>
      if (ciphertextLen <? length p)%nat then
        match dw_fragment w (take ciphertextLen p) with
        | (w1, Some e) => (w1, n, Some e)
        | (w1, None) =>
            dw_write_loop fuel' w1 (drop ciphertextLen p) (n + ciphertextLen)%nat
        end
      else (dw_set_buffer w p, (n + length p)%nat, None)
  end.

Definition DecWriter_Write (w : DecWriter) (p : bytes)
    : outcome (DecWriter * nat * option error) :=
  let ciphertextLen := (bufSize + Overhead c)%nat in
  if dw_closed w then Panic else
  match dw_err w with
  | Some e => Ret (w, 0%nat, Some e)
  | None =>
      if (0 <? length (dw_buffer w))%nat then
        let n := Nat.min (ciphertextLen - length (dw_buffer w)) (length p) in
        if (n =? length p)%nat then Ret (dw_set_buffer w (dw_buffer w ++ p), n, None)
        else
          let full := dw_buffer w ++ take n p in
          let p' := drop n p in
          match dw_fragment (dw_set_buffer w []) full with
          | (w1, Some e) => Ret (w1, n, Some e)
          | (w1, None) => Ret (dw_write_loop (S (length p')) w1 p' n)
          end
      else Ret (dw_write_loop (S (length p)) w p 0)
  end.

Definition DecWriter_WriteByte (w : DecWriter) (b : byte)
    : outcome (DecWriter * option error) :=
  if dw_closed w then Panic else
  match dw_err w with
  | Some e => Ret (w, Some e)
  | None =>
      if (length (dw_buffer w) <? bufSize + Overhead c)%nat then
        Ret (dw_set_buffer w (dw_buffer w ++ [b]), None)
      else
        match dw_fragment w (dw_buffer w) with
        | (w1, Some e) => Ret (w1, Some e)
        | (w1, None) => Ret (dw_set_buffer w1 [b], None)
        end
  end.

(** the part of [Close] after the error check *)
Definition dw_close_final (w : DecWriter) : DecWriter * option error :=
  if dw_closed w then (w, None) else
  let ad := set_final (dw_associatedData w) in
  let nonce := put_seq (dw_nonce w) (dw_seqNum w) in
  let w1 := mkDecWriter (dw_seqNum w) nonce ad (dw_buffer w) (dw_err w) true
              (dw_out w) (dw_opened w) (dw_rejected w) in
  match dw_open w1 nonce (dw_buffer w) with
  | (w2, None) => (dw_set_err w2 (Some ErrAuth), Some ErrAuth)
  | (w2, Some pt) => (dw_set_err (dw_emit w2 pt) None, None)
  end.

Definition DecWriter_Close (w : DecWriter) : DecWriter * option error :=
  match dw_err w with
  | Some e => if error_eqb e ErrExceeded then dw_close_final w else (w, Some e)
  | None => dw_close_final w
  end.

(** [ReadFrom]'s loop; as for the [EncWriter], [readFrom] reads into
    [w.buffer] itself, so after a failed fragment [w.buffer[:w.offset]]
    holds the first [w.offset] bytes just read (only [ErrExceeded] lets
    [Close] look at them). *)
Fixpoint dw_readfrom_loop (fuel : nat) (w : DecWriter) (r : bytes) (carry : byte)
    (n : nat) : DecWriter * bytes * nat * option error :=
  let ciphertextLen := (bufSize + Overhead c)%nat in
  match fuel with
  | O => (w, r, n, None)
  | S fuel' =>
      match readFrom r ciphertextLen with
      | (data, r1, Some _) =>
          let '(w', e') := DecWriter_Close (dw_set_buffer w (carry :: data)) in
          (w', r1, (n + length data)%nat, e')
      | (data, r1, None) =>
          let full := carry :: data in
          let carry' := nth ciphertextLen full x00 in
          match dw_fragment w (take ciphertextLen full) with
          | (w1, Some e) =>
              (dw_set_buffer w1 (take (length (dw_buffer w)) full), r1, n, Some e)
          | (w1, None) =>
              dw_readfrom_loop fuel' w1 r1 carry' (n + ciphertextLen)%nat
          end
      end
  end.

Definition DecWriter_ReadFrom (w : DecWriter) (r : bytes)
    : outcome (DecWriter * bytes * nat * option error) :=
  let ciphertextLen := (bufSize + Overhead c)%nat in
  if dw_closed w then Panic else
  match dw_err w with
  | Some e => Ret (w, r, 0%nat, Some e)
  | None =>
      match readFrom r (1 + ciphertextLen)%nat with
      | (data, r1, Some _) =>
          let '(w', e') := DecWriter_Close (dw_set_buffer w data) in
          Ret (w', r1, length data, e')
      | (data, r1, None) =>
          let carry := nth ciphertextLen data x00 in
          match dw_fragment w (take ciphertextLen data) with
          | (w1, Some e) =>
              Ret (dw_set_buffer w1 (take (length (dw_buffer w)) data), r1, 0%nat, Some e)
          | (w1, None) =>
              Ret (dw_readfrom_loop (S (length r1)) w1 r1 carry (length data))
          end
      end
  end.

End Writers.

Section Readers.

Variable c : AEAD.
Variable bufSize : nat.

(** ** EncReader *)

(** The mutable fields of an [EncReader]; [er_src] holds the bytes left in
    the underlying reader. *)
Record EncReader := mkEncReader {
  er_seqNum : Z;
  er_nonce : bytes;
  er_associatedData : bytes;
  er_ciphertextBuffer : bytes;
  er_offset : nat;
  er_err : option error;
  er_carry : byte;
  er_firstRead : bool;
  er_closed : bool;
  er_src : bytes
}.

Definition er_set_err (r : EncReader) (e : option error) : EncReader :=
  mkEncReader (er_seqNum r) (er_nonce r) (er_associatedData r)
    (er_ciphertextBuffer r) (er_offset r) e (er_carry r) (er_firstRead r)
    (er_closed r) (er_src r).

Definition er_set_offset (r : EncReader) (o : nat) : EncReader :=
  mkEncReader (er_seqNum r) (er_nonce r) (er_associatedData r)
    (er_ciphertextBuffer r) o (er_err r) (er_carry r) (er_firstRead r)
    (er_closed r) (er_src r).

Definition er_clear_firstRead (r : EncReader) : EncReader :=
  mkEncReader (er_seqNum r) (er_nonce r) (er_associatedData r)
    (er_ciphertextBuffer r) (er_offset r) (er_err r) (er_carry r) false
    (er_closed r) (er_src r).

Definition EncryptReader (src nonce ad : bytes) : outcome EncReader :=
  if negb (Z.of_nat (length nonce) =? NonceSize c - 4) then Panic
  else
    let n0 := put_seq (nonce ++ [x00; x00; x00; x00]) 0 in
    Ret (mkEncReader 1 n0 (x00 :: Seal c n0 [] ad) [] 0 None x00 true false src).

(** [readFragment(p, firstReadOffset)] with [len(p) = plen]: returns the
    reader, the bytes it puts into [p[:n]] and the error.  The fast path
    seals straight into [p] and returns [bufSize + Overhead()] (resp. the
    final fragment's ciphertext length), the length of the sealed bytes. *)
Definition EncReader_readFragment (r : EncReader) (plen fro : nat)
    : EncReader * bytes * option error :=
  if er_seqNum r =? 0 then (er_set_err r (Some ErrExceeded), [], Some ErrExceeded)
  else
    let nonce := put_seq (er_nonce r) (er_seqNum r) in
    let seq := u32_incr (er_seqNum r) in
    let '(data, rest, e) := readFrom (er_src r) (1 + bufSize - fro)%nat in
    let buf := if (fro =? 0)%nat then data else er_carry r :: data in
    match e with
    | None =>
        let carry := nth bufSize buf x00 in
        let ct := Seal c nonce (take bufSize buf) (er_associatedData r) in
        if (plen <? bufSize + Overhead c)%nat then
          (mkEncReader seq nonce (er_associatedData r) ct (Nat.min plen (length ct))
             (er_err r) carry (er_firstRead r) (er_closed r) rest, take plen ct, None)
        else
          (mkEncReader seq nonce (er_associatedData r) (er_ciphertextBuffer r)
             (er_offset r) (er_err r) carry (er_firstRead r) (er_closed r) rest, ct, None)
    | Some _ =>
        let ad := set_final (er_associatedData r) in
        let ct := Seal c nonce buf ad in
        if (plen <? length buf + Overhead c)%nat then
          (mkEncReader seq nonce ad ct (Nat.min plen (length ct))
             (er_err r) (er_carry r) (er_firstRead r) true rest, take plen ct, None)
        else
          (mkEncReader seq nonce ad (er_ciphertextBuffer r)
             (er_offset r) (er_err r) (er_carry r) (er_firstRead r) true rest, ct, Some EOF)
    end.

(** [Read(p)] with [len(p) = plen]: the reader, the bytes [p[:n]], the error *)
Definition EncReader_Read (r : EncReader) (plen : nat)
    : EncReader * bytes * option error :=
  match er_err r with
  | Some e => (r, [], Some e)
  | None =>
      let first :=
        if er_firstRead r then
          match EncReader_readFragment (er_clear_firstRead r) plen 0 with
          | (r1, d, Some e) => inr (r1, d, Some e)
          | (r1, d, None) => inl (r1, d)
          end
        else inl (r, []) in
      match first with
      | inr res => res
      | inl (r1, d1) =>
          let plen1 := (plen - length d1)%nat in
          let second :=
            if (0 <? er_offset r1)%nat then
              let pending := drop (er_offset r1) (er_ciphertextBuffer r1) in
              let nn := Nat.min plen1 (length pending) in
              if (nn =? plen1)%nat
              then inr (er_set_offset r1 (er_offset r1 + nn)%nat, d1 ++ take nn pending, None)
              else inl (er_set_offset r1 0, d1 ++ take nn pending, (plen1 - nn)%nat)
            else inl (r1, d1, plen1) in
          match second with
          | inr res => res
          | inl (r2, d2, plen2) =>
              if er_closed r2 then (r2, d2, Some EOF)
              else
                let '(r3, d3, e3) := EncReader_readFragment r2 plen2 1 in
                (r3, d2 ++ d3, e3)
          end
      end
  end.

(** ** DecReader *)

(** The mutable fields of a [DecReader]; [dr_src] holds the bytes left in
    the underlying reader, [dr_opened] (ghost) the concatenation of the
    plaintexts of all successful [Open] calls and [dr_rejected] (ghost)
    whether an [Open] failed. *)
Record DecReader := mkDecReader {
  dr_seqNum : Z;
  dr_nonce : bytes;
  dr_associatedData : bytes;
  dr_plaintextBuffer : bytes;
  dr_offset : nat;
  dr_err : option error;
  dr_carry : byte;
  dr_firstRead : bool;
  dr_closed : bool;
  dr_src : bytes;
  dr_opened : bytes;
  dr_rejected : bool
}.

Definition dr_set_err (r : DecReader) (e : option error) : DecReader :=
  mkDecReader (dr_seqNum r) (dr_nonce r) (dr_associatedData r)
    (dr_plaintextBuffer r) (dr_offset r) e (dr_carry r) (dr_firstRead r)
    (dr_closed r) (dr_src r) (dr_opened r) (dr_rejected r).

Definition dr_set_offset (r : DecReader) (o : nat) : DecReader :=
  mkDecReader (dr_seqNum r) (dr_nonce r) (dr_associatedData r)
    (dr_plaintextBuffer r) o (dr_err r) (dr_carry r) (dr_firstRead r)
    (dr_closed r) (dr_src r) (dr_opened r) (dr_rejected r).

Definition dr_clear_firstRead (r : DecReader) : DecReader :=
  mkDecReader (dr_seqNum r) (dr_nonce r) (dr_associatedData r)
    (dr_plaintextBuffer r) (dr_offset r) (dr_err r) (dr_carry r) false
    (dr_closed r) (dr_src r) (dr_opened r) (dr_rejected r).

(** [cipher.Open] with the ghost bookkeeping *)
Definition dr_open (r : DecReader) (nonce ct ad : bytes) : DecReader * option bytes :=
  match Open c nonce ct ad with
  | Some pt =>
      (mkDecReader (dr_seqNum r) (dr_nonce r) (dr_associatedData r)
         (dr_plaintextBuffer r) (dr_offset r) (dr_err r) (dr_carry r) (dr_firstRead r)
         (dr_closed r) (dr_src r) (dr_opened r ++ pt) (dr_rejected r), Some pt)
  | None =>
      (mkDecReader (dr_seqNum r) (dr_nonce r) (dr_associatedData r)
         (dr_plaintextBuffer r) (dr_offset r) (dr_err r) (dr_carry r) (dr_firstRead r)
         (dr_closed r) (dr_src r) (dr_opened r) true, None)
  end.

Definition DecryptReader (src nonce ad : bytes) : outcome DecReader :=
  if negb (Z.of_nat (length nonce) =? NonceSize c - 4) then Panic
  else
    let n0 := put_seq (nonce ++ [x00; x00; x00; x00]) 0 in
    Ret (mkDecReader 1 n0 (x00 :: Seal c n0 [] ad) [] 0 None x00 true false src [] false).

(** [readFragment(p, firstReadOffset)] with [len(p) = plen]; the fast path
    opens straight into [p] and returns [bufSize] (resp. the final
    fragment's ciphertext length minus [Overhead()]), the length of the
    opened plaintext. *)
Definition DecReader_readFragment (r : DecReader) (plen fro : nat)
    : DecReader * bytes * option error :=
  let ciphertextLen := (bufSize + Overhead c)%nat in
  if dr_seqNum r =? 0 then (dr_set_err r (Some ErrExceeded), [], Some ErrExceeded)
  else
    let nonce := put_seq (dr_nonce r) (dr_seqNum r) in
    let seq := u32_incr (dr_seqNum r) in
    let '(data, rest, e) := readFrom (dr_src r) (1 + ciphertextLen - fro)%nat in
    let buf := if (fro =? 0)%nat then data else dr_carry r :: data in
    match e with
    | None =>
        let r0 := mkDecReader seq nonce (dr_associatedData r) (dr_plaintextBuffer r)
                    (dr_offset r) (dr_err r) (nth ciphertextLen buf x00)
                    (dr_firstRead r) (dr_closed r) rest (dr_opened r) (dr_rejected r) in
        match dr_open r0 nonce (take ciphertextLen buf) (dr_associatedData r0) with
        | (r1, None) => (dr_set_err r1 (Some NotAuthentic), [], Some NotAuthentic)
        | (r1, Some pt) =>
            if (plen <? bufSize)%nat then
              (mkDecReader (dr_seqNum r1) (dr_nonce r1) (dr_associatedData r1) pt
                 (Nat.min plen (length pt)) (dr_err r1) (dr_carry r1) (dr_firstRead r1)
                 (dr_closed r1) (dr_src r1) (dr_opened r1) (dr_rejected r1),
               take plen pt, None)
            else (r1, pt, None)
        end
    | Some _ =>
        if (length buf <? Overhead c)%nat then
          let r0 := mkDecReader seq nonce (dr_associatedData r) (dr_plaintextBuffer r)
                      (dr_offset r) (Some NotAuthentic) (dr_carry r) (dr_firstRead r)
                      (dr_closed r) rest (dr_opened r) (dr_rejected r) in
          (r0, [], Some NotAuthentic)
        else
        let ad := set_final (dr_associatedData r) in
        let r0 := mkDecReader seq nonce ad (dr_plaintextBuffer r)
                    (dr_offset r) (dr_err r) (dr_carry r)
                    (dr_firstRead r) true rest (dr_opened r) (dr_rejected r) in
        match dr_open r0 nonce buf ad with
        | (r1, None) => (dr_set_err r1 (Some NotAuthentic), [], Some NotAuthentic)
        | (r1, Some pt) =>
            if (plen <? length buf - Overhead c)%nat then
              (mkDecReader (dr_seqNum r1) (dr_nonce r1) (dr_associatedData r1) pt
                 (Nat.min plen (length pt)) (dr_err r1) (dr_carry r1) (dr_firstRead r1)
                 (dr_closed r1) (dr_src r1) (dr_opened r1) (dr_rejected r1),
               take plen pt, None)
            else (r1, pt, Some EOF)
        end
    end.

Definition DecReader_Read (r : DecReader) (plen : nat)
    : DecReader * bytes * option error :=
  match dr_err r with
  | Some e => (r, [], Some e)
  | None =>
      let first :=
        if dr_firstRead r then
          match DecReader_readFragment (dr_clear_firstRead r) plen 0 with
          | (r1, d, Some e) => inr (r1, d, Some e)
          | (r1, d, None) => inl (r1, d)
          end
        else inl (r, []) in
      match first with
      | inr res => res
      | inl (r1, d1) =>
          let plen1 := (plen - length d1)%nat in
          let second :=
            if (0 <? dr_offset r1)%nat then
              let pending := drop (dr_offset r1) (dr_plaintextBuffer r1) in
              let nn := Nat.min plen1 (length pending) in
              if (nn =? plen1)%nat
              then inr (dr_set_offset r1 (dr_offset r1 + nn)%nat, d1 ++ take nn pending, None)
              else inl (dr_set_offset r1 0, d1 ++ take nn pending, (plen1 - nn)%nat)
            else inl (r1, d1, plen1) in
          match second with
          | inr res => res
          | inl (r2, d2, plen2) =>
              if dr_closed r2 then (r2, d2, Some EOF)
              else
                let '(r3, d3, e3) := DecReader_readFragment r2 plen2 1 in
                (r3, d2 ++ d3, e3)
          end
      end
  end.

(** [ReadByte()]: the reader and either the byte or the error; indexing an
    empty [plaintextBuffer] panics. *)
Definition DecReader_ReadByte (r : DecReader) : outcome (DecReader * (byte + error)) :=
  match dr_err r with
  | Some e => Ret (r, inr e)
  | None =>
      if dr_firstRead r then
        match DecReader_readFragment (dr_clear_firstRead r) 0 0 with
        | (r1, _, Some e) => Ret (r1, inr e)
        | (r1, _, None) =>
            match dr_plaintextBuffer r1 with
            | [] => Panic
            | b :: _ => Ret (dr_set_offset r1 1, inl b)
            end
        end
      else if ((0 <? dr_offset r) && (dr_offset r <? length (dr_plaintextBuffer r)))%nat then
        Ret (dr_set_offset r (S (dr_offset r)),
             inl (nth (dr_offset r) (dr_plaintextBuffer r) x00))
      else if dr_closed r then Ret (r, inr EOF)
      else
        match DecReader_readFragment (dr_set_offset r 0) 0 1 with
        | (r1, _, Some e) => Ret (r1, inr e)
        | (r1, _, None) =>
            match dr_plaintextBuffer r1 with
            | [] => Panic
            | b :: _ => Ret (dr_set_offset r1 1, inl b)
            end
        end
  end.

(** the [for] loop of [WriteTo]: [readFragment(r.buffer, 1)] with
    [len(r.buffer) = 1 + bufSize + Overhead()] *)
Fixpoint dr_writeto_loop (fuel : nat) (r : DecReader) (out : bytes)
    : DecReader * bytes * option error :=
  match fuel with
  | O => (r, out, None)
  | S fuel' =>
      match DecReader_readFragment r (1 + bufSize + Overhead c)%nat 1 with
      | (r1, d, Some EOF) =>
          if dr_closed r1 then (r1, out ++ d, None) else dr_writeto_loop fuel' r1 (out ++ d)
      | (r1, _, Some e) => (r1, out, Some e)
      | (r1, d, None) =>
          if dr_closed r1 then (r1, out ++ d, None) else dr_writeto_loop fuel' r1 (out ++ d)
      end
  end.

(** [WriteTo(w)] into an in-memory writer: the reader, the bytes written to
    [w] and the error. *)
Definition DecReader_WriteTo (r : DecReader) : DecReader * bytes * option error :=
  match dr_err r with
  | Some e => (r, [], Some e)
  | None =>
      let first :=
        if dr_firstRead r then
          match DecReader_readFragment (dr_clear_firstRead r)
                  (1 + bufSize + Overhead c)%nat 0 with
          | (r1, d, Some EOF) =>
              if dr_closed r1 then inr (r1, d, None) else inl (r1, d)
          | (r1, _, Some e) => inr (r1, [], Some e)
          | (r1, d, None) =>
              if dr_closed r1 then inr (r1, d, None) else inl (r1, d)
          end
        else inl (r, []) in
      match first with
      | inr res => res
      | inl (r1, out1) =>
          let '(r2, out2) :=
            if (0 <? dr_offset r1)%nat
            then (dr_set_offset r1 0, out1 ++ drop (dr_offset r1) (dr_plaintextBuffer r1))
            else (r1, out1) in
          if dr_closed r2 then (r2, out2, Some EOF)
          else dr_writeto_loop (S (length (dr_src r2))) r2 out2
      end
  end.

(** ** DecReaderAt *)

Definition blackHoleSize : nat := Z.to_nat 8192.

(** [io.CopyN(ioutil.Discard, &decReader, k)]: [ioutil.Discard.ReadFrom]
    reads through an [io.LimitReader] with an 8192-byte buffer, so every
    [Read] asks for [min(8192, left)] bytes. *)
Fixpoint discard_loop (fuel : nat) (r : DecReader) (left written : nat)
    : DecReader * nat * option error :=
  match fuel with
  | O => (r, written, None)
  | S fuel' =>
      if (left =? 0)%nat then (r, written, None)
      else
        match DecReader_Read r (Nat.min blackHoleSize left) with
        | (r1, d, Some EOF) => (r1, (written + length d)%nat, None)
        | (r1, d, Some e) => (r1, (written + length d)%nat, Some e)
        | (r1, d, None) => discard_loop fuel' r1 (left - length d)%nat (written + length d)%nat
        end
  end.

Definition CopyN_Discard (r : DecReader) (k : nat) : DecReader * option error :=
  let '(r1, written, e) := discard_loop (S k) r k 0 in
  if (written =? k)%nat then (r1, None)
  else match e with None => (r1, Some EOF) | Some e => (r1, Some e) end.

(** [readFrom(&decReader, p)] with [len(p) = want] *)
Fixpoint readfrom_loop (fuel : nat) (r : DecReader) (want : nat) (acc : bytes)
    : DecReader * bytes * option error :=
  match fuel with
  | O => (r, acc, None)
  | S fuel' =>
      if (length acc <? want)%nat then
        match DecReader_Read r (want - length acc)%nat with
        | (r1, d, None) => readfrom_loop fuel' r1 want (acc ++ d)
        | (r1, d, Some e) => (r1, acc ++ d, Some e)
        end
      else (r, acc, None)
  end.

Definition readFrom_DecReader (r : DecReader) (want : nat)
    : DecReader * bytes * option error :=
  let '(r1, d, e) := readfrom_loop (S want) r want [] in
  match e with
  | Some EOF => if (length d =? want)%nat then (r1, d, None) else (r1, d, Some EOF)
  | _ => (r1, d, e)
  end.

(** A [DecReaderAt] over the in-memory [io.ReaderAt] [src]. *)
Record DecReaderAt := mkDecReaderAt {
  dra_src : bytes;
  dra_nonce : bytes;
  dra_associatedData : bytes
}.

Definition DecryptReaderAt (src nonce ad : bytes) : outcome DecReaderAt :=
  if negb (Z.of_nat (length nonce) =? NonceSize c - 4) then Panic
  else
    let n0 := put_seq (nonce ++ [x00; x00; x00; x00]) 0 in
    Ret (mkDecReaderAt src n0 (x00 :: Seal c n0 [] ad)).

(** the [DecReader] that [ReadAt] builds for fragment [t]: its source is a
    [sectionReader] at [t * (bufSize + Overhead())] (an [int64] product; it
    only wraps when [t + 1] wrapped in the check of [ReadAt], and then the
    sequence number is 0 and the reader never reads its source) *)
Definition ReadAt_reader (r : DecReaderAt) (t : Z) : DecReader :=
  mkDecReader ((1 + t mod 2 ^ 32) mod 2 ^ 32) (dra_nonce r) (dra_associatedData r)
    [] 0 None x00 true false
    (drop (Z.to_nat (wrap64 (t * Z.of_nat (bufSize + Overhead c)))) (dra_src r)) [] false.

(** [ReadAt(p, offset)] with [len(p) = plen]: the bytes [p[:n]] and the
    error, together with the final state of the internal [DecReader]. *)
Definition DecReaderAt_ReadAt_full (r : DecReaderAt) (plen : nat) (offset : Z)
    : option DecReader * bytes * option error :=
  if offset <? 0 then (None, [], Some ErrNegativeOffset)
  else
    let t := Z.quot offset (Z.of_nat bufSize) in
    if wrap64 (t + 1) >? MaxUint32 then (None, [], Some ErrExceeded)
    else
      let dr := ReadAt_reader r t in
      let k := Z.rem offset (Z.of_nat bufSize) in
      let skipped :=
        if k >? 0 then
          match CopyN_Discard dr (Z.to_nat k) with
          | (dr1, Some e) => inr (dr1, e)
          | (dr1, None) => inl dr1
          end
        else inl dr in
      match skipped with
      | inr (dr1, e) => (Some dr1, [], Some e)
      | inl dr1 =>
          let '(dr2, d, e) := readFrom_DecReader dr1 plen in
          (Some dr2, d, e)
      end.


End Readers.

(** ** A toy AEAD

    An instance of the [cipher.AEAD] interface used to run the code on
    concrete inputs: the ciphertext is the plaintext followed by a two-byte
    tag (the first byte of the associated data and a checksum of nonce,
    associated data and plaintext).  It has no security; it satisfies the
    functional contract of an AEAD and rejects a fragment opened with a
    different flag byte. *)
Definition byte_sum (l : bytes) : Z :=
  fold_left (fun acc b => acc + Z.of_N (Byte.to_N b)) l 0.

Definition toy_tag (nonce p ad : bytes) : bytes :=
  [hd x00 ad; byte_of_Z (byte_sum (nonce ++ ad ++ p))].

Definition toy_seal (nonce p ad : bytes) : bytes := p ++ toy_tag nonce p ad.

Definition toy_open (nonce ct ad : bytes) : option bytes :=
  if (length ct <? 2)%nat then None
  else
    let p := take (length ct - 2) ct in
    if bool_decide (drop (length ct - 2) ct = toy_tag nonce p ad) then Some p else None.

Definition toy_aead : AEAD :=
  {| NonceSize := 12; Overhead := 2; Seal := toy_seal; Open := toy_open |}.

Definition toy_nonce : bytes := repeat x00 8.

(** ** Reference formulas of the specification *)

(** the overhead formula of the specification for fragment size [L] and
    tag size [tau] *)
Definition overhead_spec (L tau len : Z) : Z :=
  if len =? 0 then tau
  else if negb (len mod L =? 0) then tau * (len / L + 1)
  else tau * (len / L).

(** the toy AEAD with a four-byte nonce *)
Definition toy_aead_n4 : AEAD :=
  {| NonceSize := 4; Overhead := 2; Seal := toy_seal; Open := toy_open |}.

(** ** Drivers

    A consumer that calls [Read] on an [EncReader] with the given buffer
    sizes until an error (such as [io.EOF]) is returned: the bytes received
    and the last error. *)
Fixpoint EncReader_drive (c : AEAD) (L : nat) (r : EncReader) (sizes : list nat)
    : bytes * option error :=
  match sizes with
  | [] => ([], None)
  | k :: ks =>
      let '(r1, d, e) := EncReader_Read c L r k in
      match e with
      | Some e => (d, Some e)
      | None => let '(o, e') := EncReader_drive c L r1 ks in (d ++ o, e')
      end
  end.

(** encrypt [P] with an [EncReader] read by a consumer with the given
    buffer sizes *)
Definition encrypt_by_reads (c : AEAD) (L : nat) (nonce ad P : bytes)
    (sizes : list nat) : outcome (bytes * option error) :=
  match EncryptReader c P nonce ad with
  | Panic => Panic
  | Ret r => Ret (EncReader_drive c L r sizes)
  end.

(** decrypt [C] with a [DecWriter]: one [Write] and, if it succeeded,
    [Close]; the plaintext written downstream and the error *)
Definition decrypt_by_write (c : AEAD) (L : nat) (nonce ad C : bytes)
    : outcome (bytes * option error) :=
  match DecryptWriter c nonce ad with
  | Panic => Panic
  | Ret w =>
      match DecWriter_Write c L w C with
      | Panic => Panic
      | Ret (w1, _, Some e) => Ret (dw_out w1, Some e)
      | Ret (w1, _, None) =>
          let '(w2, e2) := DecWriter_Close c w1 in Ret (dw_out w2, e2)
      end
  end.

(** a consumer that calls [Read] on a [DecReader] with the given buffer
    sizes until an error (such as [io.EOF]) is returned *)
Fixpoint DecReader_drive (c : AEAD) (L : nat) (r : DecReader) (sizes : list nat)
    : bytes * option error :=
  match sizes with
  | [] => ([], None)
  | k :: ks =>
      let '(r1, d, e) := DecReader_Read c L r k in
      match e with
      | Some e => (d, Some e)
      | None => let '(o, e') := DecReader_drive c L r1 ks in (d ++ o, e')
      end
  end.

Definition decrypt_by_reads (c : AEAD) (L : nat) (nonce ad C : bytes)
    (sizes : list nat) : outcome (bytes * option error) :=
  match DecryptReader c C nonce ad with
  | Panic => Panic
  | Ret r => Ret (DecReader_drive c L r sizes)
  end.

(** ** The fragment encoding

    The stream of the package: the plaintext is cut into fragments of [L]
    bytes, the last one holding the rest (1 to [L] bytes; an empty
    plaintext gives one empty fragment); fragment [i] (from 1) is sealed
    with the nonce carrying [i] and the associated data [flag :: T], with
    flag [0x80] for the last fragment and [0x00] otherwise, where [T] seals
    the caller's associated data under sequence number 0. *)
Fixpoint chunks_aux (fuel L : nat) (P : bytes) : list bytes :=
  match fuel with
  | O => [P]
  | S f => if (L <? length P)%nat then take L P :: chunks_aux f L (drop L P) else [P]
  end.

Definition chunks (L : nat) (P : bytes) : list bytes := chunks_aux (length P) L P.

(** the nonce [EncryptWriter] and friends derive for sequence number 0 *)
Definition nonce0 (nonce : bytes) : bytes := put_seq (nonce ++ [x00; x00; x00; x00]) 0.

Definition ad_tag (c : AEAD) (nonce ad : bytes) : bytes := Seal c (nonce0 nonce) [] ad.

(** intermediate fragments from sequence number [seq] on *)
Fixpoint seal_inter (c : AEAD) (n0 T : bytes) (seq : Z) (full : list bytes) : bytes :=
  match full with
  | [] => []
  | x :: r => Seal c (put_seq n0 seq) x (x00 :: T) ++ seal_inter c n0 T (seq + 1) r
  end.

Fixpoint seal_frags (c : AEAD) (n0 T : bytes) (seq : Z) (fr : list bytes) : bytes :=
  match fr with
  | [] => []
  | [x] => Seal c (put_seq n0 seq) x (x80 :: T)
  | x :: r => Seal c (put_seq n0 seq) x (x00 :: T) ++ seal_frags c n0 T (seq + 1) r
  end.

Definition stream_encrypt (c : AEAD) (L : nat) (nonce ad P : bytes) : bytes :=
  seal_frags c (nonce0 nonce) (ad_tag c nonce ad) 1 (chunks L P).

(** a producer that writes the pieces [ps] one [Write] after the other and
    stops at the first error *)
Fixpoint EncWriter_writes (c : AEAD) (L : nat) (w : EncWriter) (ps : list bytes)
    : outcome (EncWriter * option error) :=
  match ps with
  | [] => Ret (w, None)
  | p :: ps' =>
      match EncWriter_Write c L w p with
      | Panic => Panic
      | Ret (w1, _, Some e) => Ret (w1, Some e)
      | Ret (w1, _, None) => EncWriter_writes c L w1 ps'
      end
  end.

(** encrypt with an [EncWriter]: the writes, then [Close]; the bytes
    written downstream and the error *)
Definition encrypt_by_writes (c : AEAD) (L : nat) (nonce ad : bytes) (ps : list bytes)
    : outcome (bytes * option error) :=
  match EncryptWriter c nonce ad with
  | Panic => Panic
  | Ret w =>
      match EncWriter_writes c L w ps with
      | Panic => Panic
      | Ret (w1, Some e) => Ret (ew_out w1, Some e)
      | Ret (w1, None) => let '(w2, e2) := EncWriter_Close c w1 in Ret (ew_out w2, e2)
      end
  end.

(** The state of an [EncWriter] after the plaintext [Q] has been written:
    the full fragments sealed so far and the buffered rest. *)
Definition EW_inv (c : AEAD) (L : nat) (n0 T : bytes) (w : EncWriter) (Q : bytes) : Prop :=
  exists full,
    Forall (fun x => length x = L) full /\
    ew_seqNum w = Z.of_nat (length full) + 1 /\
    (forall s, put_seq (ew_nonce w) s = put_seq n0 s) /\
    ew_associatedData w = x00 :: T /\ ew_err w = None /\ ew_closed w = false /\
    Q = concat full ++ ew_buffer w /\ (length (ew_buffer w) <= L)%nat /\
    (ew_buffer w = [] -> full = []) /\
    ew_out w = seal_inter c n0 T 1 full.

(** the total ciphertext length the specification states for a
    plaintext of [len] bytes: [len + ceil((len + 1) / L) * tau] *)
Definition ciphertext_length_spec (L tau len : Z) : Z := len + (len + 1 + L - 1) / L * tau.

(** ** Invariants and drivers of the decrypt adapters *)

(** the fragment lengths of a well-formed plaintext: every fragment but
    the last has [L] bytes, the last at most [L] and at least one unless it
    is the only one ([first]) *)
Fixpoint chunks_ok (first : bool) (L : nat) (Xs : list bytes) : Prop :=
  match Xs with
  | [] => True
  | [x] => (length x <= L)%nat /\ (first = true \/ (1 <= length x)%nat)
  | x :: Xs' => length x = L /\ chunks_ok false L Xs'
  end.

(** the upstream bytes as [readFragment(_, fro)] sees them *)
Definition dr_view (r : DecReader) (fro : nat) (S : bytes) : Prop :=
  (fro = 0%nat /\ dr_src r = S) \/ (fro = 1%nat /\ dr_carry r :: dr_src r = S).

(** a [DecReader] after its first fragment, on the stream with base nonce
    [n0] and associated data tag [T], before its next sequence number [s] *)
Definition dr_base (n0 T : bytes) (r : DecReader) (s : Z) : Prop :=
  dr_err r = None /\ dr_seqNum r = s /\
  (forall s', put_seq (dr_nonce r) s' = put_seq n0 s') /\
  dr_associatedData r = x00 :: T /\ dr_closed r = false /\
  dr_firstRead r = false.

(** a [DecReader] that still has to deliver the plaintext fragments [Xs],
    after the pending bytes [pend] of its buffer *)
Definition DR_good (c : AEAD) (L : nat) (n0 T : bytes) (r : DecReader) (Xs : list bytes) (pend : bytes) : Prop :=
  dr_err r = None /\ (forall s', put_seq (dr_nonce r) s' = put_seq n0 s') /\
  chunks_ok true L Xs /\
  (Xs <> [] -> 1 <= dr_seqNum r /\ dr_seqNum r + Z.of_nat (length Xs) <= 2 ^ 32) /\
  if dr_firstRead r then
    Xs <> [] /\ pend = [] /\ dr_offset r = 0%nat /\ dr_closed r = false /\
    dr_associatedData r = x00 :: T /\ dr_src r = seal_frags c n0 T (dr_seqNum r) Xs
  else
    (if (0 <? dr_offset r)%nat then drop (dr_offset r) (dr_plaintextBuffer r) else []) = pend /\
    ((Xs = [] /\ dr_closed r = true) \/
     (Xs <> [] /\ dr_closed r = false /\ dr_associatedData r = x00 :: T /\
      dr_carry r :: dr_src r = seal_frags c n0 T (dr_seqNum r) Xs)).

(** a [DecWriter] on the stream with base nonce [n0] and tag [T] whose
    next sequence number is [s] *)
Definition dw_base (n0 T : bytes) (w : DecWriter) (s : Z) : Prop :=
  dw_err w = None /\ dw_seqNum w = s /\
  (forall s', put_seq (dw_nonce w) s' = put_seq n0 s') /\
  dw_associatedData w = x00 :: T /\ dw_closed w = false.

(** the operations a caller performs on a [DecReader]; [DR_Read plen] is
    [Read(p)] with [len(p) = plen] *)
Inductive dr_op : Type :=
  | DR_Read (plen : nat)
  | DR_ReadByte
  | DR_WriteTo.

(** one operation: the new reader and the bytes delivered to the caller
    (the [n] bytes [Read] reports, the byte [ReadByte] returns, the bytes
    [WriteTo] writes) *)
Definition dr_step (c : AEAD) (L : nat) (r : DecReader) (op : dr_op)
    : outcome (DecReader * bytes) :=
  match op with
  | DR_Read plen => let '(r1, d, _) := DecReader_Read c L r plen in Ret (r1, d)
  | DR_ReadByte =>
      match DecReader_ReadByte c L r with
      | Panic => Panic
      | Ret (r1, inl b) => Ret (r1, [b])
      | Ret (r1, inr _) => Ret (r1, [])
      end
  | DR_WriteTo => let '(r1, out, _) := DecReader_WriteTo c L r in Ret (r1, out)
  end.

(** a sequence of operations and everything delivered *)
Fixpoint dr_run (c : AEAD) (L : nat) (r : DecReader) (ops : list dr_op)
    : outcome (DecReader * bytes) :=
  match ops with
  | [] => Ret (r, [])
  | op :: ops' =>
      match dr_step c L r op with
      | Panic => Panic
      | Ret (r1, d1) =>
          match dr_run c L r1 ops' with
          | Panic => Panic
          | Ret (r2, d2) => Ret (r2, d1 ++ d2)
          end
      end
  end.

(** the delivered bytes [D] are a subsequence of the opened plaintext and,
    while bytes of the buffered fragment are pending, of the plaintext
    opened before it and the part of it already delivered; a failed [Open]
    has latched [NotAuthentic] *)
Definition dr_inv (r : DecReader) (D : bytes) : Prop :=
  (dr_rejected r = true -> dr_err r = Some NotAuthentic) /\
  (dr_firstRead r = true -> dr_offset r = 0%nat) /\
  D `sublist_of` dr_opened r /\
  ((0 < dr_offset r)%nat ->
   exists X, dr_opened r = X ++ dr_plaintextBuffer r /\
     (dr_offset r <= length (dr_plaintextBuffer r))%nat /\
     D `sublist_of` X ++ take (dr_offset r) (dr_plaintextBuffer r)).

(** the operations a caller performs on a [DecWriter] *)
Inductive dw_op : Type :=
  | DW_Write (p : bytes)
  | DW_WriteByte (b : byte)
  | DW_Close
  | DW_ReadFrom (src : bytes).

(** one operation, keeping the new writer *)
Definition dw_step (c : AEAD) (L : nat) (w : DecWriter) (op : dw_op) : outcome DecWriter :=
  match op with
  | DW_Write p =>
      match DecWriter_Write c L w p with Panic => Panic | Ret (w1, _, _) => Ret w1 end
  | DW_WriteByte b =>
      match DecWriter_WriteByte c L w b with Panic => Panic | Ret (w1, _) => Ret w1 end
  | DW_Close => let '(w1, _) := DecWriter_Close c w in Ret w1
  | DW_ReadFrom src =>
      match DecWriter_ReadFrom c L w src with Panic => Panic | Ret (w1, _, _, _) => Ret w1 end
  end.

(** a sequence of operations *)
Fixpoint dw_run (c : AEAD) (L : nat) (w : DecWriter) (ops : list dw_op) : outcome DecWriter :=
  match ops with
  | [] => Ret w
  | op :: ops' => match dw_step c L w op with Panic => Panic | Ret w1 => dw_run c L w1 ops' end
  end.

(** the downstream writer got exactly the opened plaintext, and a failed
    [Open] has latched [NotAuthentic] *)
Definition dw_inv (w : DecWriter) : Prop :=
  dw_out w = dw_opened w /\ (dw_rejected w = true -> dw_err w = Some NotAuthentic).

(** ** Drivers of the writers: a producer that writes the pieces [ps]
    one [Write] (resp. the bytes one [WriteByte]) after the other, stops
    at the first error and otherwise calls [Close] *)

Fixpoint DecWriter_writes (c : AEAD) (L : nat) (w : DecWriter) (ps : list bytes)
    : outcome (DecWriter * option error) :=
  match ps with
  | [] => Ret (w, None)
  | p :: ps' =>
      match DecWriter_Write c L w p with
      | Panic => Panic
      | Ret (w1, _, Some e) => Ret (w1, Some e)
      | Ret (w1, _, None) => DecWriter_writes c L w1 ps'
      end
  end.

Definition decrypt_by_writes (c : AEAD) (L : nat) (nonce ad : bytes) (ps : list bytes)
    : outcome (bytes * option error) :=
  match DecryptWriter c nonce ad with
  | Panic => Panic
  | Ret w =>
      match DecWriter_writes c L w ps with
      | Panic => Panic
      | Ret (w1, Some e) => Ret (dw_out w1, Some e)
      | Ret (w1, None) => let '(w2, e2) := DecWriter_Close c w1 in Ret (dw_out w2, e2)
      end
  end.

Fixpoint DecWriter_writebytes (c : AEAD) (L : nat) (w : DecWriter) (bs : bytes)
    : outcome (DecWriter * option error) :=
  match bs with
  | [] => Ret (w, None)
  | b :: bs' =>
      match DecWriter_WriteByte c L w b with
      | Panic => Panic
      | Ret (w1, Some e) => Ret (w1, Some e)
      | Ret (w1, None) => DecWriter_writebytes c L w1 bs'
      end
  end.

Definition decrypt_by_writebytes (c : AEAD) (L : nat) (nonce ad C : bytes)
    : outcome (bytes * option error) :=
  match DecryptWriter c nonce ad with
  | Panic => Panic
  | Ret w =>
      match DecWriter_writebytes c L w C with
      | Panic => Panic
      | Ret (w1, Some e) => Ret (dw_out w1, Some e)
      | Ret (w1, None) => let '(w2, e2) := DecWriter_Close c w1 in Ret (dw_out w2, e2)
      end
  end.

Definition DW_good (c : AEAD) (L : nat) (n0 T : bytes) (w : DecWriter) (s : Z)
    (Xs : list bytes) (R : bytes) : Prop :=
  dw_base n0 T w s /\ chunks_ok true L Xs /\ Xs <> [] /\
  1 <= s /\ s + Z.of_nat (length Xs) <= 2 ^ 32 /\
  dw_buffer w ++ R = seal_frags c n0 T s Xs /\
  (length (dw_buffer w) <= L + Overhead c)%nat.


Fixpoint EncWriter_writebytes (c : AEAD) (L : nat) (w : EncWriter) (bs : bytes)
    : outcome (EncWriter * option error) :=
  match bs with
  | [] => Ret (w, None)
  | b :: bs' =>
      match EncWriter_WriteByte c L w b with
      | Panic => Panic
      | Ret (w1, Some e) => Ret (w1, Some e)
      | Ret (w1, None) => EncWriter_writebytes c L w1 bs'
      end
  end.

Definition encrypt_by_writebytes (c : AEAD) (L : nat) (nonce ad P : bytes)
    : outcome (bytes * option error) :=
  match EncryptWriter c nonce ad with
  | Panic => Panic
  | Ret w =>
      match EncWriter_writebytes c L w P with
      | Panic => Panic
      | Ret (w1, Some e) => Ret (ew_out w1, Some e)
      | Ret (w1, None) => let '(w2, e2) := EncWriter_Close c w1 in Ret (ew_out w2, e2)
      end
  end.


(** [copyBytes(dst, src)] (part_007) with [dst] a [bytes.Buffer], whose
    [WriteByte] never fails: the reader, the bytes written to [dst] and
    the error returned.  [fuel] bounds the number of iterations of the
    [for] loop; [copyBytes] returns [nil] on [io.EOF]. *)
Fixpoint copyBytes {R : Type} (readByte : R -> outcome (R * (byte + error))) (fuel : nat)
    (r : R) (out : bytes) : outcome (R * bytes * option error) :=
  match fuel with
  | O => Ret (r, out, None)
  | S fuel' =>
      match readByte r with
      | Panic => Panic
      | Ret (r1, inr EOF) => Ret (r1, out, None)
      | Ret (r1, inr e) => Ret (r1, out, Some e)
      | Ret (r1, inl b) => copyBytes readByte fuel' r1 (out ++ [b])
      end
  end.

(** [copyBuffer(dst, src, buf)] (fuzz.go 97-120) with [len(buf) = K]:
    [read r K] is [src.Read(buf)] (the reader, the bytes it put into
    [buf[:nr]] and its error) and [write] is [dst.Write].  Returns the
    reader, the writer, [written] (an [int64]) and the error; [fuel] bounds
    the iterations of the [for] loop. *)
Fixpoint copyBuffer {R W : Type} (read : R -> nat -> R * bytes * option error)
    (write : W -> bytes -> outcome (W * nat * option error))
    (fuel K : nat) (r : R) (w : W) (written : Z) : outcome (R * W * Z * option error) :=
  match fuel with
  | O => Ret (r, w, written, None)
  | S fuel' =>
      let '(r1, d, er) := read r K in
      let after (w1 : W) (written1 : Z) :=
        match er with
        | Some e => Ret (r1, w1, written1, if error_eqb e EOF then None else Some e)
        | None => copyBuffer read write fuel' K r1 w1 written1
        end in
      if (0 <? length d)%nat then
        match write w d with
        | Panic => Panic
        | Ret (w1, nw, ew) =>
            let written1 := if (0 <? nw)%nat then wrap64 (written + Z.of_nat nw) else written in
            match ew with
            | Some e => Ret (r1, w1, written1, Some e)
            | None => after w1 written1
            end
        end
      else after w written
  end.

(** ** [EncReader.ReadByte] and [EncReader.WriteTo] *)

Section EncReader_ops.
Variable c : AEAD.
Variable bufSize : nat.

(** [EncReader.ReadByte] (fuzz.go 197-227): [readFragment(nil, .)] puts
    the sealed fragment into [ciphertextBuffer] with [offset = 0]; an empty
    [ciphertextBuffer] makes [ciphertextBuffer[0]] panic. *)
Definition EncReader_ReadByte (r : EncReader) : outcome (EncReader * (byte + error)) :=
  match er_err r with
  | Some e => Ret (r, inr e)
  | None =>
      if er_firstRead r then
        match EncReader_readFragment c bufSize (er_clear_firstRead r) 0 0 with
        | (r1, _, Some e) => Ret (r1, inr e)
        | (r1, _, None) =>
            match er_ciphertextBuffer r1 with
            | [] => Panic
            | b :: _ => Ret (er_set_offset r1 1, inl b)
            end
        end
      else if ((0 <? er_offset r) && (er_offset r <? length (er_ciphertextBuffer r)))%nat then
        Ret (er_set_offset r (S (er_offset r)),
             inl (nth (er_offset r) (er_ciphertextBuffer r) x00))
      else if er_closed r then Ret (r, inr EOF)
      else
        match EncReader_readFragment c bufSize (er_set_offset r 0) 0 1 with
        | (r1, _, Some e) => Ret (r1, inr e)
        | (r1, _, None) =>
            match er_ciphertextBuffer r1 with
            | [] => Panic
            | b :: _ => Ret (er_set_offset r1 1, inl b)
            end
        end
  end.

(** the [for] loop of [EncReader.WriteTo], reading into [r.buffer]
    ([len = 1 + bufSize + Overhead()]); the destination never fails and
    [out] is what it received.  [fuel] bounds the iterations. *)
Fixpoint er_writeto_loop (fuel : nat) (r : EncReader) (out : bytes)
    : EncReader * bytes * option error :=
  match fuel with
  | O => (r, out, None)
  | S fuel' =>
      match EncReader_readFragment c bufSize r (1 + bufSize + Overhead c)%nat 1 with
      | (r1, d, Some EOF) =>
          if er_closed r1 then (r1, out ++ d, None) else er_writeto_loop fuel' r1 (out ++ d)
      | (r1, _, Some e) => (r1, out, Some e)
      | (r1, d, None) =>
          if er_closed r1 then (r1, out ++ d, None) else er_writeto_loop fuel' r1 (out ++ d)
      end
  end.

(** [EncReader.WriteTo] (fuzz.go 235-282): the reader, the bytes written
    and the error; the loop gets one more iteration than there are source
    bytes left, more than it can run. *)
Definition EncReader_WriteTo (r : EncReader) : EncReader * bytes * option error :=
  let first :=
    if er_firstRead r then
      match EncReader_readFragment c bufSize (er_clear_firstRead r)
              (1 + bufSize + Overhead c)%nat 0 with
      | (r1, d, Some EOF) =>
          if er_closed r1 then inr (r1, d, None) else inl (r1, d)
      | (r1, _, Some e) => inr (r1, [], Some e)
      | (r1, d, None) =>
          if er_closed r1 then inr (r1, d, None) else inl (r1, d)
      end
    else inl (r, []) in
  match first with
  | inr res => res
  | inl (r1, out1) =>
      match er_err r1 with
      | Some e => (r1, out1, Some e)
      | None =>
          let '(r2, out2) :=
            if (0 <? er_offset r1)%nat
            then (er_set_offset r1 0, out1 ++ drop (er_offset r1) (er_ciphertextBuffer r1))
            else (r1, out1) in
          if er_closed r2 then (r2, out2, Some EOF)
          else er_writeto_loop (S (length (er_src r2))) r2 out2
      end
  end.

End EncReader_ops.

(** What an [EncReader] still has to deliver: the part of the
    ciphertext buffer past [offset], then the sealed fragments of the
    plaintext it has not read yet ([carry] and the rest of the source). *)
Definition er_rest (r : EncReader) : bytes :=
  if er_firstRead r then er_src r else er_carry r :: er_src r.

Definition er_pend (r : EncReader) : bytes :=
  if (0 <? er_offset r)%nat then drop (er_offset r) (er_ciphertextBuffer r) else [].

Definition ER_tail (c : AEAD) (L : nat) (n0 T : bytes) (r : EncReader) : bytes :=
  if er_closed r then [] else seal_frags c n0 T (er_seqNum r) (chunks L (er_rest r)).

Definition ER_out (c : AEAD) (L : nat) (n0 T : bytes) (r : EncReader) : bytes :=
  er_pend r ++ ER_tail c L n0 T r.

Definition ER_good (L : nat) (n0 T : bytes) (r : EncReader) : Prop :=
  er_err r = None /\ (forall s', put_seq (er_nonce r) s' = put_seq n0 s') /\
  (er_firstRead r = true -> er_offset r = 0%nat /\ er_closed r = false) /\
  (er_closed r = false ->
   er_associatedData r = x00 :: T /\ 1 <= er_seqNum r /\
   er_seqNum r + Z.of_nat (length (chunks L (er_rest r))) <= 2 ^ 32).

(** * Properties *)

Lemma wrap64_id (z : Z) : - 2 ^ 63 <= z < 2 ^ 63 -> wrap64 z = z.
Proof. intros H. unfold wrap64. rewrite Z.mod_small; lia. Qed.

Lemma NewStream_Ret (c : AEAD) (L : Z) (s : Stream) :
  NewStream c L = Ret s ->
  4 <= NonceSize c /\ 1 <= L <= MaxBufSize /\ s = {| cipher := c; bufSize := Z.to_nat L |}.
Proof.
  unfold NewStream.
  destruct (NonceSize c <? 4) eqn:E1; [discriminate|].
  destruct (L >? MaxBufSize) eqn:E2; [discriminate|].
  destruct (L <=? 0) eqn:E3; [discriminate|].
  intros H; injection H as <-.
  apply Z.ltb_ge in E1. rewrite Z.gtb_ltb, Z.ltb_ge in E2. apply Z.leb_gt in E3.
  auto with zarith.
Qed.

Lemma Stream_Overhead_eq (c : AEAD) (L : Z) (s : Stream) (len : Z) :
  NewStream c L = Ret s ->
  Z.of_nat (Overhead c) < 2 ^ 31 ->
  ((len < 0 \/ len > L * MaxUint32) -> Stream_Overhead s len = Panic) /\
  (0 <= len <= L * MaxUint32 ->
     Stream_Overhead s len = Ret (overhead_spec L (Z.of_nat (Overhead c)) len)).
Proof.
  intros HS Htau.
  destruct (NewStream_Ret c L s HS) as (_ & HL & ->).
  unfold MaxBufSize in HL.
  unfold Stream_Overhead, overhead_spec; cbn [cipher bufSize].
  rewrite Z2Nat.id by lia.
  assert (Hw : wrap64 (L * MaxUint32) = L * MaxUint32)
    by (apply wrap64_id; unfold MaxUint32; nia).
  rewrite Hw.
  rewrite !Z.gtb_ltb.
  split.
  - intros [Hn | Hn].
    + destruct (Z.ltb_spec len 0); [reflexivity | lia].
    + destruct (Z.ltb_spec len 0); [reflexivity|].
      destruct (Z.ltb_spec (L * MaxUint32) len); [reflexivity | lia].
  - intros Hn.
    destruct (Z.ltb_spec len 0); [lia|].
    destruct (Z.ltb_spec (L * MaxUint32) len); [lia|].
    set (tau := Z.of_nat (Overhead c)).
    assert (Htau0 : 0 <= tau) by (unfold tau; lia).
    destruct (Z.eqb_spec len 0); [reflexivity|].
    rewrite Z.quot_div_nonneg, Z.rem_mod_nonneg by lia.
    assert (Ht : 0 <= len / L <= MaxUint32).
    { split; [apply Z.div_pos; lia|].
      apply Z.div_le_upper_bound; lia. }
    unfold MaxUint32 in Ht.
    assert (Hm : 0 <= len mod L < L) by (apply Z.mod_pos_bound; lia).
    destruct (Z.eqb_spec (len mod L) 0); cbn [negb].
    + destruct (Z.ltb_spec 0 (len mod L)); [lia|].
      f_equal. rewrite wrap64_id by nia. ring.
    + destruct (Z.ltb_spec 0 (len mod L)); [|lia].
      f_equal. rewrite (wrap64_id (len / L * tau)) by nia.
      rewrite wrap64_id by nia. ring.
Qed.

(** C4: for a stream built by [NewStream] with fragment size [L] and an
    AEAD whose tag size [tau] is below [2^31] (so that no [int64] product
    wraps), [Overhead(len)] panics exactly for [len < 0] and
    [len > L * (2^32 - 1)], and otherwise returns [tau] for [len = 0],
    [tau * (len / L + 1)] when [L] does not divide [len] and
    [tau * (len / L)] when it does. *)
Theorem Stream_Overhead_formula (c : AEAD) (L : Z) (s : Stream) (len : Z) :
  NewStream c L = Ret s ->
  Z.of_nat (Overhead c) < 2 ^ 31 ->
  ((len < 0 \/ len > L * MaxUint32) -> Stream_Overhead s len = Panic) /\
  (0 <= len <= L * MaxUint32 ->
     Stream_Overhead s len = Ret (overhead_spec L (Z.of_nat (Overhead c)) len)).
Proof. apply Stream_Overhead_eq. Qed.

(** Witness of C4 with the toy AEAD, [L = 2] and [len = 5]. *)
Lemma Stream_Overhead_formula_witness :
  NewStream toy_aead 2 = Ret {| cipher := toy_aead; bufSize := 2 |} /\
  Z.of_nat (Overhead toy_aead) < 2 ^ 31 /\
  ((5 < 0 \/ 5 > 2 * MaxUint32) ->
     Stream_Overhead {| cipher := toy_aead; bufSize := 2 |} 5 = Panic) /\
  (0 <= 5 <= 2 * MaxUint32 ->
     Stream_Overhead {| cipher := toy_aead; bufSize := 2 |} 5
     = Ret (overhead_spec 2 (Z.of_nat (Overhead toy_aead)) 5)).
Proof.
  split; [reflexivity|]. split; [simpl; lia|].
  apply Stream_Overhead_formula; [reflexivity | simpl; lia].
Defined.

(** C7 (counterexample): an AEAD with a four-byte nonce ([N_full = 4 < 5])
    is accepted by [NewStream]. *)
Lemma NewStream_nonce4_accepted :
  NonceSize toy_aead_n4 < 5 /\
  NewStream toy_aead_n4 1 = Ret {| cipher := toy_aead_n4; bufSize := 1 |}.
Proof. split; [simpl; lia | reflexivity]. Qed.

(** C7 (amended): [NewStream(aead, L)] panics if and only if the AEAD's
    nonce is shorter than four bytes or [L] is not in [[1, 2^24 - 1]]; a
    four-byte nonce is accepted. *)
Theorem NewStream_panics_iff (c : AEAD) (L : Z) :
  NewStream c L = Panic <-> (NonceSize c < 4 \/ L < 1 \/ L > MaxBufSize).
Proof.
  unfold NewStream. rewrite Z.gtb_ltb.
  destruct (Z.ltb_spec (NonceSize c) 4).
  - split; [intros _; left; assumption | reflexivity].
  - destruct (Z.ltb_spec MaxBufSize L).
    + split; [intros _; right; right; lia | reflexivity].
    + destruct (Z.leb_spec L 0).
      * split; [intros _; right; left; lia | reflexivity].
      * split; [discriminate | lia].
Qed.

(** C9 (counterexample): a [DecWriter] whose [Write] latched [ErrAuth]
    returns [ErrAuth] from [Close] without closing, and a later [Write]
    returns the error instead of panicking. *)
Lemma DecWriter_Write_after_failed_Close :
  match DecryptWriter toy_aead toy_nonce [] with
  | Panic => False
  | Ret w =>
      match DecWriter_Write toy_aead 2 w [x01; x02; x03; x04; x05] with
      | Panic => False
      | Ret (w1, _, _) =>
          let '(w2, e2) := DecWriter_Close toy_aead w1 in
          e2 = Some ErrAuth /\ DecWriter_Write toy_aead 2 w2 [x01] <> Panic
      end
  end.
Proof. vm_compute. split; [reflexivity | discriminate]. Qed.

(** C9 (amended): once [Close] has returned on an [EncWriter] or a
    [DecWriter] whose latched error was nil or [ErrExceeded], every later
    [Write], [WriteByte] and [ReadFrom] panics.  A writer that is not
    closed and has latched another error [e] is returned unchanged by
    [Close] together with [e]; [Write], [WriteByte] and [ReadFrom] on it
    return [e] (and nothing written or read) instead of panicking, and so
    does every later [Close]. *)
Theorem writers_panic_after_Close (c : AEAD) (L : nat) (w : EncWriter) (v : DecWriter)
    (Hw : ew_err w = None \/ ew_err w = Some ErrExceeded)
    (Hv : dw_err v = None \/ dw_err v = Some ErrExceeded) :
  (forall p b r,
     EncWriter_Write c L (fst (EncWriter_Close c w)) p = Panic /\
     EncWriter_WriteByte c L (fst (EncWriter_Close c w)) b = Panic /\
     EncWriter_ReadFrom c L (fst (EncWriter_Close c w)) r = Panic) /\
  (forall p b r,
     DecWriter_Write c L (fst (DecWriter_Close c v)) p = Panic /\
     DecWriter_WriteByte c L (fst (DecWriter_Close c v)) b = Panic /\
     DecWriter_ReadFrom c L (fst (DecWriter_Close c v)) r = Panic) /\
  (forall (w' : EncWriter) (e : error),
     ew_closed w' = false -> ew_err w' = Some e -> e <> ErrExceeded ->
     EncWriter_Close c w' = (w', Some e) /\
     forall p b r,
       EncWriter_Write c L w' p = Ret (w', 0%nat, Some e) /\
       EncWriter_WriteByte c L w' b = Ret (w', Some e) /\
       EncWriter_ReadFrom c L w' r = Ret (w', r, 0%nat, Some e)) /\
  (forall (v' : DecWriter) (e : error),
     dw_closed v' = false -> dw_err v' = Some e -> e <> ErrExceeded ->
     DecWriter_Close c v' = (v', Some e) /\
     forall p b r,
       DecWriter_Write c L v' p = Ret (v', 0%nat, Some e) /\
       DecWriter_WriteByte c L v' b = Ret (v', Some e) /\
       DecWriter_ReadFrom c L v' r = Ret (v', r, 0%nat, Some e)).
Proof.
  assert (Ec : ew_closed (fst (EncWriter_Close c w)) = true).
  { unfold EncWriter_Close, ew_close_final.
    destruct Hw as [-> | ->]; cbn [error_eqb];
      destruct (ew_closed w) eqn:E; simpl; auto. }
  assert (Dc : dw_closed (fst (DecWriter_Close c v)) = true).
  { unfold DecWriter_Close, dw_close_final.
    destruct Hv as [-> | ->]; cbn [error_eqb];
      (destruct (dw_closed v) eqn:E; [simpl; auto|]);
      unfold dw_open; simpl; destruct (Open c _ _ _); reflexivity. }
  assert (Hne : forall e, e <> ErrExceeded -> error_eqb e ErrExceeded = false).
  { intros [] H; cbn; congruence. }
  split; [|split; [|split]].
  - intros p b r. unfold EncWriter_Write, EncWriter_WriteByte, EncWriter_ReadFrom.
    rewrite Ec. auto.
  - intros p b r. unfold DecWriter_Write, DecWriter_WriteByte, DecWriter_ReadFrom.
    rewrite Dc. auto.
  - intros w' e Hc He Hx.
    unfold EncWriter_Close. rewrite He, (Hne e Hx). split; [reflexivity|].
    intros p b r. unfold EncWriter_Write, EncWriter_WriteByte, EncWriter_ReadFrom.
    rewrite Hc, He. auto.
  - intros v' e Hc He Hx.
    unfold DecWriter_Close. rewrite He, (Hne e Hx). split; [reflexivity|].
    intros p b r. unfold DecWriter_Write, DecWriter_WriteByte, DecWriter_ReadFrom.
    rewrite Hc, He. auto.
Qed.

(** Witness of C9 (amended): fresh writers of the toy AEAD, and the
    [DecWriter] whose [Write] of [01 .. 05] latched [ErrAuth]. *)
Lemma writers_panic_after_Close_witness :
  match EncryptWriter toy_aead toy_nonce [], DecryptWriter toy_aead toy_nonce [] with
  | Ret w, Ret v =>
      (ew_err w = None \/ ew_err w = Some ErrExceeded) /\
      (dw_err v = None \/ dw_err v = Some ErrExceeded) /\
      DecWriter_Write toy_aead 2 (fst (DecWriter_Close toy_aead v)) [x01] = Panic /\
      match DecWriter_Write toy_aead 2 v [x01; x02; x03; x04; x05] with
      | Ret (v1, _, _) =>
          dw_closed v1 = false /\ dw_err v1 = Some ErrAuth /\
          DecWriter_Close toy_aead v1 = (v1, Some ErrAuth) /\
          DecWriter_Write toy_aead 2 v1 [x01] = Ret (v1, 0%nat, Some ErrAuth)
      | Panic => False
      end
  | _, _ => False
  end.
Proof.
  destruct (EncryptWriter toy_aead toy_nonce []) as [|w] eqn:Ew;
    [vm_compute in Ew; discriminate|].
  destruct (DecryptWriter toy_aead toy_nonce []) as [|v] eqn:Ev;
    [vm_compute in Ev; discriminate|].
  assert (Hw : ew_err w = None) by (vm_compute in Ew; injection Ew as <-; reflexivity).
  assert (Hv : dw_err v = None) by (vm_compute in Ev; injection Ev as <-; reflexivity).
  pose proof (writers_panic_after_Close toy_aead 2 w v (or_introl Hw) (or_introl Hv))
    as (_ & H2 & _ & H4).
  split; [left; exact Hw|]. split; [left; exact Hv|].
  split; [exact (proj1 (H2 [x01] x00 []))|].
  destruct (DecWriter_Write toy_aead 2 v [x01; x02; x03; x04; x05])
    as [|[[v1 n1] e1]] eqn:E1; [vm_compute in Ev; injection Ev as <-; vm_compute in E1; discriminate|].
  assert (Hc1 : dw_closed v1 = false)
    by (vm_compute in Ev; injection Ev as <-; vm_compute in E1; injection E1 as <- _ _; reflexivity).
  assert (He1 : dw_err v1 = Some ErrAuth)
    by (vm_compute in Ev; injection Ev as <-; vm_compute in E1; injection E1 as <- _ _; reflexivity).
  assert (Hx : ErrAuth <> ErrExceeded) by discriminate.
  destruct (H4 v1 ErrAuth Hc1 He1 Hx) as [Hcl Hops].
  split; [exact Hc1|]. split; [exact He1|]. split; [exact Hcl|].
  exact (proj1 (Hops [x01] x00 [])).
Defined.


(** C1 (failing input): with the toy AEAD, [L = 2] and the plaintext
    [01 02 03 04 05], an [EncReader] read with buffers of 100 bytes yields a
    ciphertext that decrypts to the plaintext, but a consumer whose first
    buffer has exactly [L + Overhead() = 4] bytes receives a ciphertext
    without the second fragment (and a normal [io.EOF]); a [DecWriter]
    rejects it after two bytes.  Likewise a [DecReader] whose first buffer
    has exactly [L] bytes drops the plaintext of the second fragment of a
    valid ciphertext and ends with a normal [io.EOF]. *)
Theorem EncReader_DecReader_fragment_sized_first_Read :
  let P := [x01; x02; x03; x04; x05] in
  let C := [x01; x02; x00; x04; x03; x04; x00; x09; x05; x80; x88] in
  encrypt_by_reads toy_aead 2 toy_nonce [] P [100; 100; 100]%nat = Ret (C, Some EOF) /\
  decrypt_by_write toy_aead 2 toy_nonce [] C = Ret (P, None) /\
  decrypt_by_reads toy_aead 2 toy_nonce [] C [100; 100; 100]%nat = Ret (P, Some EOF) /\
  encrypt_by_reads toy_aead 2 toy_nonce [] P [4; 100; 100]%nat
    = Ret ([x01; x02; x00; x04; x05; x80; x88], Some EOF) /\
  decrypt_by_write toy_aead 2 toy_nonce [] [x01; x02; x00; x04; x05; x80; x88]
    = Ret ([x01; x02], Some ErrAuth) /\
  decrypt_by_reads toy_aead 2 toy_nonce [] C [2; 100; 100]%nat
    = Ret ([x01; x02; x05], Some EOF).
Proof. vm_compute. repeat split. Qed.

(** C6 (failing input): an [EncWriter] with [seqNum = 2^32 - 1], fragment
    size 2 and one buffered byte [a] accepts one more byte of [Write([b0;
    b1])], reports [ErrExceeded] and clears its buffer; [Close] then seals
    an empty final fragment, so [a] and [b0] are lost.  [WriteByte] in the
    same situation keeps the buffer and [Close] seals it. *)
Theorem EncWriter_Write_exhausted_drops_buffer (c : AEAD) (nonce ad out : bytes)
    (a b0 b1 : byte) :
  let last := put_seq nonce MaxUint32 in
  EncWriter_Write c 2 (mkEncWriter MaxUint32 nonce ad [a] None false out) [b0; b1]
    = Ret (mkEncWriter MaxUint32 nonce ad [] (Some ErrExceeded) false out, 1%nat,
           Some ErrExceeded) /\
  EncWriter_Close c (mkEncWriter MaxUint32 nonce ad [] (Some ErrExceeded) false out)
    = (mkEncWriter MaxUint32 last (set_final ad) [] None true
         (out ++ Seal c last [] (set_final ad)), None) /\
  EncWriter_WriteByte c 2 (mkEncWriter MaxUint32 nonce ad [a; b0] None false out) b1
    = Ret (mkEncWriter MaxUint32 nonce ad [a; b0] (Some ErrExceeded) false out,
           Some ErrExceeded) /\
  EncWriter_Close c (mkEncWriter MaxUint32 nonce ad [a; b0] (Some ErrExceeded) false out)
    = (mkEncWriter MaxUint32 last (set_final ad) [a; b0] None true
         (out ++ Seal c last [a; b0] (set_final ad)), None).
Proof. repeat split. Qed.

(** C10 (failing input): with the toy AEAD, [L = 2] and the plaintext
    [01 02 03 04 05], a zero-length [Read] on a fresh [EncReader] returns no
    byte and no error, but the [Read]s after it deliver only the last
    fragment of the ciphertext: the first two fragments are sealed into the
    internal buffer with nothing copied out, and the buffer is overwritten.
    The same holds for a fresh [DecReader] on the ciphertext, and for a
    zero-length [Read] in the middle of the stream when nothing is pending
    (after [Read]s of 8 resp. 4 bytes, two whole fragments): the fragment
    read next is lost.  On the one-fragment plaintext [01] the zero-length
    [Read] swallows the whole stream. *)
Theorem zero_length_Read_drops_fragments :
  let P := [x01; x02; x03; x04; x05] in
  let C := [x01; x02; x00; x04; x03; x04; x00; x09; x05; x80; x88] in
  match EncryptReader toy_aead P toy_nonce [] with
  | Panic => False
  | Ret r =>
      let '(r1, d, e) := EncReader_Read toy_aead 2 r 0 in
      d = [] /\ e = None /\
      EncReader_drive toy_aead 2 r [100; 100; 100]%nat = (C, Some EOF) /\
      EncReader_drive toy_aead 2 r1 [100; 100; 100]%nat = ([x05; x80; x88], Some EOF)
  end /\
  match DecryptReader toy_aead C toy_nonce [] with
  | Panic => False
  | Ret r =>
      let '(r1, d, e) := DecReader_Read toy_aead 2 r 0 in
      d = [] /\ e = None /\
      DecReader_drive toy_aead 2 r [100; 100; 100]%nat = (P, Some EOF) /\
      DecReader_drive toy_aead 2 r1 [100; 100; 100]%nat = ([x05], Some EOF)
  end /\
  encrypt_by_reads toy_aead 2 toy_nonce [] P [8; 100; 100]%nat = Ret (C, Some EOF) /\
  encrypt_by_reads toy_aead 2 toy_nonce [] P [8; 0; 100; 100]%nat
    = Ret ([x01; x02; x00; x04; x03; x04; x00; x09], Some EOF) /\
  decrypt_by_reads toy_aead 2 toy_nonce [] C [4; 100; 100]%nat = Ret (P, Some EOF) /\
  decrypt_by_reads toy_aead 2 toy_nonce [] C [4; 0; 100; 100]%nat
    = Ret ([x01; x02; x03; x04], Some EOF) /\
  encrypt_by_reads toy_aead 2 toy_nonce [] [x01] [100; 100]%nat
    = Ret (stream_encrypt toy_aead 2 toy_nonce [] [x01], Some EOF) /\
  encrypt_by_reads toy_aead 2 toy_nonce [] [x01] [0; 100]%nat = Ret ([], Some EOF).
Proof. vm_compute. repeat split. Qed.

(** ** The fragment encoding *)

Lemma length_PutUint32LE (v : Z) : length (PutUint32LE v) = 4%nat.
Proof. reflexivity. Qed.

Lemma put_seq_put_seq (n : bytes) (s s' : Z) : put_seq (put_seq n s) s' = put_seq n s'.
Proof.
  unfold put_seq. rewrite length_app, length_PutUint32LE, length_take.
  replace (Nat.min (length n - 4) (length n) + 4 - 4)%nat with (length (take (length n - 4) n))
    by (rewrite length_take; lia).
  rewrite take_app_length. reflexivity.
Qed.

Lemma length_concat_L (L : nat) (full : list bytes) :
  Forall (fun x => length x = L) full -> length (concat full) = (length full * L)%nat.
Proof.
  induction 1 as [|x r Hx _ IH]; [reflexivity|].
  cbn [concat length]. rewrite length_app, IH, Hx. lia.
Qed.

Lemma chunks_aux_app (L : nat) (full : list bytes) (b : bytes) (fuel : nat) :
  (1 <= L)%nat ->
  Forall (fun x => length x = L) full ->
  ((1 <= length b <= L)%nat \/ (full = [] /\ b = [])) ->
  (length (concat full ++ b) <= fuel)%nat ->
  chunks_aux fuel L (concat full ++ b) = full ++ [b].
Proof.
  intros HL Hf. revert fuel.
  induction Hf as [|x r Hx Hr IH]; intros fuel Hb Hlen.
  - destruct fuel as [|f]; [reflexivity|]. cbn [concat app chunks_aux].
    destruct (Nat.ltb_spec L (length b)); [|reflexivity].
    destruct Hb as [Hb | [_ ->]]; cbn [length] in *; lia.
  - destruct Hb as [Hb | [Hb _]]; [|discriminate].
    cbn [concat] in *. rewrite <- app_assoc in *.
    rewrite length_app in Hlen.
    destruct fuel as [|f]; [lia|]. cbn [chunks_aux].
    destruct (Nat.ltb_spec L (length (x ++ concat r ++ b))) as [_|Hn];
      [|rewrite length_app, length_app in Hn; lia].
    rewrite <- Hx, take_app_length, drop_app_length. cbn [app]. f_equal.
    rewrite Hx. apply IH; [left; exact Hb | lia].
Qed.

Lemma chunks_app (L : nat) (full : list bytes) (b : bytes) :
  (1 <= L)%nat ->
  Forall (fun x => length x = L) full ->
  ((1 <= length b <= L)%nat \/ (full = [] /\ b = [])) ->
  chunks L (concat full ++ b) = full ++ [b].
Proof. intros. apply chunks_aux_app; auto. Qed.

Lemma seal_inter_snoc (c : AEAD) (n0 T : bytes) (full : list bytes) (x : bytes) (seq : Z) :
  seal_inter c n0 T seq (full ++ [x])
  = seal_inter c n0 T seq full
    ++ Seal c (put_seq n0 (seq + Z.of_nat (length full))) x (x00 :: T).
Proof.
  revert seq. induction full as [|y r IH]; intros seq; cbn [app seal_inter length].
  - rewrite Z.add_0_r, app_nil_r. reflexivity.
  - rewrite IH, app_assoc. do 3 f_equal. lia.
Qed.

Lemma seal_frags_cons (c : AEAD) (n0 T : bytes) (seq : Z) (y : bytes) (fr : list bytes) :
  fr <> [] ->
  seal_frags c n0 T seq (y :: fr)
  = Seal c (put_seq n0 seq) y (x00 :: T) ++ seal_frags c n0 T (seq + 1) fr.
Proof. destruct fr; [congruence | reflexivity]. Qed.

Lemma seal_frags_snoc (c : AEAD) (n0 T : bytes) (full : list bytes) (x : bytes) (seq : Z) :
  seal_frags c n0 T seq (full ++ [x])
  = seal_inter c n0 T seq full
    ++ Seal c (put_seq n0 (seq + Z.of_nat (length full))) x (x80 :: T).
Proof.
  revert seq. induction full as [|y r IH]; intros seq.
  - cbn. rewrite Z.add_0_r. reflexivity.
  - cbn [app length seal_inter].
    rewrite seal_frags_cons by (destruct r; discriminate).
    rewrite IH, app_assoc. do 3 f_equal. lia.
Qed.

(** ** EncWriter *)

Lemma u32_incr_small (z : Z) : 0 <= z -> z + 1 < 2 ^ 32 -> u32_incr z = z + 1.
Proof. intros. unfold u32_incr. apply Z.mod_small. lia. Qed.

Lemma EncWriter_nextNonce_ok (w : EncWriter) :
  ew_seqNum w <> MaxUint32 ->
  EncWriter_nextNonce w
  = (mkEncWriter (u32_incr (ew_seqNum w)) (put_seq (ew_nonce w) (ew_seqNum w))
       (ew_associatedData w) (ew_buffer w) (ew_err w) (ew_closed w) (ew_out w),
     inl (put_seq (ew_nonce w) (ew_seqNum w))).
Proof.
  intros H. unfold EncWriter_nextNonce.
  destruct (Z.eqb_spec (ew_seqNum w) MaxUint32); [contradiction | reflexivity].
Qed.

(** reduce the field projections of the writer's state updates *)
Ltac ew_proj :=
  cbn [ew_emit ew_set_buffer ew_set_err ew_seqNum ew_nonce ew_associatedData
       ew_buffer ew_err ew_closed ew_out] in *.

Section EncWriter_correct.

Variable c : AEAD.
Variable L : nat.
Variables n0 T : bytes.
Hypothesis HL : (1 <= L)%nat.

Lemma ew_write_loop_ok (fuel : nat) :
  forall full w p n,
  (length p < fuel)%nat ->
  Forall (fun x => length x = L) full ->
  ew_seqNum w = Z.of_nat (length full) + 1 ->
  (forall s, put_seq (ew_nonce w) s = put_seq n0 s) ->
  ew_associatedData w = x00 :: T -> ew_err w = None -> ew_closed w = false ->
  ew_out w = seal_inter c n0 T 1 full ->
  (p <> [] \/ full = []) ->
  Z.of_nat (length (concat full ++ p)) <= Z.of_nat L * MaxUint32 ->
  exists w', ew_write_loop c L fuel w p n = (w', (n + length p)%nat, None) /\
             EW_inv c L n0 T w' (concat full ++ p).
Proof.
  induction fuel as [|f IH];
    intros full w p n Hfuel Hf Hseq Hn Had Her Hcl Hout Hne Hbound; [lia|].
  cbn [ew_write_loop].
  destruct (Nat.ltb_spec L (length p)) as [Hlt|Hge].
  - rewrite length_app, (length_concat_L L full Hf), Nat2Z.inj_add, Nat2Z.inj_mul in Hbound.
    assert (Hlt' : Z.of_nat L < Z.of_nat (length p)) by lia.
    unfold MaxUint32 in *. change (2 ^ 32 - 1) with 4294967295 in *.
    assert (Hk : Z.of_nat (length full) + 1 < 4294967295).
    { apply (Z.mul_lt_mono_pos_l (Z.of_nat L)); [lia|].
      nia. }
    assert (Hs : ew_seqNum w <> MaxUint32) by (rewrite Hseq; unfold MaxUint32; lia).
    rewrite (EncWriter_nextNonce_ok w Hs). cbv beta iota zeta.
    edestruct (IH (full ++ [take L p])
      (ew_emit (mkEncWriter (u32_incr (ew_seqNum w)) (put_seq (ew_nonce w) (ew_seqNum w))
                 (ew_associatedData w) (ew_buffer w) (ew_err w) (ew_closed w) (ew_out w))
               (Seal c (put_seq (ew_nonce w) (ew_seqNum w)) (take L p) (ew_associatedData w)))
      (drop L p) (n + L)%nat) as (w' & Heq & Hinv); ew_proj.
    + rewrite length_drop. lia.
    + apply Forall_app. split; [exact Hf|]. constructor; [|constructor].
      rewrite length_take. lia.
    + rewrite length_app. cbn [length].
      rewrite Hseq, u32_incr_small by lia. lia.
    + intros s. rewrite put_seq_put_seq. apply Hn.
    + exact Had.
    + exact Her.
    + exact Hcl.
    + rewrite Hout, seal_inter_snoc, Hn, Had, Hseq. do 3 f_equal. lia.
    + left. intros E. apply (f_equal length) in E. rewrite length_drop in E.
      cbn in E. lia.
    + rewrite concat_app. cbn [concat]. rewrite app_nil_r, <- app_assoc, take_drop.
      rewrite length_app, (length_concat_L L full Hf). lia.
    + exists w'. rewrite Heq. split.
      * f_equal. f_equal. rewrite length_drop. lia.
      * rewrite concat_app in Hinv. cbn [concat] in Hinv.
        rewrite app_nil_r, <- app_assoc, take_drop in Hinv. exact Hinv.
  - exists (ew_set_buffer w p). split; [reflexivity|].
    exists full. destruct w; cbn in *.
    repeat split; auto.
    intros ->. destruct Hne; [congruence | assumption].
Qed.

Lemma EncWriter_Write_ok (w : EncWriter) (Q p : bytes) :
  EW_inv c L n0 T w Q ->
  Z.of_nat (length (Q ++ p)) <= Z.of_nat L * MaxUint32 ->
  exists w', EncWriter_Write c L w p = Ret (w', length p, None) /\
             EW_inv c L n0 T w' (Q ++ p).
Proof.
  intros (full & Hf & Hseq & Hn & Had & Her & Hcl & HQ & Hbl & Hbe & Hout) Hb.
  unfold EncWriter_Write. rewrite Hcl, Her. cbv zeta.
  rewrite HQ, <- app_assoc, length_app, length_app, (length_concat_L L full Hf) in Hb.
  unfold MaxUint32 in Hb. change (2 ^ 32 - 1) with 4294967295 in Hb.
  destruct (Nat.ltb_spec 0 (length (ew_buffer w))) as [Hpos|Hz].
  - destruct (Nat.eqb_spec (Nat.min (L - length (ew_buffer w)) (length p)) (length p))
      as [Hk|Hk].
    + rewrite Hk. eexists; split; [reflexivity|].
      exists full. ew_proj. repeat split; auto.
      * rewrite HQ, <- app_assoc. reflexivity.
      * rewrite length_app. lia.
      * intros E. apply (f_equal length) in E. rewrite length_app in E. cbn in E. lia.
    + set (k := Nat.min (L - length (ew_buffer w)) (length p)) in *.
      assert (Hk' : k = (L - length (ew_buffer w))%nat) by lia.
      assert (Hfk : Z.of_nat (length full) + 1 < 4294967295).
      { apply (Z.mul_lt_mono_pos_l (Z.of_nat L)); [lia|]. nia. }
      assert (Hs : ew_seqNum (ew_set_buffer w []) <> MaxUint32)
        by (ew_proj; rewrite Hseq; unfold MaxUint32; lia).
      rewrite (EncWriter_nextNonce_ok _ Hs). cbv beta iota zeta. ew_proj.
      match goal with
      | |- context [ew_write_loop _ _ _ ?w1 _ _] =>
          destruct (ew_write_loop_ok (S (length (drop k p)))
                      (full ++ [ew_buffer w ++ take k p]) w1 (drop k p) k)
            as (w' & Heq & Hinv)
      end; ew_proj.
      * lia.
      * apply Forall_app. split; [exact Hf|]. constructor; [|constructor].
        rewrite length_app, length_take. lia.
      * rewrite length_app. cbn [length].
        rewrite Hseq, u32_incr_small by lia. lia.
      * intros s. rewrite put_seq_put_seq. apply Hn.
      * exact Had.
      * exact Her.
      * exact Hcl.
      * rewrite Hout, seal_inter_snoc, Hn, Had, Hseq, take_ge
          by (rewrite length_app, length_take; lia).
        do 3 f_equal. lia.
      * left. intros E. apply (f_equal length) in E. rewrite length_drop in E.
        cbn in E. lia.
      * rewrite concat_app. cbn [concat]. rewrite app_nil_r, <- !app_assoc, take_drop.
        rewrite !length_app, (length_concat_L L full Hf). unfold MaxUint32. lia.
      * exists w'. rewrite Heq. split.
        -- do 3 f_equal. rewrite length_drop. lia.
        -- rewrite concat_app in Hinv. cbn [concat] in Hinv.
           rewrite app_nil_r, <- !app_assoc, take_drop in Hinv.
           rewrite HQ, <- app_assoc. exact Hinv.
  - assert (Hb0 : ew_buffer w = []) by (destruct (ew_buffer w); [reflexivity | cbn in Hz; lia]).
    specialize (Hbe Hb0). subst full.
    destruct (ew_write_loop_ok (S (length p)) [] w p 0) as (w' & Heq & Hinv);
      cbn [concat app length] in *; auto.
    + unfold MaxUint32. lia.
    + exists w'. rewrite Heq. split; [reflexivity|].
      rewrite HQ, Hb0. exact Hinv.
Qed.

Lemma EncWriter_writes_ok (ps : list bytes) :
  forall w Q,
  EW_inv c L n0 T w Q ->
  Z.of_nat (length (Q ++ concat ps)) <= Z.of_nat L * MaxUint32 ->
  exists w', EncWriter_writes c L w ps = Ret (w', None) /\
             EW_inv c L n0 T w' (Q ++ concat ps).
Proof.
  induction ps as [|p ps IH]; intros w Q Hinv Hb.
  - exists w. cbn. rewrite app_nil_r. auto.
  - cbn [concat] in *. cbn [EncWriter_writes].
    destruct (EncWriter_Write_ok w Q p Hinv) as (w1 & Heq & Hinv1).
    + rewrite app_assoc, length_app in Hb. rewrite length_app in *. lia.
    + rewrite Heq. rewrite app_assoc in *. apply IH; assumption.
Qed.

Lemma EncWriter_Close_ok (w : EncWriter) (Q : bytes) :
  EW_inv c L n0 T w Q ->
  EncWriter_Close c w
  = (mkEncWriter (ew_seqNum w) (put_seq (ew_nonce w) (ew_seqNum w)) (x80 :: T)
       (ew_buffer w) None true (seal_frags c n0 T 1 (chunks L Q)), None).
Proof.
  intros (full & Hf & Hseq & Hn & Had & Her & Hcl & HQ & Hbl & Hbe & Hout).
  unfold EncWriter_Close, ew_close_final. rewrite Her, Hcl, Had. cbn [set_final].
  rewrite HQ, chunks_app; auto.
  - rewrite seal_frags_snoc, Hout, Hn, Hseq.
    replace (1 + Z.of_nat (length full)) with (Z.of_nat (length full) + 1) by lia.
    reflexivity.
  - destruct (ew_buffer w) eqn:E.
    + right. auto.
    + left. cbn [length] in *. lia.
Qed.

End EncWriter_correct.

Lemma EncryptWriter_ok (c : AEAD) (L : nat) (nonce ad : bytes) :
  Z.of_nat (length nonce) = NonceSize c - 4 ->
  exists w, EncryptWriter c nonce ad = Ret w /\
            EW_inv c L (nonce0 nonce) (ad_tag c nonce ad) w [].
Proof.
  intros Hn. unfold EncryptWriter. rewrite Hn, Z.eqb_refl. cbn [negb].
  unfold EncWriter_nextNonce. cbn [ew_seqNum].
  destruct (Z.eqb_spec 0 MaxUint32) as [E|_]; [discriminate|].
  eexists; split; [reflexivity|].
  exists []. ew_proj. repeat split; auto.
  cbn. lia.
Qed.

Lemma encrypt_by_writes_ok (c : AEAD) (L : nat) (nonce ad : bytes) (ps : list bytes) :
  (1 <= L)%nat ->
  Z.of_nat (length nonce) = NonceSize c - 4 ->
  Z.of_nat (length (concat ps)) <= Z.of_nat L * MaxUint32 ->
  encrypt_by_writes c L nonce ad ps = Ret (stream_encrypt c L nonce ad (concat ps), None) /\
  exists full b,
    Forall (fun x => length x = L) full /\
    ((1 <= length b <= L)%nat \/ (full = [] /\ b = [])) /\
    concat ps = concat full ++ b /\ chunks L (concat ps) = full ++ [b].
Proof.
  intros HL Hn Hb.
  destruct (EncryptWriter_ok c L nonce ad Hn) as (w & Hw & Hinv).
  destruct (EncWriter_writes_ok c L _ _ HL ps w [] Hinv) as (w1 & Hw1 & Hinv1);
    [exact Hb|].
  cbn [app] in Hinv1.
  split.
  - unfold encrypt_by_writes. rewrite Hw, Hw1.
    rewrite (EncWriter_Close_ok c L _ _ HL w1 _ Hinv1). reflexivity.
  - destruct Hinv1 as (full & Hf & _ & _ & _ & _ & _ & HQ & Hbl & Hbe & _).
    exists full, (ew_buffer w1). split; [exact Hf|].
    assert (Hsh : ((1 <= length (ew_buffer w1) <= L)%nat \/ (full = [] /\ ew_buffer w1 = []))).
    { destruct (ew_buffer w1) eqn:E; [right; auto | left; cbn [length] in *; lia]. }
    split; [exact Hsh|]. split; [exact HQ|].
    rewrite HQ. apply chunks_app; assumption.
Qed.

Lemma seal_inter_length (c : AEAD) (n0 T : bytes) (seq : Z) (full : list bytes) :
  (forall n p a, length (Seal c n p a) = (length p + Overhead c)%nat) ->
  length (seal_inter c n0 T seq full)
  = (length (concat full) + length full * Overhead c)%nat.
Proof.
  intros Hs. revert seq. induction full as [|x r IH]; intros seq; [reflexivity|].
  cbn [seal_inter concat length]. rewrite !length_app, Hs, IH. lia.
Qed.

Lemma overhead_spec_split (L k m tau : nat) :
  (1 <= L)%nat -> ((1 <= m <= L)%nat \/ (k = 0%nat /\ m = 0%nat)) ->
  overhead_spec (Z.of_nat L) (Z.of_nat tau) (Z.of_nat (k * L + m))
  = Z.of_nat tau * (Z.of_nat k + 1).
Proof.
  intros HL Hm. unfold overhead_spec.
  rewrite Nat2Z.inj_add, Nat2Z.inj_mul.
  destruct Hm as [Hm | [-> ->]];
    [|change (Z.of_nat 0) with 0; rewrite Z.mul_0_l, Z.add_0_r, Z.eqb_refl; cbv iota; lia].
  destruct (Z.eqb_spec (Z.of_nat k * Z.of_nat L + Z.of_nat m) 0); [lia|].
  rewrite Z.add_comm, Z.mod_add, Z.div_add by lia.
  destruct (Nat.eq_dec m L) as [->|Hne].
  - rewrite Z.mod_same, Z.div_same by lia. cbn [Z.eqb negb]. ring.
  - rewrite Z.mod_small, Z.div_small by lia.
    destruct (Z.eqb_spec (Z.of_nat m) 0); [lia|]. cbn [negb]. ring.
Qed.

Lemma toy_seal_length (n p a : bytes) :
  length (Seal toy_aead n p a) = (length p + Overhead toy_aead)%nat.
Proof. cbn [Seal toy_aead Overhead]. unfold toy_seal. rewrite length_app. reflexivity. Qed.

(** C5 (counterexample): with the toy AEAD ([tau = 2]) and [L = 1], the
    one-byte plaintext [01] is encrypted by an [EncWriter] into 3 bytes,
    not [1 + ceil(2 / 1) * 2 = 5]. *)
Lemma EncWriter_length_one_byte :
  match encrypt_by_writes toy_aead 1 toy_nonce [] [[x01]] with
  | Ret (C, None) =>
      length C = 3%nat /\ Z.of_nat (length C) <> ciphertext_length_spec 1 2 1
  | _ => False
  end.
Proof. vm_compute. split; [reflexivity | discriminate]. Qed.

(** C5 (amended): for a stream built by [NewStream] with fragment size [L],
    an AEAD whose ciphertexts are [Overhead()] bytes longer than the
    plaintexts (below [2^31]) and a plaintext [P] of at most
    [L * (2^32 - 1)] bytes written to an [EncWriter] in any pieces and
    closed, the ciphertext has exactly [|P| + Overhead(|P|)] bytes, that is
    [|P| + tau * max(1, ceil(|P| / L))]. *)
Theorem EncWriter_ciphertext_length (c : AEAD) (L : nat) (s : Stream) (nonce ad : bytes)
    (ps : list bytes) :
  NewStream c (Z.of_nat L) = Ret s ->
  Z.of_nat (Overhead c) < 2 ^ 31 ->
  (forall n p a, length (Seal c n p a) = (length p + Overhead c)%nat) ->
  Z.of_nat (length nonce) = NonceSize c - 4 ->
  Z.of_nat (length (concat ps)) <= Z.of_nat L * MaxUint32 ->
  exists C ov,
    encrypt_by_writes c L nonce ad ps = Ret (C, None) /\
    Stream_Overhead s (Z.of_nat (length (concat ps))) = Ret ov /\
    Z.of_nat (length C) = Z.of_nat (length (concat ps)) + ov.
Proof.
  intros HS Htau Hseal Hn Hb.
  destruct (NewStream_Ret c _ s HS) as (_ & HL & _).
  destruct (encrypt_by_writes_ok c L nonce ad ps) as (He & full & b & Hf & Hsh & HP & Hch);
    [lia | exact Hn | exact Hb |].
  exists (stream_encrypt c L nonce ad (concat ps)),
         (Z.of_nat (Overhead c) * (Z.of_nat (length full) + 1)).
  split; [exact He|].
  assert (HPl : length (concat ps) = (length full * L + length b)%nat)
    by (rewrite HP, length_app, (length_concat_L L full Hf); reflexivity).
  split.
  - rewrite (proj2 (Stream_Overhead_eq c (Z.of_nat L) s _ HS Htau)) by lia.
    rewrite HPl, overhead_spec_split; [reflexivity | lia |].
    destruct Hsh as [Hsh | [-> ->]]; [left; exact Hsh | right; auto].
  - unfold stream_encrypt. rewrite Hch, seal_frags_snoc, length_app, Hseal,
      seal_inter_length by exact Hseal.
    rewrite HPl, (length_concat_L L full Hf). lia.
Qed.

(** Witness of C5 (amended): three bytes with the toy AEAD and [L = 2]. *)
Lemma EncWriter_ciphertext_length_witness :
  exists C ov,
    encrypt_by_writes toy_aead 2 toy_nonce [] [[x01; x02]; [x03]] = Ret (C, None) /\
    Stream_Overhead {| cipher := toy_aead; bufSize := 2 |} 3 = Ret ov /\
    Z.of_nat (length C) = 3 + ov.
Proof.
  apply (EncWriter_ciphertext_length toy_aead 2 {| cipher := toy_aead; bufSize := 2 |}
           toy_nonce [] [[x01; x02]; [x03]]).
  - reflexivity.
  - cbn. lia.
  - exact toy_seal_length.
  - reflexivity.
  - unfold MaxUint32. cbn. lia.
Defined.

(** ** DecReader and DecReaderAt on a well-formed stream *)

Lemma readFrom_view (fro : nat) (carry : byte) (src S : bytes) (k : nat) :
  (fro = 0%nat /\ src = S) \/ (fro = 1%nat /\ carry :: src = S) ->
  exists data,
    readFrom src (1 + k - fro) =
      (data, drop (1 + k) S, if (length S <? 1 + k)%nat then Some EOF else None) /\
    (if (fro =? 0)%nat then data else carry :: data) = take (1 + k) S.
Proof.
  intros [[-> ->] | [-> <-]].
  - eexists; split; [reflexivity | reflexivity].
  - exists (take k src); split; [|reflexivity].
    unfold readFrom. replace (1 + k - 1)%nat with k by lia. reflexivity.
Qed.

(** after the first fragment, [Read] goes on as a [Read] of the rest of [p] *)
Lemma DecReader_Read_first (c : AEAD) (L : nat) (r r1 : DecReader) (plen : nat) (d1 : bytes) :
  dr_err r = None -> dr_firstRead r = true ->
  DecReader_readFragment c L (dr_clear_firstRead r) plen 0 = (r1, d1, None) ->
  dr_err r1 = None -> dr_firstRead r1 = false ->
  DecReader_Read c L r plen =
    let '(r', d', e') := DecReader_Read c L r1 (plen - length d1) in (r', d1 ++ d', e').
Proof.
  intros Herr Hfr Hrf Herr1 Hfr1.
  unfold DecReader_Read. rewrite Herr, Hfr, Hrf, Herr1, Hfr1. cbn zeta iota.
  cbn [length app]. rewrite Nat.sub_0_r.
  destruct (0 <? dr_offset r1)%nat.
  - destruct (Nat.min _ _ =? _)%nat; [reflexivity|].
    cbn zeta iota. destruct (dr_closed _); [reflexivity|].
    match goal with |- context [DecReader_readFragment ?a ?b ?c ?d ?e] =>
      destruct (DecReader_readFragment a b c d e) as [[r3 d3] e3] end.
    rewrite app_assoc. reflexivity.
  - destruct (dr_closed r1); [rewrite app_nil_r; reflexivity|].
    match goal with |- context [DecReader_readFragment ?a ?b ?c ?d ?e] =>
      destruct (DecReader_readFragment a b c d e) as [[r3 d3] e3] end.
    reflexivity.
Qed.

Section DecReader_correct.

Variable c : AEAD.
Variable L : nat.
Variables n0 T : bytes.
Hypothesis HL : (1 <= L)%nat.
Hypothesis Hseal_len : forall n p a, length (Seal c n p a) = (length p + Overhead c)%nat.
Hypothesis Hopen_seal : forall n p a, Open c n (Seal c n p a) a = Some p.

Local Abbreviation dr_base := (dr_base n0 T).
Local Abbreviation DR_good := (DR_good c L n0 T).

Lemma readFragment_inter (r : DecReader) (plen fro : nat) (s : Z) (x S' : bytes) :
  dr_base r s -> dr_offset r = 0%nat -> 1 <= s -> s + 1 < 2 ^ 32 -> length x = L -> S' <> [] ->
  dr_view r fro (Seal c (put_seq n0 s) x (x00 :: T) ++ S') ->
  exists r',
    DecReader_readFragment c L r plen fro =
      (r', if (plen <? L)%nat then take plen x else x, None) /\
    dr_base r' (s + 1) /\ dr_carry r' :: dr_src r' = S' /\
    (if (plen <? L)%nat then dr_offset r' = plen /\ dr_plaintextBuffer r' = x
     else dr_offset r' = 0%nat).
Proof.
  intros (Herr & Hs & Hn & Had & Hcl & Hfr) Hoff Hs1 Hs2 Hx HS' Hv.
  set (F := Seal c (put_seq n0 s) x (x00 :: T)) in *.
  assert (HF : length F = (L + Overhead c)%nat) by (subst F; rewrite Hseal_len; lia).
  destruct (readFrom_view fro (dr_carry r) (dr_src r) (F ++ S') (L + Overhead c))
    as (data & Hrf & Hbuf); [exact Hv|].
  unfold DecReader_readFragment.
  rewrite Hs. destruct (Z.eqb_spec s 0); [lia|].
  rewrite Hrf. cbn zeta.
  rewrite Hbuf.
  destruct S' as [|b S'']; [congruence|].
  assert (Hlen : (length (F ++ b :: S'') <? 1 + (L + Overhead c))%nat = false).
  { rewrite length_app, HF. cbn [length]. apply Nat.ltb_ge. lia. }
  assert (Htake : take (1 + (L + Overhead c)) (F ++ b :: S'') = F ++ [b]).
  { rewrite take_app, take_ge by lia. rewrite HF. replace (1 + (L + Overhead c) - (L + Overhead c))%nat with 1%nat by lia. reflexivity. }
  assert (Hdrop : drop (1 + (L + Overhead c)) (F ++ b :: S'') = S'').
  { rewrite drop_app, drop_ge by lia. rewrite HF. replace (1 + (L + Overhead c) - (L + Overhead c))%nat with 1%nat by lia. reflexivity. }
  assert (Hnth : nth (L + Overhead c) (F ++ [b]) x00 = b).
  { rewrite app_nth2 by lia. rewrite HF, Nat.sub_diag. reflexivity. }
  assert (HtF : take (L + Overhead c) (F ++ [b]) = F).
  { apply take_app_length'. lia. }
  rewrite Hlen, Htake, Hdrop, Hnth, HtF.
  unfold dr_open. cbn [dr_associatedData]. rewrite Had, Hn. subst F. rewrite Hopen_seal.
  rewrite u32_incr_small by lia.
  destruct (Nat.ltb_spec plen L).
  - eexists; split; [reflexivity|]. unfold dr_base; cbn -[put_seq]. rewrite Hx.
    repeat split; auto; [|lia]. intros s'. rewrite put_seq_put_seq. auto.
  - eexists; split; [reflexivity|]. unfold dr_base; cbn -[put_seq].
    repeat split; auto. intros s'. rewrite put_seq_put_seq. auto.
Qed.

Lemma readFragment_final (r : DecReader) (plen fro : nat) (s : Z) (x : bytes) :
  dr_base r s -> dr_offset r = 0%nat -> 1 <= s -> (length x <= L)%nat ->
  dr_view r fro (Seal c (put_seq n0 s) x (x80 :: T)) ->
  exists r',
    DecReader_readFragment c L r plen fro =
      (r', if (plen <? length x)%nat then take plen x else x,
       if (plen <? length x)%nat then None else Some EOF) /\
    dr_err r' = None /\ dr_closed r' = true /\ dr_firstRead r' = false /\
    (forall s', put_seq (dr_nonce r') s' = put_seq n0 s') /\
    (if (plen <? length x)%nat then dr_offset r' = plen /\ dr_plaintextBuffer r' = x
     else dr_offset r' = 0%nat).
Proof.
  intros (Herr & Hs & Hn & Had & Hcl & Hfr) Hoff Hs1 Hx Hv.
  set (F := Seal c (put_seq n0 s) x (x80 :: T)) in *.
  assert (HF : length F = (length x + Overhead c)%nat) by (subst F; rewrite Hseal_len; lia).
  destruct (readFrom_view fro (dr_carry r) (dr_src r) F (L + Overhead c))
    as (data & Hrf & Hbuf); [exact Hv|].
  unfold DecReader_readFragment.
  rewrite Hs. destruct (Z.eqb_spec s 0); [lia|].
  rewrite Hrf. cbn zeta. rewrite Hbuf.
  rewrite take_ge by lia.
  destruct (Nat.ltb_spec (length F) (1 + (L + Overhead c))); [|lia].
  destruct (Nat.ltb_spec (length F) (Overhead c)); [lia|].
  rewrite Had. cbn [set_final].
  unfold dr_open. rewrite Hn. subst F. rewrite Hopen_seal.
  rewrite Hseal_len. replace (length x + Overhead c - Overhead c)%nat with (length x) by lia.
  destruct (Nat.ltb_spec plen (length x)).
  - eexists; split; [reflexivity|]. cbn -[put_seq].
    repeat split; auto; [|lia]. intros s'. rewrite put_seq_put_seq. auto.
  - eexists; split; [reflexivity|]. cbn -[put_seq].
    repeat split; auto. intros s'. rewrite put_seq_put_seq. auto.
Qed.

Hypothesis Hflag : forall n p T', Open c n (Seal c n p (x00 :: T')) (x80 :: T') = None.

Lemma readFragment_truncated (r : DecReader) (plen fro : nat) (s : Z) (x : bytes) :
  dr_base r s -> 1 <= s -> (length x <= L)%nat ->
  dr_view r fro (Seal c (put_seq n0 s) x (x00 :: T)) ->
  exists r',
    DecReader_readFragment c L r plen fro = (r', [], Some NotAuthentic) /\
    dr_err r' = Some NotAuthentic.
Proof.
  intros (Herr & Hs & Hn & Had & Hcl & Hfr) Hs1 Hx Hv.
  set (F := Seal c (put_seq n0 s) x (x00 :: T)) in *.
  assert (HF : length F = (length x + Overhead c)%nat) by (subst F; rewrite Hseal_len; lia).
  destruct (readFrom_view fro (dr_carry r) (dr_src r) F (L + Overhead c))
    as (data & Hrf & Hbuf); [exact Hv|].
  unfold DecReader_readFragment.
  rewrite Hs. destruct (Z.eqb_spec s 0); [lia|].
  rewrite Hrf. cbn zeta. rewrite Hbuf.
  rewrite take_ge by lia.
  destruct (Nat.ltb_spec (length F) (1 + (L + Overhead c))); [|lia].
  destruct (Nat.ltb_spec (length F) (Overhead c)); [lia|].
  rewrite Had. cbn [set_final].
  unfold dr_open. rewrite Hn. subst F. rewrite Hflag.
  eexists; split; reflexivity.
Qed.

Lemma chunks_ok_weaken (b : bool) (Xs : list bytes) : chunks_ok b L Xs -> chunks_ok true L Xs.
Proof. destruct Xs as [|x [|y Xs]]; cbn; tauto. Qed.

Lemma chunks_ok_false_hd (y : bytes) (Xs : list bytes) :
  chunks_ok false L (y :: Xs) -> (1 <= length y)%nat.
Proof. destruct Xs; cbn; intuition (try discriminate; lia). Qed.

Lemma length_seal_frags_cons (s : Z) (y : bytes) (Xs : list bytes) :
  (length y + Overhead c <= length (seal_frags c n0 T s (y :: Xs)))%nat.
Proof. destruct Xs; cbn; rewrite ?length_app, Hseal_len; lia. Qed.

Lemma readFragment_good (r : DecReader) (plen fro : nat) (s : Z) (x : bytes) (Xs : list bytes) :
  dr_base r s -> dr_offset r = 0%nat -> chunks_ok true L (x :: Xs) ->
  1 <= s -> s + Z.of_nat (length (x :: Xs)) <= 2 ^ 32 ->
  dr_view r fro (seal_frags c n0 T s (x :: Xs)) ->
  exists r3 e3,
    DecReader_readFragment c L r plen fro = (r3, take plen x, e3) /\
    ((e3 = None /\ (Xs = [] -> (plen < length x)%nat)) \/
     (e3 = Some EOF /\ Xs = [] /\ (length x <= plen)%nat)) /\
    dr_err r3 = None /\ dr_firstRead r3 = false /\
    ((1 <= plen)%nat -> DR_good r3 Xs (drop plen x)).
Proof.
  intros Hb Hoff Hok Hs1 Hs2 Hv.
  destruct Xs as [|y Xs].
  - cbn in Hv, Hok. destruct Hok as [Hx _].
    destruct (readFragment_final r plen fro s x Hb Hoff Hs1 Hx Hv)
      as (r3 & Hrf & Herr & Hcl & Hfr & Hn & Hpb).
    rewrite Hrf. revert Hpb.
    destruct (Nat.ltb_spec plen (length x)); intros Hpb.
    + exists r3, None. split; [reflexivity|]. split; [left; auto|].
      split; [exact Herr|]. split; [exact Hfr|].
      intros Hp. destruct Hpb as [Ho Hpb].
      unfold DR_good. rewrite Hfr. split; [exact Herr|]. split; [exact Hn|].
      split; [exact I|]. split; [congruence|]. split; [|left; auto].
      rewrite Ho, Hpb. destruct (Nat.ltb_spec 0 plen); [reflexivity|lia].
    + exists r3, (Some EOF). rewrite take_ge by lia. split; [reflexivity|].
      split; [right; auto|].
      split; [exact Herr|]. split; [exact Hfr|].
      intros Hp. unfold DR_good. rewrite Hfr, Hpb, (drop_ge x plen) by lia.
      split; [exact Herr|]. split; [exact Hn|].
      split; [exact I|]. split; [congruence|]. split; [reflexivity|left; auto].
  - destruct Hok as [Hx Hok'].
    rewrite seal_frags_cons in Hv by discriminate.
    pose proof (chunks_ok_false_hd y Xs Hok') as Hy.
    assert (HS' : seal_frags c n0 T (s + 1) (y :: Xs) <> []).
    { intros E. pose proof (length_seal_frags_cons (s + 1) y Xs) as Hl.
      rewrite E in Hl. cbn [length] in Hl. lia. }
    cbn [length] in Hs2.
    assert (Hs4 : s + 1 < 2 ^ 32) by lia.
    destruct (readFragment_inter r plen fro s x _ Hb Hoff Hs1 Hs4 Hx HS' Hv)
      as (r3 & Hrf & Hb3 & Hcs & Hpb).
    rewrite Hrf. exists r3, None.
    assert (E : (if (plen <? L)%nat then take plen x else x) = take plen x).
    { destruct (Nat.ltb_spec plen L); [reflexivity|]. rewrite take_ge; [reflexivity|]. rewrite Hx. exact H. }
    rewrite E. split; [reflexivity|]. split; [left; split; [reflexivity|discriminate]|].
    destruct Hb3 as (Herr & Hs3 & Hn & Had & Hcl & Hfr).
    split; [exact Herr|]. split; [exact Hfr|].
    intros Hp.
    unfold DR_good. rewrite Hfr, Hs3. split; [exact Herr|]. split; [exact Hn|].
    split; [apply (chunks_ok_weaken false); exact Hok'|].
    split; [intros _; cbn [length]; lia|].
    split.
    + revert Hpb; destruct (Nat.ltb_spec plen L); intros Hpb.
      * destruct Hpb as [-> ->]. destruct (Nat.ltb_spec 0 plen); [reflexivity|lia].
      * rewrite Hpb. cbn. symmetry; apply drop_ge; lia.
    + right. split; [discriminate|]. auto.
Qed.

Lemma chunks_ok_cons_L (b : bool) (x : bytes) (Xs : list bytes) :
  chunks_ok b L (x :: Xs) -> Xs <> [] -> length x = L.
Proof. destruct Xs; cbn; tauto. Qed.

Lemma DR_good_set_offset (r : DecReader) (Xs : list bytes) (pend pend' : bytes) (o : nat) :
  DR_good r Xs pend -> dr_firstRead r = false ->
  (if (0 <? o)%nat then drop o (dr_plaintextBuffer r) else []) = pend' ->
  DR_good (dr_set_offset r o) Xs pend'.
Proof.
  unfold DR_good. cbn. intros (Herr & Hn & Hok & Hsq & Hrest) Hfr Hp. rewrite Hfr in *.
  destruct Hrest as [_ Hst]. auto 7.
Qed.

(** [readFragment(p, 1)] on a reader with nothing pending *)
Lemma readFragment_carry (r : DecReader) (Xs : list bytes) (plen : nat) :
  DR_good r Xs [] -> dr_firstRead r = false -> dr_offset r = 0%nat -> dr_closed r = false ->
  exists x Xs' r3 e3,
    Xs = x :: Xs' /\
    DecReader_readFragment c L r plen 1 = (r3, take plen x, e3) /\
    ((e3 = None /\ (Xs' = [] -> (plen < length x)%nat)) \/
     (e3 = Some EOF /\ Xs' = [] /\ (length x <= plen)%nat)) /\
    dr_firstRead r3 = false /\
    ((1 <= plen)%nat -> DR_good r3 Xs' (drop plen x)).
Proof.
  intros (Herr & Hn & Hok & Hsq & Hrest) Hfr Hoff Hcl. rewrite Hfr in Hrest.
  destruct Hrest as [_ [[_ Hcl'] | (HXs & _ & Had & Hcs)]]; [congruence|].
  destruct Xs as [|x Xs']; [congruence|].
  destruct (Hsq HXs) as [Hs1 Hs2].
  assert (Hb : dr_base r (dr_seqNum r)) by (unfold dr_base; auto 7).
  destruct (readFragment_good r plen 1 (dr_seqNum r) x Xs' Hb Hoff Hok Hs1 Hs2
              (or_intror (conj eq_refl Hcs))) as (r3 & e3 & Hrf & He & _ & Hfr3 & Hg).
  exists x, Xs', r3, e3. auto.
Qed.

(** [Read] on a reader whose first fragment has been read *)
Lemma DecReader_Read_nf (r : DecReader) (Xs : list bytes) (pend : bytes) (plen : nat) :
  DR_good r Xs pend -> dr_firstRead r = false ->
  exists r' d e R',
    DecReader_Read c L r plen = (r', d, e) /\
    pend ++ concat Xs = d ++ R' /\ (length d <= plen)%nat /\
    ((1 <= plen)%nat -> d = [] -> R' = []) /\
    (e = None \/ (e = Some EOF /\ R' = [])) /\
    dr_firstRead r' = false /\
    ((1 <= plen)%nat \/ pend <> [] ->
     exists Xs' pend', DR_good r' Xs' pend' /\ pend' ++ concat Xs' = R').
Proof.
  intros Hg Hfr. pose proof Hg as (Herr & Hn & Hok & Hsq & Hrest). rewrite Hfr in Hrest.
  destruct Hrest as [Hpend Hst].
  unfold DecReader_Read. rewrite Herr, Hfr. cbn zeta iota.
  cbn [length]. rewrite Nat.sub_0_r.
  (* the reader continues with [r2], having delivered [d2] *)
  assert (Htail : forall r2 d2 p2,
    DR_good r2 Xs [] -> dr_firstRead r2 = false -> dr_offset r2 = 0%nat ->
    dr_closed r2 = dr_closed r -> (length d2 + p2 <= plen)%nat -> (p2 = 0%nat -> plen = 0%nat) ->
    (plen = 0%nat -> pend = []) -> pend = d2 ->
    exists r' d e R',
      (if dr_closed r2 then (r2, d2, Some EOF)
       else let '(r3, d3, e3) := DecReader_readFragment c L r2 p2 1 in (r3, d2 ++ d3, e3))
        = (r', d, e) /\
      pend ++ concat Xs = d ++ R' /\ (length d <= plen)%nat /\
      ((1 <= plen)%nat -> d = [] -> R' = []) /\
      (e = None \/ (e = Some EOF /\ R' = [])) /\
      dr_firstRead r' = false /\
      ((1 <= plen)%nat \/ pend <> [] ->
       exists Xs' pend', DR_good r' Xs' pend' /\ pend' ++ concat Xs' = R')).
  { intros r2 d2 p2 Hg2 Hfr2 Hoff2 Hcl2 Hlen Hp2 Hp0 ->.
    destruct Hst as [[-> Hcl] | (HXs & Hcl & _)].
    - rewrite Hcl2, Hcl. exists r2, d2, (Some EOF), [].
      cbn [concat]. rewrite !app_nil_r. repeat split; auto; [lia|].
      intros _. exists [], []. auto.
    - rewrite Hcl2, Hcl.
      destruct (readFragment_carry r2 Xs p2 Hg2 Hfr2 Hoff2 ltac:(congruence))
        as (x & Xs' & r3 & e3 & -> & Hrf & He & Hfr3 & Hg3).
      rewrite Hrf. exists r3, (d2 ++ take p2 x), e3, (drop p2 x ++ concat Xs').
      cbn [concat]. split; [reflexivity|]. split.
      { rewrite <- app_assoc, (app_assoc (take p2 x)), take_drop. reflexivity. }
      split; [rewrite length_app, length_take; lia|].
      split.
      { intros Hp Hd. apply app_eq_nil in Hd as [_ Hd].
        assert (Hx : length x = 0%nat).
        { destruct x; [reflexivity|]. destruct p2; [lia|]. discriminate. }
        destruct Xs' as [|y Xs''].
        { destruct x; [|discriminate]. rewrite drop_nil. reflexivity. }
        destruct Hg2 as (_ & _ & Hok2 & _).
        pose proof (chunks_ok_cons_L _ _ _ Hok2 ltac:(discriminate)). lia. }
      split.
      { destruct He as [[-> _] | (-> & -> & Hx)]; [left; reflexivity|right].
        split; [reflexivity|]. rewrite drop_ge by lia. reflexivity. }
      split; [exact Hfr3|].
      intros Hp. exists Xs', (drop p2 x). split; [|reflexivity].
      apply Hg3. destruct Hp as [Hp|Hp]; [lia|].
      destruct (Nat.eq_dec plen 0%nat) as [E|E]; [specialize (Hp0 E); congruence|lia]. }
  revert Hpend. destruct (Nat.ltb_spec 0 (dr_offset r)) as [Hoff|Hoff]; intros Hpend.
  - rewrite Hpend.
    destruct (Nat.eqb_spec (Nat.min plen (length pend)) plen) as [Hnn|Hnn].
    + exists (dr_set_offset r (dr_offset r + Nat.min plen (length pend))),
        (take plen pend), None, (drop plen pend ++ concat Xs).
      rewrite Hnn. split; [reflexivity|]. split.
      { rewrite app_assoc, take_drop. reflexivity. }
      split; [rewrite length_take; lia|].
      split.
      { intros Hp Hd. destruct pend; cbn in *; [lia|]. destruct plen; [lia|]. discriminate. }
      split; [left; reflexivity|].
      split; [exact Hfr|].
      intros Hp. exists Xs, (drop plen pend). split; [|reflexivity].
      apply (DR_good_set_offset r Xs pend); auto.
      destruct (Nat.ltb_spec 0 (dr_offset r + plen)); [|lia].
      rewrite <- drop_drop, <- Hpend. reflexivity.
    + cbn zeta.
      assert (Hm : Nat.min plen (length pend) = length pend) by lia.
      rewrite Hm, take_ge by lia.
      apply Htail; cbn; auto; try lia.
      apply (DR_good_set_offset r Xs pend); auto.
  - assert (Hoff0 : dr_offset r = 0%nat) by lia.
    cbn zeta. rewrite Hoff0 in *. cbn in Hpend. subst pend.
    apply Htail; auto; try lia.
Qed.

(** [Read] with a non-empty [p] on a well-formed stream *)
Lemma DecReader_Read_good (r : DecReader) (Xs : list bytes) (pend : bytes) (plen : nat) :
  DR_good r Xs pend -> (1 <= plen)%nat ->
  exists r' d e R',
    DecReader_Read c L r plen = (r', d, e) /\
    pend ++ concat Xs = d ++ R' /\ (length d <= plen)%nat /\
    (d = [] -> R' = []) /\
    (e = None \/ (e = Some EOF /\ R' = [])) /\
    dr_firstRead r' = false /\
    ((length d < plen)%nat \/ ~ (dr_firstRead r = true /\ plen = L) ->
     exists Xs' pend', DR_good r' Xs' pend' /\ pend' ++ concat Xs' = R').
Proof.
  intros Hg Hp.
  destruct (dr_firstRead r) eqn:Hfr.
  2:{ destruct (DecReader_Read_nf r Xs pend plen Hg Hfr)
        as (r' & d & e & R' & Hrd & HR & Hd & Hpr & He & Hfr' & Hst).
      exists r', d, e, R'. repeat split; auto. }
  pose proof Hg as (Herr & Hn & Hok & Hsq & Hrest). rewrite Hfr in Hrest.
  destruct Hrest as (HXs & -> & Hoff & Hcl & Had & Hsrc).
  destruct Xs as [|x Xs']; [congruence|].
  destruct (Hsq HXs) as [Hs1 Hs2].
  assert (Hb : dr_base (dr_clear_firstRead r) (dr_seqNum r)) by (unfold dr_base; cbn; auto 7).
  destruct (readFragment_good (dr_clear_firstRead r) plen 0 (dr_seqNum r) x Xs' Hb Hoff Hok
              Hs1 Hs2 (or_introl (conj eq_refl Hsrc)))
    as (r1 & e1 & Hrf & He & Herr1 & Hfr1 & Hg1).
  specialize (Hg1 Hp). cbn [app concat].
  destruct He as [[-> Hfin] | (-> & -> & Hxp)].
  - rewrite (DecReader_Read_first c L r r1 plen (take plen x) Herr Hfr Hrf Herr1 Hfr1).
    destruct (DecReader_Read_nf r1 Xs' (drop plen x) (plen - length (take plen x)) Hg1 Hfr1)
      as (r' & d' & e' & R'' & Hrd & HR & Hd & Hpr & He & Hfr' & Hst).
    rewrite Hrd. exists r', (take plen x ++ d'), e', R''.
    rewrite length_take in *.
    split; [reflexivity|]. split.
    { rewrite <- app_assoc, <- HR, app_assoc, take_drop. reflexivity. }
    split; [rewrite length_app, length_take; lia|].
    split.
    { intros Hd0. apply app_eq_nil in Hd0 as [Hx Hd0].
      assert (length x = 0%nat) by (destruct x; [reflexivity|]; destruct plen; [lia|discriminate]).
      apply Hpr; [lia|exact Hd0]. }
    split; [exact He|]. split; [exact Hfr'|].
    intros Hobl. apply Hst.
    destruct (Nat.le_gt_cases plen (length x)) as [Hle|Hgt]; [|left; lia].
    destruct (Nat.lt_ge_cases plen (length x)) as [Hlt|Hge].
    + right. rewrite <- (take_drop plen x) in Hlt. rewrite length_app, length_take in Hlt.
      intros E. rewrite E in Hlt. cbn in Hlt. lia.
    + exfalso. assert (plen = length x) as Hpx by lia.
      destruct Xs' as [|y Xs''].
      { specialize (Hfin eq_refl). lia. }
      pose proof (chunks_ok_cons_L _ _ _ Hok ltac:(discriminate)) as HxL.
      destruct Hobl as [Hobl | Hobl].
      * rewrite length_app, length_take in Hobl. lia.
      * apply Hobl. split; [reflexivity | lia].
  - assert (Hrd : DecReader_Read c L r plen = (r1, take plen x, Some EOF)).
    { unfold DecReader_Read. rewrite Herr, Hfr, Hrf. reflexivity. }
    rewrite Hrd. exists r1, (take plen x), (Some EOF), [].
    rewrite take_ge by lia. cbn [concat]. rewrite !app_nil_r.
    split; [reflexivity|]. split; [reflexivity|]. split; [lia|].
    split; [auto|]. split; [right; auto|]. split; [exact Hfr1|].
    intros _. exists [], []. split; [|reflexivity].
    rewrite drop_ge in Hg1 by lia. exact Hg1.
Qed.





Lemma seal_inter_nonempty (s : Z) (full : list bytes) :
  full <> [] -> Forall (fun x => length x = L) full -> seal_inter c n0 T s full <> [].
Proof.
  destruct full as [|x full]; [congruence|]. intros _ Hf. cbn [seal_inter].
  rewrite Forall_cons in Hf. destruct Hf as [Hx _]. intros E. apply (f_equal length) in E. rewrite length_app, Hseal_len in E.
  cbn in E. lia.
Qed.

Lemma writeto_loop_truncated (full : list bytes) :
  forall (fuel : nat) (r : DecReader) (s : Z) (out : bytes),
  full <> [] -> Forall (fun x => length x = L) full ->
  dr_base r s -> dr_offset r = 0%nat -> 1 <= s ->
  s + Z.of_nat (length full) <= 2 ^ 32 -> (length full <= fuel)%nat ->
  dr_carry r :: dr_src r = seal_inter c n0 T s full ->
  exists r',
    dr_writeto_loop c L fuel r out =
      (r', out ++ concat (take (length full - 1) full), Some NotAuthentic).
Proof.
  induction full as [|x full IH]; intros fuel r s out Hne Hf Hb Ho Hs1 Hs2 Hfuel Hv;
    [congruence|].
  destruct fuel as [|fuel]; [cbn in Hfuel; lia|].
  rewrite Forall_cons in Hf. destruct Hf as [Hx Hf'].
  cbn [dr_writeto_loop].
  destruct full as [|y full'].
  - cbn [seal_inter] in Hv. rewrite app_nil_r in Hv.
    destruct (readFragment_truncated r (1 + L + Overhead c) 1 s x Hb Hs1 ltac:(lia)
                ltac:(right; split; [reflexivity | exact Hv])) as (r' & Hr & _).
    rewrite Hr. exists r'. cbn. rewrite app_nil_r. reflexivity.
  - cbn [seal_inter] in Hv.
    destruct (readFragment_inter r (1 + L + Overhead c) 1 s x (seal_inter c n0 T (s + 1) (y :: full'))
                Hb Ho Hs1 ltac:(cbn [length] in Hs2; lia) Hx) as (r' & Hr & Hb' & Hv' & Ho').
    + apply seal_inter_nonempty; [congruence | exact Hf'].
    + right. split; [reflexivity|]. rewrite Hv. reflexivity.
    + destruct (Nat.ltb_spec (1 + L + Overhead c) L); [lia|].
      rewrite Hr. destruct Hb' as (Herr' & Hs' & Hn' & Had' & Hcl' & Hfr').
      rewrite Hcl'.
      destruct (IH fuel r' (s + 1) (out ++ x)) as (r'' & Hr'').
      * congruence.
      * exact Hf'.
      * repeat split; auto.
      * exact Ho'.
      * lia.
      * cbn [length] in Hs2 |- *. lia.
      * cbn [length] in Hfuel |- *. lia.
      * exact Hv'.
      * exists r''. rewrite Hr''. cbn [length take concat].
        replace (S (length full') - 1)%nat with (length full') by lia.
        replace (S (S (length full')) - 1)%nat with (S (length full')) by lia.
        cbn [take concat]. rewrite app_assoc. reflexivity.
Qed.

Lemma DecReader_WriteTo_truncated (r : DecReader) (full : list bytes) :
  full <> [] -> Forall (fun x => length x = L) full ->
  dr_err r = None -> dr_firstRead r = true -> dr_seqNum r = 1 ->
  (forall s', put_seq (dr_nonce r) s' = put_seq n0 s') ->
  dr_associatedData r = x00 :: T -> dr_closed r = false -> dr_offset r = 0%nat ->
  dr_src r = seal_inter c n0 T 1 full ->
  Z.of_nat (length full) < 2 ^ 32 ->
  exists r',
    DecReader_WriteTo c L r = (r', concat (take (length full - 1) full), Some NotAuthentic).
Proof.
  intros Hne Hf Herr Hfr Hs Hn Had Hcl Ho Hsrc Hlen.
  assert (Hb : dr_base (dr_clear_firstRead r) 1) by (unfold dr_base; cbn; auto 10).
  unfold DecReader_WriteTo. rewrite Herr, Hfr.
  destruct full as [|x full']; [congruence|].
  rewrite Forall_cons in Hf. destruct Hf as [Hx Hf'].
  destruct full' as [|y full''].
  - destruct (readFragment_truncated (dr_clear_firstRead r) (1 + L + Overhead c) 0 1 x Hb
                ltac:(lia) ltac:(lia)) as (r' & Hr & _).
    { left. split; [reflexivity|]. cbn. rewrite Hsrc. cbn. apply app_nil_r. }
    rewrite Hr. exists r'. reflexivity.
  - destruct (readFragment_inter (dr_clear_firstRead r) (1 + L + Overhead c) 0 1 x
                (seal_inter c n0 T (1 + 1) (y :: full'')) Hb ltac:(exact Ho) ltac:(lia)
                ltac:(cbn [length] in Hlen; lia) Hx) as (r1 & Hr1 & Hb1 & Hv1 & Ho1).
    + apply seal_inter_nonempty; [congruence | exact Hf'].
    + left. split; [reflexivity|]. cbn. rewrite Hsrc. reflexivity.
    + destruct (Nat.ltb_spec (1 + L + Overhead c) L); [lia|].
      rewrite Hr1. pose proof Hb1 as (Herr1 & Hs1 & Hn1 & Had1 & Hcl1 & Hfr1).
      rewrite Hcl1, Ho1. cbn [Nat.ltb Nat.leb]. rewrite Hcl1.
      assert (Hsl : length (dr_carry r1 :: dr_src r1)
                    = (length (concat (y :: full'')) + length (y :: full'') * Overhead c)%nat)
        by (rewrite Hv1; apply seal_inter_length; exact Hseal_len).
      assert (HcL : length (concat (y :: full'')) = (length (y :: full'') * L)%nat)
        by (apply length_concat_L; exact Hf').
      destruct (writeto_loop_truncated (y :: full'') (S (length (dr_src r1))) r1 (1 + 1) x
                  ltac:(congruence) Hf' Hb1 Ho1 ltac:(lia)) as (r' & Hr').
      * cbn [length] in Hlen |- *. lia.
      * cbn [length] in Hsl, HcL |- *. nia.
      * exact Hv1.
      * rewrite Hr'. exists r'. cbn [length take concat].
        replace (S (S (length full'')) - 1)%nat with (S (length full'')) by lia.
        replace (S (length full'') - 1)%nat with (length full'') by lia.
        reflexivity.
Qed.

End DecReader_correct.

Lemma chunks_decomp (L : nat) (P : bytes) :
  (1 <= L)%nat ->
  exists full b,
    chunks L P = full ++ [b] /\ P = concat full ++ b /\
    Forall (fun x => length x = L) full /\
    ((1 <= length b <= L)%nat \/ (full = [] /\ b = [])).
Proof.
  intros HL.
  assert (H : forall (fuel : nat) (P : bytes), (length P <= fuel)%nat ->
    exists full b, P = concat full ++ b /\ Forall (fun x => length x = L) full /\
      ((1 <= length b <= L)%nat \/ (full = [] /\ b = []))).
  { induction fuel as [|fuel IH]; intros Q HQ.
    - exists [], Q. destruct Q; cbn in *; [|lia]. split; [reflexivity|]. auto.
    - destruct (Nat.le_gt_cases (length Q) L).
      + exists [], Q. split; [reflexivity|]. split; [constructor|].
        destruct Q; [right; auto | left; cbn in *; lia].
      + destruct (IH (drop L Q)) as (full & b & HQ' & Hf & Hb).
        { rewrite length_drop. lia. }
        exists (take L Q :: full), b. split.
        { cbn [concat]. rewrite <- app_assoc, <- HQ', take_drop. reflexivity. }
        split; [constructor; [rewrite length_take; lia | exact Hf]|].
        left. destruct Hb as [Hb | [-> ->]]; [exact Hb|].
        exfalso. cbn in HQ'. assert (length (drop L Q) = 0%nat) by (rewrite HQ'; reflexivity).
        rewrite length_drop in *. lia. }
  destruct (H (length P) P (le_n _)) as (full & b & HP & Hf & Hb).
  exists full, b. split; [|auto]. rewrite HP. apply chunks_app; auto.
Qed.

Lemma chunks_ok_cons (L : nat) (first : bool) (x : bytes) (Y : list bytes) :
  Y <> [] -> chunks_ok first L (x :: Y) <-> length x = L /\ chunks_ok false L Y.
Proof. destruct Y; [congruence | reflexivity]. Qed.

Lemma chunks_ok_snoc (L : nat) (first : bool) (full : list bytes) (b : bytes) :
  Forall (fun x => length x = L) full -> (length b <= L)%nat ->
  (full = [] -> first = true \/ (1 <= length b)%nat) ->
  (full <> [] -> (1 <= length b)%nat) ->
  chunks_ok first L (full ++ [b]).
Proof.
  intros Hf. revert first.
  induction Hf as [|x full' Hx Hf IH]; intros first Hb H1 H2.
  - cbn. auto.
  - cbn [app]. rewrite chunks_ok_cons by (destruct full'; discriminate).
    split; [exact Hx|]. apply IH; auto.
Qed.






Lemma toy_open_seal (n p a : bytes) : Open toy_aead n (Seal toy_aead n p a) a = Some p.
Proof.
  cbn [Open Seal toy_aead]. unfold toy_open, toy_seal.
  rewrite length_app. cbn [toy_tag length].
  destruct (Nat.ltb_spec (length p + 2) 2); [lia|].
  replace (length p + 2 - 2)%nat with (length p) by lia.
  rewrite take_app_length, drop_app_length.
  rewrite bool_decide_eq_true_2 by reflexivity. reflexivity.
Qed.

Lemma toy_flag (n p T' : bytes) :
  Open toy_aead n (Seal toy_aead n p (x00 :: T')) (x80 :: T') = None.
Proof.
  cbn [Open Seal toy_aead]. unfold toy_open, toy_seal.
  rewrite length_app. cbn [toy_tag length].
  destruct (Nat.ltb_spec (length p + 2) 2); [reflexivity|].
  replace (length p + 2 - 2)%nat with (length p) by lia.
  rewrite drop_app_length.
  rewrite bool_decide_eq_false_2; [reflexivity|].
  cbn. intros E. inversion E.
Qed.





Section DecWriter_truncated.

Variable c : AEAD.
Variable L : nat.
Variables n0 T : bytes.
Hypothesis HL : (1 <= L)%nat.
Hypothesis Hseal_len : forall n p a, length (Seal c n p a) = (length p + Overhead c)%nat.
Hypothesis Hopen_seal : forall n p a, Open c n (Seal c n p a) a = Some p.
Hypothesis Hflag : forall n p T', Open c n (Seal c n p (x00 :: T')) (x80 :: T') = None.

Local Abbreviation dw_base := (dw_base n0 T).

Lemma dw_fragment_inter (w : DecWriter) (s : Z) (x : bytes) :
  dw_base w s -> 0 <= s -> s + 1 < 2 ^ 32 ->
  exists w',
    dw_fragment c w (Seal c (put_seq n0 s) x (x00 :: T)) = (w', None) /\
    dw_base w' (s + 1) /\ dw_out w' = dw_out w ++ x /\ dw_buffer w' = dw_buffer w.
Proof.
  intros (Herr & Hs & Hn & Had & Hcl) Hs0 Hs1.
  unfold dw_fragment, DecWriter_nextNonce. rewrite Hs.
  destruct (Z.eqb_spec s MaxUint32) as [E|_]; [unfold MaxUint32 in E; lia|].
  unfold dw_open. cbn [dw_associatedData]. rewrite Had, Hn, Hopen_seal.
  eexists; split; [reflexivity|]. unfold dw_base. cbn -[put_seq].
  rewrite u32_incr_small by lia.
  repeat split; auto. intros s'. rewrite put_seq_put_seq. auto.
Qed.

Lemma dw_write_loop_truncated (full : list bytes) :
  forall (fuel : nat) (w : DecWriter) (s : Z) (n : nat) (x : bytes),
  Forall (fun y => length y = L) full -> length x = L ->
  dw_base w s -> 0 <= s -> s + Z.of_nat (length full) < 2 ^ 32 ->
  (S (length full) <= fuel)%nat ->
  exists w' n',
    dw_write_loop c L fuel w (seal_inter c n0 T s (full ++ [x])) n = (w', n', None) /\
    dw_base w' (s + Z.of_nat (length full)) /\
    dw_buffer w' = Seal c (put_seq n0 (s + Z.of_nat (length full))) x (x00 :: T) /\
    dw_out w' = dw_out w ++ concat full.
Proof.
  induction full as [|y full IH]; intros fuel w s n x Hf Hx Hb Hs0 Hs1 Hfuel;
    (destruct fuel as [|fuel]; [cbn in Hfuel; lia|]).
  - cbn [app seal_inter dw_write_loop]. rewrite app_nil_r.
    destruct (Nat.ltb_spec (L + Overhead c) (length (Seal c (put_seq n0 s) x (x00 :: T))))
      as [Hlt|_]; [rewrite Hseal_len in Hlt; lia|].
    eexists _, _; split; [reflexivity|].
    destruct Hb as (Herr & Hs & Hn & Had & Hcl).
    cbn [length]. rewrite Z.add_0_r. unfold dw_base, dw_set_buffer. cbn.
    rewrite app_nil_r. auto 10.
  - rewrite Forall_cons in Hf. destruct Hf as [Hy Hf].
    cbn [app seal_inter dw_write_loop].
    set (F := Seal c (put_seq n0 s) y (x00 :: T)).
    assert (HF : length F = (L + Overhead c)%nat) by (unfold F; rewrite Hseal_len; lia).
    assert (HR : (1 <= length (seal_inter c n0 T (s + 1) (full ++ [x])))%nat).
    { rewrite seal_inter_snoc, length_app, Hseal_len. lia. }
    destruct (Nat.ltb_spec (L + Overhead c) (length (F ++ seal_inter c n0 T (s + 1) (full ++ [x]))))
      as [_|Hge]; [|rewrite length_app in Hge; lia].
    rewrite take_app_length' by (symmetry; exact HF).
    rewrite drop_app_length' by (symmetry; exact HF).
    destruct (dw_fragment_inter w s y Hb Hs0 ltac:(cbn [length] in Hs1; lia))
      as (w1 & Hw1 & Hb1 & Hout1 & _).
    fold F in Hw1. rewrite Hw1.
    destruct (IH fuel w1 (s + 1) (n + (L + Overhead c))%nat x Hf Hx Hb1)
      as (w' & n' & Hl & Hb' & Hbuf' & Hout').
    + lia.
    + cbn [length] in Hs1. lia.
    + cbn [length] in Hfuel. lia.
    + exists w', n'. cbn [length concat].
      replace (s + Z.of_nat (S (length full))) with (s + 1 + Z.of_nat (length full)) by lia.
      split; [exact Hl|]. split; [exact Hb'|]. split; [exact Hbuf'|].
      rewrite Hout', Hout1, app_assoc. reflexivity.
Qed.

Lemma dw_close_truncated (w : DecWriter) (s : Z) (x : bytes) :
  dw_base w s -> dw_buffer w = Seal c (put_seq n0 s) x (x00 :: T) ->
  exists w', DecWriter_Close c w = (w', Some ErrAuth) /\ dw_out w' = dw_out w.
Proof.
  intros (Herr & Hs & Hn & Had & Hcl) Hbuf.
  unfold DecWriter_Close. rewrite Herr. unfold dw_close_final. rewrite Hcl.
  unfold dw_open. cbn [dw_associatedData]. rewrite Had, Hbuf, Hn, Hs. cbn [set_final].
  rewrite Hflag. eexists; split; reflexivity.
Qed.

End DecWriter_truncated.

Lemma DecryptWriter_ok (c : AEAD) (nonce ad : bytes) :
  Z.of_nat (length nonce) = NonceSize c - 4 ->
  exists w, DecryptWriter c nonce ad = Ret w /\
    dw_base (nonce0 nonce) (ad_tag c nonce ad) w 1 /\ dw_buffer w = [] /\ dw_out w = [].
Proof.
  intros Hn. unfold DecryptWriter. rewrite Hn, Z.eqb_refl. cbn [negb].
  unfold DecWriter_nextNonce. cbn [dw_seqNum].
  destruct (Z.eqb_spec 0 MaxUint32) as [E|_]; [discriminate|].
  eexists; split; [reflexivity|]. unfold dw_base. cbn -[put_seq].
  repeat split; auto; intros s'; apply put_seq_put_seq.
Qed.

(** C3: truncation resistance.  Let [P] (written through an [EncWriter] in
    any pieces and closed) span [m >= 2] fragments.  The ciphertext prefix
    that drops the final fragment ends with fragment [m - 1], sealed with
    the flag [0x00]; decrypting it with a [DecWriter] ([Write] then
    [Close]) or a [DecReader] ([WriteTo]) emits the first [m - 2] fragments
    and then fails with [NotAuthentic], because the decoder, at the end of
    its input, opens fragment [m - 1] with the flag [0x80].  The AEAD adds
    [Overhead()] bytes, opens what it sealed, and refuses a ciphertext
    sealed with flag [0x00] when opened with [0x80]. *)
Theorem truncated_stream_NotAuthentic (c : AEAD) (L : nat) (nonce ad : bytes)
    (ps : list bytes) :
  (1 <= L)%nat ->
  (forall n p a, length (Seal c n p a) = (length p + Overhead c)%nat) ->
  (forall n p a, Open c n (Seal c n p a) a = Some p) ->
  (forall n p T', Open c n (Seal c n p (x00 :: T')) (x80 :: T') = None) ->
  Z.of_nat (length nonce) = NonceSize c - 4 ->
  Z.of_nat (length (concat ps)) <= Z.of_nat L * MaxUint32 ->
  (2 <= length (chunks L (concat ps)))%nat ->
  let X := chunks L (concat ps) in
  let m := length X in
  exists C,
    encrypt_by_writes c L nonce ad ps = Ret (C, None) /\
    let C' := take ((m - 1) * (L + Overhead c)) C in
    decrypt_by_write c L nonce ad C' = Ret (concat (take (m - 2) X), Some ErrAuth) /\
    exists r r',
      DecryptReader c C' nonce ad = Ret r /\
      DecReader_WriteTo c L r = (r', concat (take (m - 2) X), Some NotAuthentic).
Proof.
  intros HL Hsl Hos Hflag Hn HP Hm. cbv zeta.
  destruct (encrypt_by_writes_ok c L nonce ad ps HL Hn HP) as (He & full & b & Hf & Hb & HPe & HX).
  exists (stream_encrypt c L nonce ad (concat ps)). split; [exact He|].
  set (n0 := nonce0 nonce). set (T := ad_tag c nonce ad).
  assert (Hm' : length (chunks L (concat ps)) = S (length full))
    by (rewrite HX, length_app; cbn; lia).
  assert (Hne : full <> []) by (intros ->; cbn in Hm'; lia).
  assert (HbL : (1 <= length b)%nat) by (destruct Hb as [Hb | [E _]]; [lia | congruence]).
  assert (HPl : length (concat ps) = (length full * L + length b)%nat)
    by (rewrite HPe, length_app, (length_concat_L L full Hf); reflexivity).
  assert (Hfull : Z.of_nat (length full) < 2 ^ 32 - 1).
  { unfold MaxUint32 in HP. rewrite HPl in HP. nia. }
  assert (HC' : take ((length (chunks L (concat ps)) - 1) * (L + Overhead c)) (stream_encrypt c L nonce ad (concat ps))
                = seal_inter c n0 T 1 full).
  { unfold stream_encrypt. fold n0 T. rewrite Hm', HX, seal_frags_snoc.
    apply take_app_length'. rewrite (seal_inter_length c n0 T 1 full Hsl),
      (length_concat_L L full Hf). nia. }
  rewrite HC'.
  destruct (exists_last Hne) as (full0 & x & Efull).
  assert (Htk : take (length (chunks L (concat ps)) - 2) (chunks L (concat ps)) = full0).
  { rewrite Hm', HX, Efull, <- app_assoc, length_app. cbn [length].
    rewrite take_app_le by lia. apply take_ge. lia. }
  rewrite Htk.
  rewrite Efull in Hf. apply Forall_app in Hf. destruct Hf as [Hf0 Hx].
  rewrite Forall_cons in Hx. destruct Hx as [Hx _].
  split.
  - destruct (DecryptWriter_ok c nonce ad Hn) as (w0 & Hw0 & Hb0 & Hbuf0 & Hout0).
    unfold decrypt_by_write. rewrite Hw0.
    unfold DecWriter_Write. destruct Hb0 as (Herr0 & Hs0 & Hn0 & Had0 & Hcl0).
    rewrite Hcl0, Herr0, Hbuf0. cbn [length Nat.ltb Nat.leb].
    rewrite Efull.
    destruct (dw_write_loop_truncated c L n0 T HL Hsl Hos full0
                (S (length (seal_inter c n0 T 1 (full0 ++ [x])))) w0 1 0 x Hf0 Hx
                ltac:(unfold dw_base; auto 10) ltac:(lia)) as (w1 & n1 & Hl & Hb1 & Hbuf1 & Hout1).
    + rewrite Efull, length_app in Hfull. cbn [length] in Hfull. lia.
    + rewrite seal_inter_snoc, length_app, Hsl.
      rewrite (seal_inter_length c n0 T 1 full0 Hsl), (length_concat_L L full0 Hf0). nia.
    + rewrite Hl.
      destruct (dw_close_truncated c n0 T Hflag w1 _ x Hb1 Hbuf1) as (w2 & Hc & Hout2).
      rewrite Hc, Hout2, Hout1, Hout0. reflexivity.
  - unfold DecryptReader. rewrite Hn, Z.eqb_refl. cbn [negb].
    destruct (DecReader_WriteTo_truncated c L n0 T HL Hsl Hos Hflag
                (mkDecReader 1 (put_seq (nonce ++ [x00; x00; x00; x00]) 0)
                   (x00 :: Seal c (put_seq (nonce ++ [x00; x00; x00; x00]) 0) [] ad) [] 0 None
                   x00 true false (seal_inter c n0 T 1 full) [] false) full
                Hne ltac:(rewrite Efull; apply Forall_app; auto)
                eq_refl eq_refl eq_refl ltac:(intros s'; reflexivity)
                eq_refl eq_refl eq_refl eq_refl ltac:(lia)) as (r' & Hr').
    eexists _, r'. split; [reflexivity|].
    rewrite Hr'. rewrite Efull, length_app. cbn [length].
    replace (length full0 + 1 - 1)%nat with (length full0) by lia.
    rewrite take_app_length. reflexivity.
Qed.

(** Witness of C3 with the toy AEAD, [L = 2] and [P = 01 .. 05]
    (three fragments). *)
Lemma truncated_stream_NotAuthentic_witness :
  let X := chunks 2 (concat [[x01; x02; x03; x04; x05]]) in
  let m := length X in
  exists C,
    encrypt_by_writes toy_aead 2 toy_nonce [] [[x01; x02; x03; x04; x05]] = Ret (C, None) /\
    let C' := take ((m - 1) * (2 + Overhead toy_aead)) C in
    decrypt_by_write toy_aead 2 toy_nonce [] C' = Ret (concat (take (m - 2) X), Some ErrAuth) /\
    exists r r',
      DecryptReader toy_aead C' toy_nonce [] = Ret r /\
      DecReader_WriteTo toy_aead 2 r = (r', concat (take (m - 2) X), Some NotAuthentic).
Proof.
  apply (truncated_stream_NotAuthentic toy_aead 2 toy_nonce [] [[x01; x02; x03; x04; x05]]).
  - lia.
  - exact toy_seal_length.
  - exact toy_open_seal.
  - exact toy_flag.
  - reflexivity.
  - unfold MaxUint32. cbn. lia.
  - vm_compute. lia.
Defined.

(** ** Only authenticated plaintext leaves a decrypt adapter *)

Section DecReader_inv.

Variable c : AEAD.
Variable L : nat.
Hypothesis HL : (1 <= L)%nat.

Lemma dr_inv_prefix (r : DecReader) (D d : bytes) : dr_inv r (D ++ d) -> dr_inv r D.
Proof.
  intros (H1 & H2 & H3 & H4). split; [exact H1|]. split; [exact H2|]. split.
  - etransitivity; [|exact H3]. apply sublist_inserts_r. reflexivity.
  - intros Ho. destruct (H4 Ho) as (X & HX & Hle & HD). exists X. split; [exact HX|].
    split; [exact Hle|]. etransitivity; [|exact HD]. apply sublist_inserts_r. reflexivity.
Qed.

Lemma dr_inv_set_offset0 (r : DecReader) (D : bytes) :
  dr_inv r D -> dr_inv (dr_set_offset r 0) D.
Proof.
  intros (H1 & H2 & H3 & H4). unfold dr_inv, dr_set_offset; cbn.
  split; [exact H1|]. split; [auto|]. split; [exact H3|]. lia.
Qed.

Lemma dr_inv_pending (r : DecReader) (D : bytes) (nn : nat) :
  dr_inv r D -> (0 < dr_offset r)%nat ->
  (nn <= length (drop (dr_offset r) (dr_plaintextBuffer r)))%nat ->
  dr_inv (dr_set_offset r (dr_offset r + nn))
    (D ++ take nn (drop (dr_offset r) (dr_plaintextBuffer r))) /\
  dr_inv (dr_set_offset r 0) (D ++ take nn (drop (dr_offset r) (dr_plaintextBuffer r))).
Proof.
  intros (H1 & H2 & H3 & H4) Ho Hnn.
  destruct (H4 Ho) as (X & HX & Hle & HD).
  rewrite length_drop in Hnn.
  assert (Hsub : D ++ take nn (drop (dr_offset r) (dr_plaintextBuffer r))
                 `sublist_of` X ++ take (dr_offset r + nn) (dr_plaintextBuffer r)).
  { rewrite <- take_take_drop, app_assoc. apply sublist_app; [exact HD | reflexivity]. }
  assert (Hsub' : D ++ take nn (drop (dr_offset r) (dr_plaintextBuffer r))
                  `sublist_of` dr_opened r).
  { rewrite HX. etransitivity; [exact Hsub|].
    apply sublist_app; [reflexivity | apply sublist_take]. }
  split.
  - unfold dr_inv, dr_set_offset; cbn.
    split; [exact H1|]. split; [intros Hf; specialize (H2 Hf); lia|].
    split; [exact Hsub'|]. intros _. exists X. split; [exact HX|]. split; [lia | exact Hsub].
  - unfold dr_inv, dr_set_offset; cbn.
    split; [exact H1|]. split; [auto|]. split; [exact Hsub'|]. lia.
Qed.

Lemma take_min_length (n : nat) (l : bytes) : take n l = take (Nat.min n (length l)) l.
Proof.
  destruct (Nat.le_ge_cases n (length l)).
  - rewrite Nat.min_l by lia. reflexivity.
  - rewrite Nat.min_r by lia. rewrite !take_ge by lia. reflexivity.
Qed.

Lemma dr_inv_rejected_false (r : DecReader) (D : bytes) :
  dr_inv r D -> dr_err r = None -> dr_rejected r = false.
Proof.
  intros (H1 & _) He. destruct (dr_rejected r); [|reflexivity].
  specialize (H1 eq_refl). congruence.
Qed.

(** a successful [Open] on the slow path: the plaintext goes to
    [plaintextBuffer] and its first [min plen |pt|] bytes to [p] *)
Lemma dr_inv_slow (r : DecReader) (D pt : bytes) (plen : nat) (seq : Z) (nonce ad : bytes)
    (carry : byte) (closed : bool) (src : bytes) :
  dr_inv r D -> dr_err r = None -> dr_offset r = 0%nat ->
  dr_inv (mkDecReader seq nonce ad pt (Nat.min plen (length pt)) (dr_err r) carry false
            closed src (dr_opened r ++ pt) (dr_rejected r)) (D ++ take plen pt).
Proof.
  intros Hinv He Ho. pose proof (dr_inv_rejected_false r D Hinv He) as Hrej.
  destruct Hinv as (H1 & H2 & H3 & H4).
  unfold dr_inv; cbn. rewrite Hrej.
  split; [discriminate|]. split; [discriminate|].
  split; [apply sublist_app; [exact H3 | apply sublist_take]|].
  intros _. exists (dr_opened r). split; [reflexivity|]. split; [lia|].
  rewrite <- take_min_length. apply sublist_app; [exact H3 | reflexivity].
Qed.

(** a successful [Open] on the fast path: the plaintext goes to [p] *)
Lemma dr_inv_fast (r : DecReader) (D pt : bytes) (seq : Z) (nonce ad : bytes)
    (carry : byte) (closed : bool) (src : bytes) :
  dr_inv r D -> dr_err r = None -> dr_offset r = 0%nat ->
  dr_inv (mkDecReader seq nonce ad (dr_plaintextBuffer r) (dr_offset r) (dr_err r) carry false
            closed src (dr_opened r ++ pt) (dr_rejected r)) (D ++ pt).
Proof.
  intros Hinv He Ho. pose proof (dr_inv_rejected_false r D Hinv He) as Hrej.
  destruct Hinv as (H1 & H2 & H3 & H4).
  unfold dr_inv; cbn. rewrite Hrej, Ho.
  split; [discriminate|]. split; [discriminate|].
  split; [apply sublist_app; [exact H3 | reflexivity]|]. lia.
Qed.

(** a failed [Open] or an error before it: nothing delivered *)
Lemma dr_inv_fail (r : DecReader) (D : bytes) (seq : Z) (nonce ad : bytes)
    (e : error) (carry : byte) (closed rej : bool) (src : bytes) :
  dr_inv r D -> dr_err r = None -> dr_offset r = 0%nat ->
  (rej = true -> e = NotAuthentic) ->
  dr_inv (mkDecReader seq nonce ad (dr_plaintextBuffer r) (dr_offset r) (Some e) carry false
            closed src (dr_opened r) rej) (D ++ []).
Proof.
  intros Hinv He Ho Hrej.
  destruct Hinv as (H1 & H2 & H3 & H4).
  unfold dr_inv; cbn. rewrite app_nil_r, Ho.
  split; [intros E; rewrite (Hrej E); reflexivity|]. split; [discriminate|].
  split; [exact H3|]. lia.
Qed.

Lemma readFragment_inv (r : DecReader) (plen fro : nat) (D : bytes)
    (r' : DecReader) (d : bytes) (e : option error) :
  dr_inv r D -> dr_err r = None -> dr_offset r = 0%nat -> dr_firstRead r = false ->
  DecReader_readFragment c L r plen fro = (r', d, e) ->
  dr_inv r' (D ++ d) /\ dr_firstRead r' = false /\
  ((e = None \/ e = Some EOF) -> dr_err r' = None) /\
  ((1 + L <= plen)%nat -> dr_offset r' = 0%nat) /\
  (plen = 0%nat -> e = None ->
   dr_opened r' = dr_opened r ++ dr_plaintextBuffer r' /\ dr_offset r' = 0%nat /\ d = []).
Proof.
  intros Hinv He Ho Hfr Hrf.
  pose proof (dr_inv_rejected_false r D Hinv He) as Hrej.
  unfold DecReader_readFragment in Hrf.
  destruct (dr_seqNum r =? 0).
  { injection Hrf as <- <- <-.
    pose proof (dr_inv_fail r D (dr_seqNum r) (dr_nonce r) (dr_associatedData r) ErrExceeded
                  (dr_carry r) (dr_closed r) (dr_rejected r) (dr_src r) Hinv He Ho
                  ltac:(congruence)) as Hi.
    unfold dr_set_err. rewrite Hfr.
    split; [exact Hi|]. cbn. split; [reflexivity|]. split; [intros [E|E]; discriminate|].
    split; [intros _; exact Ho|]. intros _ E; discriminate. }
  unfold readFrom in Hrf. cbn zeta in Hrf.
  set (k := (1 + (L + Overhead c) - fro)%nat) in Hrf.
  set (buf := if (fro =? 0)%nat then take k (dr_src r) else dr_carry r :: take k (dr_src r))
    in Hrf.
  assert (Hbuf : (length buf <= 1 + (L + Overhead c))%nat).
  { unfold buf, k. destruct (Nat.eqb_spec fro 0) as [->|]; cbn [length];
      rewrite length_take; lia. }
  clearbody buf.
  destruct (length (dr_src r) <? k)%nat.
  - destruct (length buf <? Overhead c)%nat.
    + injection Hrf as <- <- <-.
      pose proof (dr_inv_fail r D (u32_incr (dr_seqNum r)) (put_seq (dr_nonce r) (dr_seqNum r))
                    (dr_associatedData r) NotAuthentic (dr_carry r) (dr_closed r)
                    (dr_rejected r) (drop k (dr_src r)) Hinv He Ho ltac:(congruence)) as Hi.
      rewrite Hfr. split; [exact Hi|]. cbn. split; [reflexivity|].
      split; [intros [E|E]; discriminate|]. split; [intros _; exact Ho|]. intros _ E; discriminate.
    + unfold dr_open in Hrf. cbn -[put_seq u32_incr set_final Nat.ltb] in Hrf.
      destruct (Open c _ buf _) as [pt|] in Hrf.
      * destruct (plen <? length buf - Overhead c)%nat eqn:Ep; injection Hrf as <- <- <-.
        -- rewrite Hfr. split; [apply dr_inv_slow; assumption|]. cbn -[put_seq u32_incr].
           split; [reflexivity|]. split; [intros _; exact He|].
           split; [intros Hp; apply Nat.ltb_lt in Ep; lia|].
           intros -> _. split; [reflexivity|]. split; [reflexivity|]. reflexivity.
        -- rewrite Hfr. split.
           { apply dr_inv_fast; assumption. }
           cbn -[put_seq u32_incr]. split; [reflexivity|]. split; [intros _; exact He|].
           split; [intros _; exact Ho|]. intros _ E; discriminate.
      * injection Hrf as <- <- <-. unfold dr_set_err. cbn -[put_seq u32_incr set_final].
        rewrite Hfr.
        pose proof (dr_inv_fail r D (u32_incr (dr_seqNum r)) (put_seq (dr_nonce r) (dr_seqNum r))
                      (set_final (dr_associatedData r)) NotAuthentic (dr_carry r) true
                      true (drop k (dr_src r)) Hinv He Ho ltac:(reflexivity)) as Hi.
        split; [exact Hi|]. split; [reflexivity|].
        split; [intros [E|E]; discriminate|]. split; [intros _; exact Ho|]. intros _ E; discriminate.
  - unfold dr_open in Hrf. cbn -[put_seq u32_incr Nat.ltb] in Hrf.
    destruct (Open c _ _ _) as [pt|] in Hrf.
    * destruct (plen <? L)%nat eqn:Ep; injection Hrf as <- <- <-.
      -- rewrite Hfr. split; [apply dr_inv_slow; assumption|]. cbn -[put_seq u32_incr].
         split; [reflexivity|]. split; [intros _; exact He|].
         split; [intros Hp; apply Nat.ltb_lt in Ep; lia|].
         intros -> _. split; [reflexivity|]. split; [reflexivity|]. reflexivity.
      -- rewrite Hfr. split.
         { apply dr_inv_fast; assumption. }
         cbn -[put_seq u32_incr]. split; [reflexivity|]. split; [intros _; exact He|].
         split; [intros _; exact Ho|]. intros -> _. apply Nat.ltb_ge in Ep. lia.
    * injection Hrf as <- <- <-. unfold dr_set_err. cbn -[put_seq u32_incr].
      rewrite Hfr.
      pose proof (dr_inv_fail r D (u32_incr (dr_seqNum r)) (put_seq (dr_nonce r) (dr_seqNum r))
                    (dr_associatedData r) NotAuthentic (nth (L + Overhead c) buf x00)
                    (dr_closed r) true (drop k (dr_src r)) Hinv He Ho ltac:(reflexivity)) as Hi.
      split; [exact Hi|]. split; [reflexivity|].
      split; [intros [E|E]; discriminate|]. split; [intros _; exact Ho|]. intros _ E; discriminate.
Qed.

Lemma dr_inv_clear (r : DecReader) (D : bytes) :
  dr_inv r D -> dr_inv (dr_clear_firstRead r) D.
Proof.
  intros (H1 & H2 & H3 & H4). unfold dr_inv, dr_clear_firstRead; cbn.
  split; [exact H1|]. split; [discriminate|]. split; [exact H3|]. exact H4.
Qed.

Ltac norm_exact H :=
  revert H; repeat rewrite <- app_assoc; cbn [app];
  let H' := fresh in intros H'; repeat rewrite <- app_assoc; cbn [app]; exact H'.

(** the part of [Read] after the first fragment: pending bytes, then one
    more fragment *)
Ltac read_rest H r1 d1 plen D Hi1 Herr1 Hfr1 :=
  let Eo := fresh "Eo" in let En := fresh "En" in let Hi2 := fresh "Hi2" in
  let Hi3 := fresh "Hi3" in let Hrf3 := fresh "Hrf3" in
  let r3 := fresh "r3" in let d3 := fresh "d3" in let e3 := fresh "e3" in
  destruct (0 <? dr_offset r1)%nat eqn:Eo;
  [ apply Nat.ltb_lt in Eo;
    destruct (Nat.min (plen - length d1) (length (drop (dr_offset r1) (dr_plaintextBuffer r1)))
                =? plen - length d1)%nat eqn:En;
    [ injection H as <- <- <-;
      destruct (dr_inv_pending r1 (D ++ d1)
                  (Nat.min (plen - length d1)
                     (length (drop (dr_offset r1) (dr_plaintextBuffer r1)))) Hi1 Eo
                  ltac:(lia)) as [Hi2 _];
      norm_exact Hi2
    | destruct (dr_inv_pending r1 (D ++ d1)
                  (Nat.min (plen - length d1)
                     (length (drop (dr_offset r1) (dr_plaintextBuffer r1)))) Hi1 Eo
                  ltac:(lia)) as [_ Hi2];
      cbn [dr_closed dr_set_offset] in H |- *;
      destruct (dr_closed r1);
      [ injection H as <- <- <-; norm_exact Hi2
      | match type of H with
        | context [DecReader_readFragment ?a ?b ?x ?y ?z] =>
            destruct (DecReader_readFragment a b x y z) as [[r3 d3] e3] eqn:Hrf3
        end;
        injection H as <- <- <-;
        destruct (readFragment_inv _ _ _ _ r3 d3 e3 Hi2 ltac:(cbn; exact Herr1)
                    ltac:(reflexivity) ltac:(cbn; exact Hfr1) Hrf3) as [Hi3 _];
        norm_exact Hi3 ] ]
  | apply Nat.ltb_ge in Eo;
    destruct (dr_closed r1);
    [ injection H as <- <- <-; exact Hi1
    | match type of H with
      | context [DecReader_readFragment ?a ?b ?x ?y ?z] =>
          destruct (DecReader_readFragment a b x y z) as [[r3 d3] e3] eqn:Hrf3
      end;
      injection H as <- <- <-;
      destruct (readFragment_inv _ _ _ _ r3 d3 e3 Hi1 Herr1 ltac:(lia) Hfr1 Hrf3) as [Hi3 _];
      norm_exact Hi3 ] ].

Lemma Read_inv (r : DecReader) (plen : nat) (D : bytes) (r' : DecReader) (d : bytes)
    (e : option error) :
  dr_inv r D -> DecReader_Read c L r plen = (r', d, e) -> dr_inv r' (D ++ d).
Proof.
  intros Hi H. unfold DecReader_Read in H.
  destruct (dr_err r) as [e0|] eqn:Herr.
  { injection H as <- <- <-. rewrite app_nil_r. exact Hi. }
  destruct (dr_firstRead r) eqn:Hfr.
  - assert (Ho : dr_offset (dr_clear_firstRead r) = 0%nat)
      by (cbn; destruct Hi as (_ & H2 & _); auto).
    destruct (DecReader_readFragment c L (dr_clear_firstRead r) plen 0) as [[r1 d1] e1] eqn:Hrf1.
    destruct (readFragment_inv _ _ _ _ r1 d1 e1 (dr_inv_clear r D Hi) ltac:(cbn; exact Herr)
                Ho eq_refl Hrf1) as (Hi1 & Hfr1 & Herr1 & _).
    destruct e1 as [e1|].
    { injection H as <- <- <-. exact Hi1. }
    specialize (Herr1 (or_introl eq_refl)).
    cbn zeta in H.
    read_rest H r1 d1 plen D Hi1 Herr1 Hfr1.
  - cbn zeta in H.
    assert (Hi0 : dr_inv r (D ++ [])) by (rewrite app_nil_r; exact Hi).
    read_rest H r (@nil byte) plen D Hi0 Herr Hfr.
Qed.

Lemma dr_inv_byte_new (r1 : DecReader) (X D : bytes) (b : byte) (rest : bytes) :
  (dr_rejected r1 = true -> dr_err r1 = Some NotAuthentic) -> dr_firstRead r1 = false ->
  dr_opened r1 = X ++ dr_plaintextBuffer r1 -> dr_plaintextBuffer r1 = b :: rest ->
  D `sublist_of` X -> dr_inv (dr_set_offset r1 1) (D ++ [b]).
Proof.
  intros H1 Hfr HX Hpb HD. unfold dr_inv, dr_set_offset; cbn.
  split; [exact H1|]. split; [congruence|].
  assert (Hs : D ++ [b] `sublist_of` X ++ take 1 (dr_plaintextBuffer r1))
    by (rewrite Hpb; apply sublist_app; [exact HD | reflexivity]).
  split.
  - rewrite HX. etransitivity; [exact Hs|]. apply sublist_app; [reflexivity | apply sublist_take].
  - intros _. exists X. split; [exact HX|]. rewrite Hpb. cbn [length]. split; [lia|].
    rewrite <- Hpb. exact Hs.
Qed.

Lemma take_1_drop_nth (l : bytes) (i : nat) :
  (i < length l)%nat -> take 1 (drop i l) = [nth i l x00].
Proof.
  revert i. induction l as [|a l IH]; intros i Hi; cbn [length] in Hi; [lia|].
  destruct i as [|i]; [reflexivity|]. cbn [drop nth]. apply IH. lia.
Qed.

(** [readFragment] with an empty [p], as [ReadByte] calls it *)
Ltac readbyte_fragment H r0 D Hi0 Herr0 Ho0 Hfr0 :=
  let r1 := fresh "r1" in let d1 := fresh "d1" in let e1 := fresh "e1" in
  let Hrf1 := fresh "Hrf1" in let Hi1 := fresh "Hi1" in let Hz := fresh "Hz" in
  let Hop := fresh "Hop" in let Ho1 := fresh "Ho1" in let Hd1 := fresh "Hd1" in
  let Hfr1 := fresh "Hfr1" in let Epb := fresh "Epb" in
  destruct (DecReader_readFragment c L r0 0 _) as [[r1 d1] e1] eqn:Hrf1;
  destruct (readFragment_inv _ _ _ _ r1 d1 e1 Hi0 Herr0 Ho0 Hfr0 Hrf1)
    as (Hi1 & Hfr1 & _ & _ & Hz);
  destruct e1 as [e1|];
  [ injection H as <- <-; rewrite app_nil_r; exact (dr_inv_prefix _ _ _ Hi1)
  | destruct (Hz eq_refl eq_refl) as (Hop & Ho1 & Hd1);
    destruct (dr_plaintextBuffer r1) as [|b rest] eqn:Epb; [discriminate|];
    injection H as <- <-;
    apply (dr_inv_byte_new r1 (dr_opened r0) D b rest); auto;
    [ destruct Hi1 as (Hx & _); exact Hx
    | rewrite Epb; exact Hop
    | destruct Hi0 as (_ & _ & Hx & _); exact Hx ] ].

Lemma ReadByte_inv (r : DecReader) (D : bytes) (r' : DecReader) (res : byte + error) :
  dr_inv r D -> DecReader_ReadByte c L r = Ret (r', res) ->
  dr_inv r' (D ++ match res with inl b => [b] | inr _ => [] end).
Proof.
  intros Hi H. unfold DecReader_ReadByte in H.
  destruct (dr_err r) as [e0|] eqn:Herr.
  { injection H as <- <-. rewrite app_nil_r. exact Hi. }
  destruct (dr_firstRead r) eqn:Hfr.
  - assert (Ho : dr_offset (dr_clear_firstRead r) = 0%nat)
      by (cbn; destruct Hi as (_ & H2 & _); auto).
    pose proof (dr_inv_clear r D Hi) as Hi0.
    assert (Herr0 : dr_err (dr_clear_firstRead r) = None) by (cbn; exact Herr).
    assert (Hfr0 : dr_firstRead (dr_clear_firstRead r) = false) by reflexivity.
    readbyte_fragment H (dr_clear_firstRead r) D Hi0 Herr0 Ho Hfr0.
  - destruct ((0 <? dr_offset r) && (dr_offset r <? length (dr_plaintextBuffer r)))%nat eqn:Eb.
    + apply andb_true_iff in Eb. destruct Eb as [Eb1 Eb2].
      apply Nat.ltb_lt in Eb1, Eb2.
      injection H as <- <-.
      destruct (dr_inv_pending r D 1 Hi Eb1 ltac:(rewrite length_drop; lia)) as [Hi2 _].
      rewrite take_1_drop_nth in Hi2 by exact Eb2.
      replace (S (dr_offset r)) with (dr_offset r + 1)%nat by lia. exact Hi2.
    + destruct (dr_closed r).
      { injection H as <- <-. rewrite app_nil_r. exact Hi. }
      pose proof (dr_inv_set_offset0 r D Hi) as Hi0.
      assert (Herr0 : dr_err (dr_set_offset r 0) = None) by (cbn; exact Herr).
      assert (Ho0 : dr_offset (dr_set_offset r 0) = 0%nat) by reflexivity.
      assert (Hfr0 : dr_firstRead (dr_set_offset r 0) = false) by (cbn; exact Hfr).
      readbyte_fragment H (dr_set_offset r 0) D Hi0 Herr0 Ho0 Hfr0.
Qed.

Lemma writeto_loop_inv (D : bytes) (fuel : nat) :
  forall (r : DecReader) (out : bytes) (r' : DecReader) (out' : bytes) (e : option error),
  dr_inv r (D ++ out) -> dr_err r = None -> dr_offset r = 0%nat -> dr_firstRead r = false ->
  dr_writeto_loop c L fuel r out = (r', out', e) -> dr_inv r' (D ++ out').
Proof.
  induction fuel as [|fuel IH]; intros r out r' out' e Hi Herr Ho Hfr H.
  { cbn in H. injection H as <- <- <-. exact Hi. }
  cbn [dr_writeto_loop] in H.
  destruct (DecReader_readFragment c L r (1 + L + Overhead c) 1) as [[r1 d] e1] eqn:Hrf.
  destruct (readFragment_inv _ _ _ _ r1 d e1 Hi Herr Ho Hfr Hrf)
    as (Hi1 & Hfr1 & Herr1 & Ho1 & _).
  specialize (Ho1 ltac:(lia)).
  rewrite <- app_assoc in Hi1.
  destruct e1 as [[]|].
  - injection H as <- <- <-. rewrite app_assoc in Hi1. exact (dr_inv_prefix _ _ _ Hi1).
  - injection H as <- <- <-. rewrite app_assoc in Hi1. exact (dr_inv_prefix _ _ _ Hi1).
  - destruct (dr_closed r1).
    + injection H as <- <- <-. exact Hi1.
    + exact (IH r1 (out ++ d) r' out' e Hi1 (Herr1 (or_intror eq_refl)) Ho1 Hfr1 H).
  - injection H as <- <- <-. rewrite app_assoc in Hi1. exact (dr_inv_prefix _ _ _ Hi1).
  - destruct (dr_closed r1).
    + injection H as <- <- <-. exact Hi1.
    + exact (IH r1 (out ++ d) r' out' e Hi1 (Herr1 (or_introl eq_refl)) Ho1 Hfr1 H).
Qed.

Ltac writeto_rest H r1 out1 D Hi1 Herr1 Hfr1 :=
  let Eo := fresh "Eo" in let Hi2 := fresh "Hi2" in
  destruct (0 <? dr_offset r1)%nat eqn:Eo;
  [ apply Nat.ltb_lt in Eo;
    destruct (dr_inv_pending r1 (D ++ out1)
                (length (drop (dr_offset r1) (dr_plaintextBuffer r1))) Hi1 Eo ltac:(lia))
      as [_ Hi2];
    rewrite take_ge in Hi2 by lia; rewrite <- app_assoc in Hi2;
    cbn [dr_closed dr_set_offset] in H;
    destruct (dr_closed r1);
    [ injection H as <- <- <-; exact Hi2
    | exact (writeto_loop_inv D _ _ _ _ _ _ Hi2 ltac:(cbn; exact Herr1) eq_refl
               ltac:(cbn; exact Hfr1) H) ]
  | apply Nat.ltb_ge in Eo;
    destruct (dr_closed r1);
    [ injection H as <- <- <-; exact Hi1
    | exact (writeto_loop_inv D _ _ _ _ _ _ Hi1 Herr1 ltac:(lia) Hfr1 H) ] ].

Lemma WriteTo_inv (r : DecReader) (D : bytes) (r' : DecReader) (out : bytes)
    (e : option error) :
  dr_inv r D -> DecReader_WriteTo c L r = (r', out, e) -> dr_inv r' (D ++ out).
Proof.
  intros Hi H. unfold DecReader_WriteTo in H.
  destruct (dr_err r) as [e0|] eqn:Herr.
  { injection H as <- <- <-. rewrite app_nil_r. exact Hi. }
  destruct (dr_firstRead r) eqn:Hfr.
  - assert (Ho : dr_offset (dr_clear_firstRead r) = 0%nat)
      by (cbn; destruct Hi as (_ & H2 & _); auto).
    destruct (DecReader_readFragment c L (dr_clear_firstRead r) (1 + L + Overhead c) 0)
      as [[r1 d1] e1] eqn:Hrf1.
    destruct (readFragment_inv _ _ _ _ r1 d1 e1 (dr_inv_clear r D Hi) ltac:(cbn; exact Herr)
                Ho eq_refl Hrf1) as (Hi1 & Hfr1 & Herr1 & _).
    destruct e1 as [[]|].
    + injection H as <- <- <-. rewrite app_nil_r. exact (dr_inv_prefix _ _ _ Hi1).
    + injection H as <- <- <-. rewrite app_nil_r. exact (dr_inv_prefix _ _ _ Hi1).
    + specialize (Herr1 (or_intror eq_refl)).
      destruct (dr_closed r1) eqn:Hcl1.
      { injection H as <- <- <-. exact Hi1. }
      cbn zeta in H. writeto_rest H r1 d1 D Hi1 Herr1 Hfr1.
    + injection H as <- <- <-. rewrite app_nil_r. exact (dr_inv_prefix _ _ _ Hi1).
    + specialize (Herr1 (or_introl eq_refl)).
      destruct (dr_closed r1) eqn:Hcl1.
      { injection H as <- <- <-. exact Hi1. }
      cbn zeta in H. writeto_rest H r1 d1 D Hi1 Herr1 Hfr1.
  - cbn zeta in H.
    assert (Hi0 : dr_inv r (D ++ [])) by (rewrite app_nil_r; exact Hi).
    writeto_rest H r (@nil byte) D Hi0 Herr Hfr.
Qed.

Lemma dr_step_inv (r : DecReader) (D : bytes) (op : dr_op) (r1 : DecReader) (d1 : bytes) :
  dr_inv r D -> dr_step c L r op = Ret (r1, d1) -> dr_inv r1 (D ++ d1).
Proof.
  intros Hi H. destruct op as [plen| |]; cbn [dr_step] in H.
  - destruct (DecReader_Read c L r plen) as [[ra da] ea] eqn:E.
    injection H as <- <-. exact (Read_inv r plen D ra da ea Hi E).
  - destruct (DecReader_ReadByte c L r) as [|[ra [b|e]]] eqn:E; try discriminate;
      injection H as <- <-; exact (ReadByte_inv r D _ _ Hi E).
  - destruct (DecReader_WriteTo c L r) as [[ra da] ea] eqn:E.
    injection H as <- <-. exact (WriteTo_inv r D ra da ea Hi E).
Qed.

Lemma dr_run_inv (ops : list dr_op) :
  forall (r : DecReader) (D : bytes) (r' : DecReader) (D' : bytes),
  dr_inv r D -> dr_run c L r ops = Ret (r', D') -> dr_inv r' (D ++ D').
Proof.
  induction ops as [|op ops IH]; intros r D r' D' Hi H; cbn [dr_run] in H.
  - injection H as <- <-. rewrite app_nil_r. exact Hi.
  - destruct (dr_step c L r op) as [|[r1 d1]] eqn:E1; [discriminate|].
    destruct (dr_run c L r1 ops) as [|[r2 d2]] eqn:E2; [discriminate|].
    injection H as <- <-. rewrite app_assoc.
    exact (IH r1 (D ++ d1) r2 d2 (dr_step_inv r D op r1 d1 Hi E1) E2).
Qed.

Lemma dr_step_latched (r : DecReader) (e : error) (op : dr_op) :
  dr_err r = Some e -> dr_step c L r op = Ret (r, []).
Proof.
  intros He. destruct op as [plen| |]; cbn [dr_step];
    unfold DecReader_Read, DecReader_ReadByte, DecReader_WriteTo; rewrite He; reflexivity.
Qed.

Lemma dr_run_latched (r : DecReader) (e : error) (ops : list dr_op) :
  dr_err r = Some e -> dr_run c L r ops = Ret (r, []).
Proof.
  intros He. induction ops as [|op ops IH]; cbn [dr_run]; [reflexivity|].
  rewrite (dr_step_latched r e op He), IH. reflexivity.
Qed.

Lemma discard_loop_inv (D : bytes) (fuel : nat) :
  forall (r : DecReader) (left written : nat) (r' : DecReader) (w' : nat) (e : option error),
  dr_inv r D -> discard_loop c L fuel r left written = (r', w', e) -> dr_inv r' D.
Proof.
  induction fuel as [|fuel IH]; intros r left written r' w' e Hi H; cbn [discard_loop] in H.
  { injection H as <- <- <-. exact Hi. }
  destruct (left =? 0)%nat.
  { injection H as <- <- <-. exact Hi. }
  destruct (DecReader_Read c L r (Nat.min blackHoleSize left)) as [[r1 d] e1] eqn:E.
  pose proof (dr_inv_prefix _ _ _ (Read_inv r _ D r1 d e1 Hi E)) as Hi1.
  destruct e1 as [[]|]; try (injection H as <- <- <-; exact Hi1).
  exact (IH r1 _ _ r' w' e Hi1 H).
Qed.

Lemma CopyN_Discard_inv (r : DecReader) (D : bytes) (k : nat) (r' : DecReader)
    (e : option error) :
  dr_inv r D -> CopyN_Discard c L r k = (r', e) -> dr_inv r' D.
Proof.
  intros Hi H. unfold CopyN_Discard in H.
  destruct (discard_loop c L (S k) r k 0) as [[r1 w] e1] eqn:E.
  pose proof (discard_loop_inv D (S k) r k 0 r1 w e1 Hi E) as Hi1.
  destruct (w =? k)%nat; [injection H as <- <-; exact Hi1|].
  destruct e1; injection H as <- <-; exact Hi1.
Qed.

Lemma readfrom_loop_inv (D : bytes) (want fuel : nat) :
  forall (r : DecReader) (acc : bytes) (r' : DecReader) (acc' : bytes) (e : option error),
  dr_inv r (D ++ acc) -> readfrom_loop c L fuel r want acc = (r', acc', e) ->
  dr_inv r' (D ++ acc').
Proof.
  induction fuel as [|fuel IH]; intros r acc r' acc' e Hi H; cbn [readfrom_loop] in H.
  { injection H as <- <- <-. exact Hi. }
  destruct (length acc <? want)%nat; [|injection H as <- <- <-; exact Hi].
  destruct (DecReader_Read c L r (want - length acc)) as [[r1 d] e1] eqn:E.
  pose proof (Read_inv r _ (D ++ acc) r1 d e1 Hi E) as Hi1.
  rewrite <- app_assoc in Hi1.
  destruct e1 as [e1|].
  - injection H as <- <- <-. exact Hi1.
  - exact (IH r1 (acc ++ d) r' acc' e Hi1 H).
Qed.

Lemma readFrom_DecReader_inv (r : DecReader) (D : bytes) (want : nat) (r' : DecReader)
    (d : bytes) (e : option error) :
  dr_inv r D -> readFrom_DecReader c L r want = (r', d, e) -> dr_inv r' (D ++ d).
Proof.
  intros Hi H. unfold readFrom_DecReader in H.
  destruct (readfrom_loop c L (S want) r want []) as [[r1 d1] e1] eqn:E.
  assert (Hi0 : dr_inv r (D ++ [])) by (rewrite app_nil_r; exact Hi).
  pose proof (readfrom_loop_inv D want (S want) r [] r1 d1 e1 Hi0 E) as Hi1.
  destruct e1 as [[]|]; try (injection H as <- <- <-; exact Hi1).
  destruct (length d1 =? want)%nat; injection H as <- <- <-; exact Hi1.
Qed.

Lemma ReadAt_reader_inv (ra : DecReaderAt) (t : Z) : dr_inv (ReadAt_reader c L ra t) [].
Proof.
  unfold dr_inv, ReadAt_reader; cbn. split; [discriminate|]. split; [reflexivity|].
  split; [reflexivity|]. lia.
Qed.

Lemma ReadAt_full_inv (ra : DecReaderAt) (plen : nat) (offset : Z) (dr : DecReader)
    (d : bytes) (e : option error) :
  DecReaderAt_ReadAt_full c L ra plen offset = (Some dr, d, e) -> dr_inv dr d.
Proof.
  intros H. unfold DecReaderAt_ReadAt_full in H.
  destruct (offset <? 0); [discriminate|].
  destruct (wrap64 (Z.quot offset (Z.of_nat L) + 1) >? MaxUint32); [discriminate|].
  pose proof (ReadAt_reader_inv ra (Z.quot offset (Z.of_nat L))) as Hi.
  set (dr0 := ReadAt_reader c L ra (Z.quot offset (Z.of_nat L))) in *.
  destruct (Z.rem offset (Z.of_nat L) >? 0).
  - destruct (CopyN_Discard c L dr0 (Z.to_nat (Z.rem offset (Z.of_nat L)))) as [dr1 [e1|]] eqn:E.
    + injection H as <- <- <-. exact (CopyN_Discard_inv _ _ _ _ _ Hi E).
    + destruct (readFrom_DecReader c L dr1 plen) as [[dr2 d2] e2] eqn:E2.
      injection H as <- <- <-.
      exact (readFrom_DecReader_inv dr1 [] plen dr2 d2 e2 (CopyN_Discard_inv _ _ _ _ _ Hi E) E2).
  - destruct (readFrom_DecReader c L dr0 plen) as [[dr2 d2] e2] eqn:E2.
    injection H as <- <- <-.
    exact (readFrom_DecReader_inv dr0 [] plen dr2 d2 e2 Hi E2).
Qed.

End DecReader_inv.

Section DecWriter_inv.

Variable c : AEAD.
Variable L : nat.

Lemma dw_inv_rejected_false (w : DecWriter) :
  dw_inv w -> dw_err w <> Some NotAuthentic -> dw_rejected w = false.
Proof.
  intros [_ H] He. destruct (dw_rejected w); [|reflexivity]. exfalso. exact (He (H eq_refl)).
Qed.

Lemma dw_fragment_inv (w : DecWriter) (ct : bytes) (w1 : DecWriter) (e : option error) :
  dw_inv w -> dw_err w = None -> dw_fragment c w ct = (w1, e) ->
  dw_inv w1 /\ (e = None -> dw_err w1 = None).
Proof.
  intros Hi He H. pose proof (dw_inv_rejected_false w Hi ltac:(congruence)) as Hr.
  destruct Hi as [Ho _].
  unfold dw_fragment, DecWriter_nextNonce in H.
  destruct (dw_seqNum w =? MaxUint32).
  { injection H as <- <-. unfold dw_inv, dw_set_err; cbn. split; [|discriminate].
    split; [exact Ho|]. congruence. }
  unfold dw_open in H; cbn in H.
  destruct (Open c _ ct (dw_associatedData w)) as [pt|].
  - injection H as <- <-. unfold dw_inv, dw_emit; cbn. rewrite Ho.
    split; [|intros _; exact He]. split; [reflexivity|]. congruence.
  - injection H as <- <-. unfold dw_inv, dw_set_err; cbn. split; [|discriminate].
    split; [exact Ho|]. reflexivity.
Qed.

Lemma dw_inv_set_buffer (w : DecWriter) (b : bytes) : dw_inv w -> dw_inv (dw_set_buffer w b).
Proof. intros H. exact H. Qed.

Lemma dw_write_loop_inv (fuel : nat) :
  forall (w : DecWriter) (p : bytes) (n : nat) (w' : DecWriter) (n' : nat) (e : option error),
  dw_inv w -> dw_err w = None -> dw_write_loop c L fuel w p n = (w', n', e) -> dw_inv w'.
Proof.
  induction fuel as [|fuel IH]; intros w p n w' n' e Hi He H; cbn [dw_write_loop] in H.
  { injection H as <- <- <-. exact Hi. }
  destruct (L + Overhead c <? length p)%nat.
  - destruct (dw_fragment c w (take (L + Overhead c) p)) as [w1 e1] eqn:E.
    destruct (dw_fragment_inv w _ w1 e1 Hi He E) as [Hi1 He1].
    destruct e1 as [e1|].
    + injection H as <- <- <-. exact Hi1.
    + exact (IH w1 _ _ w' n' e Hi1 (He1 eq_refl) H).
  - injection H as <- <- <-. exact (dw_inv_set_buffer w p Hi).
Qed.

Lemma Write_inv (w : DecWriter) (p : bytes) (w' : DecWriter) (n : nat) (e : option error) :
  dw_inv w -> DecWriter_Write c L w p = Ret (w', n, e) -> dw_inv w'.
Proof.
  intros Hi H. unfold DecWriter_Write in H.
  destruct (dw_closed w); [discriminate|].
  destruct (dw_err w) as [e0|] eqn:He.
  { injection H as <- <- <-. exact Hi. }
  destruct (0 <? length (dw_buffer w))%nat.
  - destruct (_ =? length p)%nat.
    { injection H as <- <- <-. exact (dw_inv_set_buffer w _ Hi). }
    destruct (dw_fragment c (dw_set_buffer w []) _) as [w1 e1] eqn:E.
    destruct (dw_fragment_inv _ _ w1 e1 (dw_inv_set_buffer w [] Hi) He E) as [Hi1 He1].
    destruct e1 as [e1|].
    + injection H as <- <- <-. exact Hi1.
    + match type of H with Ret ?x = _ => destruct x as [[wa na] ea] eqn:El end.
      injection H as <- <- <-. exact (dw_write_loop_inv _ w1 _ _ wa na ea Hi1 (He1 eq_refl) El).
  - match type of H with Ret ?x = _ => destruct x as [[wa na] ea] eqn:El end.
    injection H as <- <- <-. exact (dw_write_loop_inv _ w _ _ wa na ea Hi He El).
Qed.

Lemma WriteByte_inv (w : DecWriter) (b : byte) (w' : DecWriter) (e : option error) :
  dw_inv w -> DecWriter_WriteByte c L w b = Ret (w', e) -> dw_inv w'.
Proof.
  intros Hi H. unfold DecWriter_WriteByte in H.
  destruct (dw_closed w); [discriminate|].
  destruct (dw_err w) as [e0|] eqn:He.
  { injection H as <- <-. exact Hi. }
  destruct (length (dw_buffer w) <? L + Overhead c)%nat.
  { injection H as <- <-. exact (dw_inv_set_buffer w _ Hi). }
  destruct (dw_fragment c w (dw_buffer w)) as [w1 e1] eqn:E.
  destruct (dw_fragment_inv w _ w1 e1 Hi He E) as [Hi1 _].
  destruct e1; injection H as <- <-; [exact Hi1 | exact (dw_inv_set_buffer w1 _ Hi1)].
Qed.

Lemma dw_close_final_inv (w : DecWriter) (w' : DecWriter) (e : option error) :
  dw_inv w -> dw_rejected w = false -> dw_close_final c w = (w', e) -> dw_inv w'.
Proof.
  intros [Ho _] Hr H. unfold dw_close_final in H.
  destruct (dw_closed w).
  { injection H as <- <-. split; [exact Ho|]. congruence. }
  unfold dw_open in H; cbn in H.
  destruct (Open c _ (dw_buffer w) _) as [pt|].
  - injection H as <- <-. unfold dw_inv, dw_set_err, dw_emit; cbn. rewrite Ho.
    split; [reflexivity|]. congruence.
  - injection H as <- <-. unfold dw_inv, dw_set_err; cbn. split; [exact Ho|reflexivity].
Qed.

Lemma Close_inv (w : DecWriter) (w' : DecWriter) (e : option error) :
  dw_inv w -> DecWriter_Close c w = (w', e) -> dw_inv w'.
Proof.
  intros Hi H. unfold DecWriter_Close in H.
  destruct (dw_err w) as [e0|] eqn:He.
  - destruct e0; cbn [error_eqb] in H.
    + exact (dw_close_final_inv w w' e Hi (dw_inv_rejected_false w Hi ltac:(congruence)) H).
    + injection H as <- <-. exact Hi.
    + injection H as <- <-. exact Hi.
    + injection H as <- <-. exact Hi.
  - exact (dw_close_final_inv w w' e Hi (dw_inv_rejected_false w Hi ltac:(congruence)) H).
Qed.

Lemma dw_readfrom_loop_inv (fuel : nat) :
  forall (w : DecWriter) (r : bytes) (carry : byte) (n : nat) (w' : DecWriter) (r' : bytes)
    (n' : nat) (e : option error),
  dw_inv w -> dw_err w = None -> dw_readfrom_loop c L fuel w r carry n = (w', r', n', e) ->
  dw_inv w'.
Proof.
  induction fuel as [|fuel IH]; intros w r carry n w' r' n' e Hi He H;
    cbn [dw_readfrom_loop] in H.
  { injection H as <- <- <- <-. exact Hi. }
  destruct (readFrom r (L + Overhead c)) as [[data r1] [e0|]].
  - destruct (DecWriter_Close c (dw_set_buffer w (carry :: data))) as [w2 e2] eqn:E.
    injection H as <- <- <- <-. exact (Close_inv _ w2 e2 (dw_inv_set_buffer w _ Hi) E).
  - destruct (dw_fragment c w _) as [w1 e1] eqn:E.
    destruct (dw_fragment_inv w _ w1 e1 Hi He E) as [Hi1 He1].
    destruct e1 as [e1|].
    + injection H as <- <- <- <-. exact Hi1.
    + exact (IH w1 r1 _ _ w' r' n' e Hi1 (He1 eq_refl) H).
Qed.

Lemma ReadFrom_inv (w : DecWriter) (src : bytes) (w' : DecWriter) (r' : bytes) (n : nat)
    (e : option error) :
  dw_inv w -> DecWriter_ReadFrom c L w src = Ret (w', r', n, e) -> dw_inv w'.
Proof.
  intros Hi H. unfold DecWriter_ReadFrom in H.
  destruct (dw_closed w); [discriminate|].
  destruct (dw_err w) as [e0|] eqn:He.
  { injection H as <- <- <- <-. exact Hi. }
  destruct (readFrom src (1 + (L + Overhead c))) as [[data r1] [e0|]].
  - destruct (DecWriter_Close c (dw_set_buffer w data)) as [w2 e2] eqn:E.
    injection H as <- <- <- <-. exact (Close_inv _ w2 e2 (dw_inv_set_buffer w _ Hi) E).
  - destruct (dw_fragment c w _) as [w1 e1] eqn:E.
    destruct (dw_fragment_inv w _ w1 e1 Hi He E) as [Hi1 He1].
    destruct e1 as [e1|].
    + injection H as <- <- <- <-. exact Hi1.
    + match type of H with Ret ?x = _ => destruct x as [[[wa ra] na] ea] eqn:El end.
      injection H as <- <- <- <-.
      exact (dw_readfrom_loop_inv _ w1 r1 _ _ wa ra na ea Hi1 (He1 eq_refl) El).
Qed.

Lemma dw_step_inv (w : DecWriter) (op : dw_op) (w1 : DecWriter) :
  dw_inv w -> dw_step c L w op = Ret w1 -> dw_inv w1.
Proof.
  intros Hi H. destruct op as [p|b| |src]; cbn [dw_step] in H.
  - destruct (DecWriter_Write c L w p) as [|[[wa na] ea]] eqn:E; [discriminate|].
    injection H as <-. exact (Write_inv w p wa na ea Hi E).
  - destruct (DecWriter_WriteByte c L w b) as [|[wa ea]] eqn:E; [discriminate|].
    injection H as <-. exact (WriteByte_inv w b wa ea Hi E).
  - destruct (DecWriter_Close c w) as [wa ea] eqn:E.
    injection H as <-. exact (Close_inv w wa ea Hi E).
  - destruct (DecWriter_ReadFrom c L w src) as [|[[[wa ra] na] ea]] eqn:E; [discriminate|].
    injection H as <-. exact (ReadFrom_inv w src wa ra na ea Hi E).
Qed.

Lemma dw_run_inv (ops : list dw_op) :
  forall (w w' : DecWriter), dw_inv w -> dw_run c L w ops = Ret w' -> dw_inv w'.
Proof.
  induction ops as [|op ops IH]; intros w w' Hi H; cbn [dw_run] in H.
  - injection H as <-. exact Hi.
  - destruct (dw_step c L w op) as [|w1] eqn:E; [discriminate|].
    exact (IH w1 w' (dw_step_inv w op w1 Hi E) H).
Qed.

Lemma dw_step_latched (w w1 : DecWriter) (op : dw_op) :
  dw_err w = Some NotAuthentic -> dw_step c L w op = Ret w1 -> w1 = w.
Proof.
  intros He H. destruct op as [p|b| |src]; cbn [dw_step] in H;
    unfold DecWriter_Write, DecWriter_WriteByte, DecWriter_Close, DecWriter_ReadFrom in H;
    rewrite ?He in H; cbn [error_eqb] in H.
  - destruct (dw_closed w); [discriminate|]. injection H as <-. reflexivity.
  - destruct (dw_closed w); [discriminate|]. injection H as <-. reflexivity.
  - injection H as <-. reflexivity.
  - destruct (dw_closed w); [discriminate|]. injection H as <-. reflexivity.
Qed.

Lemma dw_run_latched (ops : list dw_op) :
  forall (w w' : DecWriter), dw_err w = Some NotAuthentic -> dw_run c L w ops = Ret w' -> w' = w.
Proof.
  induction ops as [|op ops IH]; intros w w' He H; cbn [dw_run] in H.
  - injection H as <-. reflexivity.
  - destruct (dw_step c L w op) as [|w1] eqn:E; [discriminate|].
    pose proof (dw_step_latched w w1 op He E) as ->. exact (IH w w' He H).
Qed.

End DecWriter_inv.

(** C2: decrypt adapters deliver only authenticated plaintext.  The ghost
    fields [dw_opened]/[dr_opened] collect the plaintexts of the successful
    [Open] calls, [dw_rejected]/[dr_rejected] record a failed one.  For every
    sequence of operations: a [DecWriter] has forwarded to its downstream
    writer exactly the opened plaintext, and after a failed [Open] it has
    latched [NotAuthentic] and no later operation changes it; the bytes a
    [DecReader] has delivered form a subsequence of the opened plaintext, and
    after a failed [Open] it has latched [NotAuthentic] and every later
    operation delivers nothing; the bytes a [ReadAt] of a [DecReaderAt]
    returns form a subsequence of the plaintext its internal [DecReader]
    opened, and a failed [Open] latches [NotAuthentic] in that reader.  The
    bytes delivered by a [Read] are the [n] bytes it reports; the fast path
    of [readFragment] opens into the caller's [p], whose contents beyond [n]
    are not modelled. *)
Theorem decrypt_adapters_deliver_only_opened (c : AEAD) (L : nat) (nonce ad : bytes)
    (HL : (1 <= L)%nat) :
  (forall (w0 w : DecWriter) (ops : list dw_op),
     DecryptWriter c nonce ad = Ret w0 -> dw_run c L w0 ops = Ret w ->
     dw_out w = dw_opened w /\
     (dw_rejected w = true ->
      dw_err w = Some NotAuthentic /\
      forall ops' w', dw_run c L w ops' = Ret w' -> w' = w)) /\
  (forall (src : bytes) (r0 r : DecReader) (ops : list dr_op) (D : bytes),
     DecryptReader c src nonce ad = Ret r0 -> dr_run c L r0 ops = Ret (r, D) ->
     D `sublist_of` dr_opened r /\
     (dr_rejected r = true ->
      dr_err r = Some NotAuthentic /\ forall ops', dr_run c L r ops' = Ret (r, []))) /\
  (forall (src : bytes) (ra : DecReaderAt) (plen : nat) (offset : Z) (dr : DecReader)
     (d : bytes) (e : option error),
     DecryptReaderAt c src nonce ad = Ret ra ->
     DecReaderAt_ReadAt_full c L ra plen offset = (Some dr, d, e) ->
     d `sublist_of` dr_opened dr /\ (dr_rejected dr = true -> dr_err dr = Some NotAuthentic)).
Proof.
  split; [|split].
  - intros w0 w ops H0 H.
    assert (Hi0 : dw_inv w0).
    { unfold DecryptWriter, DecWriter_nextNonce in H0.
      destruct (negb _); [discriminate|]. cbn in H0.
      injection H0 as <-. split; [reflexivity|discriminate]. }
    destruct (dw_run_inv c L ops w0 w Hi0 H) as [Ho Hr].
    split; [exact Ho|]. intros Hrej. specialize (Hr Hrej).
    split; [exact Hr|]. intros ops' w' H'. exact (dw_run_latched c L ops' w w' Hr H').
  - intros src r0 r ops D H0 H.
    assert (Hi0 : dr_inv r0 []).
    { unfold DecryptReader in H0. destruct (negb _); [discriminate|].
      injection H0 as <-. unfold dr_inv; cbn.
      split; [discriminate|]. split; [reflexivity|]. split; [reflexivity|]. lia. }
    destruct (dr_run_inv c L HL ops r0 [] r D Hi0 H) as (Hr & _ & HD & _).
    split; [exact HD|]. intros Hrej. specialize (Hr Hrej).
    split; [exact Hr|]. intros ops'. exact (dr_run_latched c L r _ ops' Hr).
  - intros src ra plen offset dr d e _ H.
    destruct (ReadAt_full_inv c L HL ra plen offset dr d e H) as (Hr & _ & HD & _).
    split; [exact HD | exact Hr].
Qed.

(** Witness of C2 with the toy AEAD and [L = 2]: a [DecWriter] fed the first
    fragment of the encryption of [01 .. 05] followed by seven forged bytes,
    then closed. *)
Lemma decrypt_adapters_deliver_only_opened_witness :
  (1 <= 2)%nat /\
  let C := match encrypt_by_writes toy_aead 2 toy_nonce [] [[x01; x02; x03; x04; x05]] with
           | Ret (C, _) => take 4 C ++ repeat x07 7
           | Panic => []
           end in
  exists w0 w, DecryptWriter toy_aead toy_nonce [] = Ret w0 /\
    dw_run toy_aead 2 w0 [DW_Write C; DW_Close] = Ret w /\
    dw_rejected w = true /\ dw_out w = [x01; x02] /\
    dw_out w = dw_opened w /\ dw_err w = Some NotAuthentic.
Proof.
  split; [lia|]. cbv zeta.
  match goal with |- context [dw_run _ _ _ [DW_Write ?C; DW_Close]] =>
    let v := eval vm_compute in C in change C with v end.
  assert (E0 : DecryptWriter toy_aead toy_nonce [] =
               ltac:(let v := eval vm_compute in (DecryptWriter toy_aead toy_nonce []) in exact v))
    by (vm_compute; reflexivity).
  match type of E0 with _ = Ret ?w0 =>
    match goal with |- context [dw_run _ _ _ ?ops] =>
      assert (E1 : dw_run toy_aead 2 w0 ops =
                   ltac:(let v := eval vm_compute in (dw_run toy_aead 2 w0 ops) in exact v))
        by (vm_compute; reflexivity);
      match type of E1 with _ = Ret ?w =>
        exists w0, w; split; [exact E0|]; split; [exact E1|];
        destruct (proj1 (decrypt_adapters_deliver_only_opened toy_aead 2 toy_nonce []
                           ltac:(lia)) w0 w ops E0 E1) as [Ho Hr]
      end
    end
  end.
  split; [reflexivity|]. split; [reflexivity|]. split; [exact Ho|].
  exact (proj1 (Hr eq_refl)).
Defined.

(** * More of the adapters: [WriteByte], [ReadFrom], [ReadByte], [WriteTo] *)

Lemma nth_cons_drop (l : bytes) (m : nat) :
  (m < length l)%nat -> nth m l x00 :: drop (S m) l = drop m l.
Proof.
  revert l. induction m as [|m IH]; intros [|a l] H; cbn in *; try lia; [reflexivity|].
  apply IH. lia.
Qed.

Lemma nth_take_lt (l : bytes) (m k : nat) : (m < k)%nat -> nth m (take k l) x00 = nth m l x00.
Proof.
  revert l k. induction m as [|m IH]; intros [|a l] [|k] H; cbn; try lia; try reflexivity.
  apply IH. lia.
Qed.

Lemma dw_base_set_buffer (n0 T : bytes) (w : DecWriter) (s : Z) (b : bytes) :
  dw_base n0 T w s -> dw_base n0 T (dw_set_buffer w b) s.
Proof. destruct w. unfold dw_base. cbn. auto. Qed.

Section DecWriter_correct.

Variable c : AEAD.
Variable L : nat.
Variables n0 T : bytes.
Hypothesis HL : (1 <= L)%nat.
Hypothesis Hseal_len : forall n p a, length (Seal c n p a) = (length p + Overhead c)%nat.
Hypothesis Hopen_seal : forall n p a, Open c n (Seal c n p a) a = Some p.

Local Abbreviation DW_good := (DW_good c L n0 T).

(** more than a fragment of the stream is there: its first fragment is an
    intermediate one *)
Lemma seal_frags_next (s : Z) (Xs : list bytes) (Z0 R : bytes) :
  chunks_ok true L Xs -> Z0 ++ R = seal_frags c n0 T s Xs ->
  (L + Overhead c < length Z0)%nat ->
  exists y Ys, Xs = y :: Ys /\ Ys <> [] /\ chunks_ok true L Ys /\
    take (L + Overhead c) Z0 = Seal c (put_seq n0 s) y (x00 :: T) /\
    drop (L + Overhead c) Z0 ++ R = seal_frags c n0 T (s + 1) Ys.
Proof.
  intros Hok HZ Hlt.
  destruct Xs as [|x [|y Ys]].
  - cbn in HZ. apply (f_equal length) in HZ. rewrite length_app in HZ. cbn in HZ. lia.
  - cbn in HZ, Hok. apply (f_equal length) in HZ. rewrite length_app, Hseal_len in HZ. lia.
  - destruct Hok as [Hx Hok].
    rewrite seal_frags_cons in HZ by discriminate.
    exists x, (y :: Ys). split; [reflexivity|]. split; [discriminate|].
    split; [exact (chunks_ok_weaken L false _ Hok)|].
    assert (HF : length (Seal c (put_seq n0 s) x (x00 :: T)) = (L + Overhead c)%nat)
      by (rewrite Hseal_len; lia).
    split.
    + apply (f_equal (take (L + Overhead c))) in HZ.
      rewrite take_app_le in HZ by lia. rewrite HZ. apply take_app_length'. lia.
    + apply (f_equal (drop (L + Overhead c))) in HZ.
      rewrite drop_app_le in HZ by lia. rewrite HZ. apply drop_app_length'. lia.
Qed.

(** at most a fragment of the stream is left: it is the final one *)
Lemma seal_frags_last (s : Z) (Xs : list bytes) :
  chunks_ok true L Xs -> Xs <> [] ->
  (length (seal_frags c n0 T s Xs) <= L + Overhead c)%nat ->
  exists x, Xs = [x] /\ seal_frags c n0 T s Xs = Seal c (put_seq n0 s) x (x80 :: T).
Proof.
  intros Hok Hne Hlen.
  destruct Xs as [|x [|y Ys]]; [congruence | exists x; split; reflexivity |].
  destruct Hok as [Hx Hok].
  pose proof (chunks_ok_false_hd L HL y Ys Hok) as Hy.
  rewrite seal_frags_cons in Hlen by discriminate.
  rewrite length_app, Hseal_len in Hlen.
  pose proof (length_seal_frags_cons c L n0 T HL Hseal_len (s + 1) y Ys). lia.
Qed.

Lemma dw_close_good (w : DecWriter) (s : Z) (Xs : list bytes) :
  DW_good w s Xs [] ->
  exists w', DecWriter_Close c w = (w', None) /\ dw_out w' = dw_out w ++ concat Xs /\
    dw_closed w' = true.
Proof.
  intros (Hb & Hok & Hne & Hs1 & Hs2 & Hbuf & Hlen).
  rewrite app_nil_r in Hbuf.
  destruct (seal_frags_last s Xs Hok Hne ltac:(rewrite <- Hbuf; exact Hlen)) as (x & -> & Hx).
  rewrite Hx in Hbuf.
  destruct Hb as (Herr & Hs & Hn & Had & Hcl).
  unfold DecWriter_Close. rewrite Herr. unfold dw_close_final. rewrite Hcl.
  unfold dw_open. cbn [dw_associatedData]. rewrite Had, Hbuf, Hn, Hs. cbn [set_final].
  rewrite Hopen_seal. eexists; split; [reflexivity|]. cbn. rewrite app_nil_r. auto.
Qed.

Lemma dw_write_loop_good (fuel : nat) :
  forall (w : DecWriter) (s : Z) (Xs : list bytes) (p R : bytes) (n : nat),
  dw_base n0 T w s -> chunks_ok true L Xs -> Xs <> [] -> 1 <= s ->
  s + Z.of_nat (length Xs) <= 2 ^ 32 -> p ++ R = seal_frags c n0 T s Xs ->
  (length p < fuel)%nat ->
  exists w' Xd Xs',
    dw_write_loop c L fuel w p n = (w', (n + length p)%nat, None) /\
    Xs = Xd ++ Xs' /\ dw_out w' = dw_out w ++ concat Xd /\
    DW_good w' (s + Z.of_nat (length Xd)) Xs' R.
Proof.
  induction fuel as [|fuel IH]; intros w s Xs p R n Hb Hok Hne Hs1 Hs2 HpR Hfuel; [lia|].
  cbn [dw_write_loop].
  destruct (Nat.ltb_spec (L + Overhead c) (length p)) as [Hlt|Hge].
  - destruct (seal_frags_next s Xs p R Hok HpR Hlt)
      as (y & Ys & -> & HYs & HokY & Htk & Hdr).
    assert (HYl : (1 <= length Ys)%nat) by (destruct Ys; [congruence | cbn; lia]).
    cbn [length] in Hs2.
    destruct (dw_fragment_inter c L n0 T HL Hopen_seal w s y Hb ltac:(lia) ltac:(lia))
      as (w1 & Hw1 & Hb1 & Hout1 & _).
    rewrite Htk, Hw1.
    destruct (IH w1 (s + 1) Ys (drop (L + Overhead c) p) R (n + (L + Overhead c))%nat
                Hb1 HokY HYs ltac:(lia) ltac:(lia) Hdr ltac:(rewrite length_drop; lia))
      as (w' & Xd & Xs' & Hl & HX & Hout & Hg).
    exists w', (y :: Xd), Xs'. rewrite Hl. split.
    { do 2 f_equal. rewrite length_drop. lia. }
    split; [rewrite HX; reflexivity|].
    split; [rewrite Hout, Hout1, <- app_assoc; reflexivity|].
    cbn [length]. replace (s + Z.of_nat (S (length Xd))) with (s + 1 + Z.of_nat (length Xd)) by lia.
    exact Hg.
  - exists (dw_set_buffer w p), [], Xs. split; [reflexivity|].
    split; [reflexivity|]. split; [cbn; rewrite app_nil_r; reflexivity|].
    cbn [length]. rewrite Z.add_0_r.
    split; [apply dw_base_set_buffer; exact Hb|]. cbn [dw_buffer dw_set_buffer]. auto 7.
Qed.


Lemma DecWriter_Write_good (w : DecWriter) (s : Z) (Xs : list bytes) (p R : bytes) :
  DW_good w s Xs (p ++ R) ->
  exists w' Xd Xs',
    DecWriter_Write c L w p = Ret (w', length p, None) /\
    Xs = Xd ++ Xs' /\ dw_out w' = dw_out w ++ concat Xd /\
    DW_good w' (s + Z.of_nat (length Xd)) Xs' R.
Proof.
  intros (Hb & Hok & Hne & Hs1 & Hs2 & Hbuf & Hlen).
  pose proof Hb as (Herr & Hs & Hn & Had & Hcl).
  unfold DecWriter_Write. rewrite Hcl, Herr. cbv zeta.
  destruct (Nat.ltb_spec 0 (length (dw_buffer w))) as [Hpos|Hz].
  - destruct (Nat.eqb_spec (Nat.min (L + Overhead c - length (dw_buffer w)) (length p)) (length p))
      as [Hk|Hk].
    + rewrite Hk. exists (dw_set_buffer w (dw_buffer w ++ p)), [], Xs.
      split; [reflexivity|]. split; [reflexivity|]. split; [cbn; rewrite app_nil_r; reflexivity|].
      cbn [length]. rewrite Z.add_0_r.
      split; [apply dw_base_set_buffer; exact Hb|]. cbn [dw_buffer dw_set_buffer].
      rewrite <- app_assoc, length_app. repeat split; auto. lia.
    + set (k := Nat.min (L + Overhead c - length (dw_buffer w)) (length p)) in *.
      assert (Hk' : k = (L + Overhead c - length (dw_buffer w))%nat) by lia.
      rewrite app_assoc in Hbuf.
      destruct (seal_frags_next s Xs (dw_buffer w ++ p) R Hok Hbuf
                  ltac:(rewrite length_app; lia)) as (y & Ys & -> & HYs & HokY & Htk & Hdr).
      assert (Htk' : dw_buffer w ++ take k p = Seal c (put_seq n0 s) y (x00 :: T)).
      { rewrite <- Htk, take_app, (take_ge (dw_buffer w)) by lia. f_equal. f_equal. lia. }
      assert (Hdr' : drop k p ++ R = seal_frags c n0 T (s + 1) Ys).
      { rewrite <- Hdr, drop_app, (drop_ge (dw_buffer w)) by lia. cbn [app]. f_equal. f_equal. lia. }
      assert (HYl : (1 <= length Ys)%nat) by (destruct Ys; [congruence | cbn; lia]).
      cbn [length] in Hs2.
      destruct (dw_fragment_inter c L n0 T HL Hopen_seal (dw_set_buffer w []) s y
                  (dw_base_set_buffer n0 T w s [] Hb) ltac:(lia) ltac:(lia))
        as (w1 & Hw1 & Hb1 & Hout1 & _).
      rewrite Htk', Hw1.
      destruct (dw_write_loop_good (S (length (drop k p))) w1 (s + 1) Ys (drop k p) R k
                  Hb1 HokY HYs ltac:(lia) ltac:(lia) Hdr' ltac:(lia))
        as (w' & Xd & Xs' & Hl & HX & Hout & Hg).
      exists w', (y :: Xd), Xs'. rewrite Hl. split.
      { rewrite length_drop. do 3 f_equal. lia. }
      split; [rewrite HX; reflexivity|].
      split; [rewrite Hout, Hout1; cbn; rewrite <- app_assoc; reflexivity|].
      cbn [length]. replace (s + Z.of_nat (S (length Xd))) with (s + 1 + Z.of_nat (length Xd)) by lia.
      exact Hg.
  - assert (Hb0 : dw_buffer w = []) by (destruct (dw_buffer w); [reflexivity | cbn in Hz; lia]).
    rewrite Hb0 in Hbuf. cbn [app] in Hbuf.
    destruct (dw_write_loop_good (S (length p)) w s Xs p R 0 Hb Hok Hne Hs1 Hs2 Hbuf ltac:(lia))
      as (w' & Xd & Xs' & Hl & HX & Hout & Hg).
    exists w', Xd, Xs'. rewrite Hl. auto.
Qed.

Lemma DecWriter_writes_good (qs : list bytes) :
  forall (w : DecWriter) (s : Z) (Xs : list bytes) (R : bytes),
  DW_good w s Xs (concat qs ++ R) ->
  exists w' Xd Xs',
    DecWriter_writes c L w qs = Ret (w', None) /\
    Xs = Xd ++ Xs' /\ dw_out w' = dw_out w ++ concat Xd /\
    DW_good w' (s + Z.of_nat (length Xd)) Xs' R.
Proof.
  induction qs as [|q qs IH]; intros w s Xs R Hg.
  - exists w, [], Xs. cbn in *. rewrite app_nil_r, Z.add_0_r. auto.
  - cbn [concat] in Hg. rewrite <- app_assoc in Hg.
    destruct (DecWriter_Write_good w s Xs q _ Hg) as (w1 & Xd1 & Xs1 & Hw1 & HX1 & Hout1 & Hg1).
    cbn [DecWriter_writes]. rewrite Hw1.
    destruct (IH w1 _ Xs1 R Hg1) as (w' & Xd2 & Xs2 & Hw' & HX2 & Hout2 & Hg2).
    exists w', (Xd1 ++ Xd2), Xs2. split; [exact Hw'|].
    split; [rewrite HX1, HX2, app_assoc; reflexivity|].
    split; [rewrite Hout2, Hout1, concat_app, app_assoc; reflexivity|].
    rewrite length_app. replace (s + Z.of_nat (length Xd1 + length Xd2))
      with (s + Z.of_nat (length Xd1) + Z.of_nat (length Xd2)) by lia. exact Hg2.
Qed.

Lemma DecWriter_WriteByte_good (w : DecWriter) (s : Z) (Xs : list bytes) (b : byte) (R : bytes) :
  DW_good w s Xs (b :: R) ->
  exists w' Xd Xs',
    DecWriter_WriteByte c L w b = Ret (w', None) /\
    Xs = Xd ++ Xs' /\ dw_out w' = dw_out w ++ concat Xd /\
    DW_good w' (s + Z.of_nat (length Xd)) Xs' R.
Proof.
  intros (Hb & Hok & Hne & Hs1 & Hs2 & Hbuf & Hlen).
  pose proof Hb as (Herr & Hs & Hn & Had & Hcl).
  unfold DecWriter_WriteByte. rewrite Hcl, Herr.
  destruct (Nat.ltb_spec (length (dw_buffer w)) (L + Overhead c)) as [Hlt|Hge].
  - exists (dw_set_buffer w (dw_buffer w ++ [b])), [], Xs.
    split; [reflexivity|]. split; [reflexivity|]. split; [cbn; rewrite app_nil_r; reflexivity|].
    cbn [length]. rewrite Z.add_0_r.
    split; [apply dw_base_set_buffer; exact Hb|]. cbn [dw_buffer dw_set_buffer].
    rewrite <- app_assoc, length_app. cbn [app length]. repeat split; auto. lia.
  - replace (b :: R) with ([b] ++ R) in Hbuf by reflexivity. rewrite app_assoc in Hbuf.
    destruct (seal_frags_next s Xs (dw_buffer w ++ [b]) R Hok Hbuf
                ltac:(rewrite length_app; cbn; lia)) as (y & Ys & -> & HYs & HokY & Htk & Hdr).
    rewrite take_app_le, take_ge in Htk by lia.
    rewrite drop_app, drop_ge in Hdr by lia.
    replace (L + Overhead c - length (dw_buffer w))%nat with 0%nat in Hdr by lia.
    cbn [app drop] in Hdr.
    assert (HYl : (1 <= length Ys)%nat) by (destruct Ys; [congruence | cbn; lia]).
    cbn [length] in Hs2.
    destruct (dw_fragment_inter c L n0 T HL Hopen_seal w s y Hb ltac:(lia) ltac:(lia))
      as (w1 & Hw1 & Hb1 & Hout1 & _).
    rewrite <- Htk in Hw1. rewrite Hw1.
    exists (dw_set_buffer w1 [b]), [y], Ys. split; [reflexivity|].
    split; [reflexivity|]. split; [cbn; rewrite Hout1, app_nil_r; reflexivity|].
    cbn [length]. replace (s + Z.of_nat 1) with (s + 1) by lia.
    split; [apply dw_base_set_buffer; exact Hb1|]. cbn [dw_buffer dw_set_buffer].
    repeat split; auto; [lia | lia | cbn; lia].
Qed.

Lemma DecWriter_writebytes_good (bs : bytes) :
  forall (w : DecWriter) (s : Z) (Xs : list bytes) (R : bytes),
  DW_good w s Xs (bs ++ R) ->
  exists w' Xd Xs',
    DecWriter_writebytes c L w bs = Ret (w', None) /\
    Xs = Xd ++ Xs' /\ dw_out w' = dw_out w ++ concat Xd /\
    DW_good w' (s + Z.of_nat (length Xd)) Xs' R.
Proof.
  induction bs as [|b bs IH]; intros w s Xs R Hg.
  - exists w, [], Xs. cbn in *. rewrite app_nil_r, Z.add_0_r. auto.
  - destruct (DecWriter_WriteByte_good w s Xs b _ Hg) as (w1 & Xd1 & Xs1 & Hw1 & HX1 & Hout1 & Hg1).
    cbn [DecWriter_writebytes]. rewrite Hw1.
    destruct (IH w1 _ Xs1 R Hg1) as (w' & Xd2 & Xs2 & Hw' & HX2 & Hout2 & Hg2).
    exists w', (Xd1 ++ Xd2), Xs2. split; [exact Hw'|].
    split; [rewrite HX1, HX2, app_assoc; reflexivity|].
    split; [rewrite Hout2, Hout1, concat_app, app_assoc; reflexivity|].
    rewrite length_app. replace (s + Z.of_nat (length Xd1 + length Xd2))
      with (s + Z.of_nat (length Xd1) + Z.of_nat (length Xd2)) by lia. exact Hg2.
Qed.

Lemma dw_readfrom_loop_good (fuel : nat) :
  forall (w : DecWriter) (s : Z) (Xs : list bytes) (carry : byte) (r : bytes) (n : nat),
  dw_base n0 T w s -> chunks_ok true L Xs -> Xs <> [] -> 1 <= s ->
  s + Z.of_nat (length Xs) <= 2 ^ 32 -> carry :: r = seal_frags c n0 T s Xs ->
  (length r < fuel)%nat ->
  exists w',
    dw_readfrom_loop c L fuel w r carry n = (w', [], (n + length r)%nat, None) /\
    dw_out w' = dw_out w ++ concat Xs /\ dw_closed w' = true.
Proof.
  induction fuel as [|fuel IH]; intros w s Xs carry r n Hb Hok Hne Hs1 Hs2 Hcr Hfuel; [lia|].
  cbn [dw_readfrom_loop]. unfold readFrom.
  destruct (Nat.ltb_spec (length r) (L + Overhead c)) as [Hlt|Hge].
  - rewrite take_ge, drop_ge by lia.
    destruct (dw_close_good (dw_set_buffer w (carry :: r)) s Xs) as (w' & Hc & Hout & Hcl).
    { split; [apply dw_base_set_buffer; exact Hb|]. cbn [dw_buffer dw_set_buffer].
      rewrite app_nil_r. repeat split; auto; cbn; lia. }
    rewrite Hc. exists w'. split; [reflexivity|]. split; [exact Hout|exact Hcl].
  - cbv zeta.
    assert (Htk : take (L + Overhead c) (carry :: take (L + Overhead c) r)
                  = take (L + Overhead c) (carry :: r)).
    { destruct (L + Overhead c)%nat as [|m] eqn:E; [lia|]. cbn [take].
      rewrite take_take, Nat.min_l by lia. reflexivity. }
    assert (Hcarry : nth (L + Overhead c) (carry :: take (L + Overhead c) r) x00
                     :: drop (L + Overhead c) r = drop (L + Overhead c) (carry :: r)).
    { destruct (L + Overhead c)%nat as [|m] eqn:E; [lia|]. cbn [nth drop].
      rewrite nth_take_lt by lia. apply nth_cons_drop. lia. }
    rewrite <- (app_nil_r (carry :: r)) in Hcr.
    destruct (seal_frags_next s Xs (carry :: r) [] Hok Hcr ltac:(cbn; lia))
      as (y & Ys & -> & HYs & HokY & Htk' & Hdr).
    rewrite app_nil_r, <- Hcarry in Hdr.
    assert (HYl : (1 <= length Ys)%nat) by (destruct Ys; [congruence | cbn; lia]).
    cbn [length] in Hs2.
    destruct (dw_fragment_inter c L n0 T HL Hopen_seal w s y Hb ltac:(lia) ltac:(lia))
      as (w1 & Hw1 & Hb1 & Hout1 & _).
    rewrite Htk, Htk', Hw1.
    destruct (IH w1 (s + 1) Ys _ (drop (L + Overhead c) r) (n + (L + Overhead c))%nat
                Hb1 HokY HYs ltac:(lia) ltac:(lia) Hdr ltac:(rewrite length_drop; lia))
      as (w' & Hl & Hout & Hcl).
    rewrite Hl. exists w'. split.
    { rewrite length_drop. f_equal. f_equal. lia. }
    split; [rewrite Hout, Hout1, <- app_assoc; reflexivity|exact Hcl].
Qed.

Lemma DecWriter_ReadFrom_good (w : DecWriter) (s : Z) (Xs : list bytes) (R : bytes) :
  dw_base n0 T w s -> chunks_ok true L Xs -> Xs <> [] -> 1 <= s ->
  s + Z.of_nat (length Xs) <= 2 ^ 32 -> R = seal_frags c n0 T s Xs ->
  exists w',
    DecWriter_ReadFrom c L w R = Ret (w', [], length R, None) /\
    dw_out w' = dw_out w ++ concat Xs /\ dw_closed w' = true.
Proof.
  intros Hb Hok Hne Hs1 Hs2 HR.
  pose proof Hb as (Herr & Hs & Hn & Had & Hcl).
  unfold DecWriter_ReadFrom. rewrite Hcl, Herr. cbv zeta. unfold readFrom.
  destruct (Nat.ltb_spec (length R) (1 + (L + Overhead c))) as [Hlt|Hge].
  - rewrite take_ge, drop_ge by lia.
    destruct (dw_close_good (dw_set_buffer w R) s Xs) as (w' & Hc & Hout & Hcl').
    { split; [apply dw_base_set_buffer; exact Hb|]. cbn [dw_buffer dw_set_buffer].
      rewrite app_nil_r. repeat split; auto; lia. }
    rewrite Hc. exists w'. auto.
  - assert (Htk : take (L + Overhead c) (take (1 + (L + Overhead c)) R) = take (L + Overhead c) R)
      by (rewrite take_take, Nat.min_l by lia; reflexivity).
    assert (Hcarry : nth (L + Overhead c) (take (1 + (L + Overhead c)) R) x00
                     :: drop (1 + (L + Overhead c)) R = drop (L + Overhead c) R).
    { rewrite nth_take_lt by lia. apply nth_cons_drop. lia. }
    assert (HR' : R ++ [] = seal_frags c n0 T s Xs) by (rewrite app_nil_r; exact HR).
    destruct (seal_frags_next s Xs R [] Hok HR' ltac:(lia))
      as (y & Ys & -> & HYs & HokY & Htk' & Hdr).
    rewrite app_nil_r, <- Hcarry in Hdr.
    assert (HYl : (1 <= length Ys)%nat) by (destruct Ys; [congruence | cbn; lia]).
    cbn [length] in Hs2.
    destruct (dw_fragment_inter c L n0 T HL Hopen_seal w s y Hb ltac:(lia) ltac:(lia))
      as (w1 & Hw1 & Hb1 & Hout1 & _).
    rewrite Htk, Htk', Hw1.
    destruct (dw_readfrom_loop_good (S (length (drop (1 + (L + Overhead c)) R))) w1 (s + 1) Ys _
                (drop (1 + (L + Overhead c)) R) (length (take (1 + (L + Overhead c)) R))
                Hb1 HokY HYs ltac:(lia) ltac:(lia) Hdr ltac:(lia))
      as (w' & Hl & Hout & Hcl').
    rewrite Hl. exists w'. split.
    { rewrite length_take, length_drop. do 3 f_equal. lia. }
    split; [rewrite Hout, Hout1, <- app_assoc; reflexivity|exact Hcl'].
Qed.

End DecWriter_correct.

Lemma chunks_props (L : nat) (P : bytes) :
  (1 <= L)%nat ->
  chunks_ok true L (chunks L P) /\ chunks L P <> [] /\ concat (chunks L P) = P /\
  (Z.of_nat (length P) <= Z.of_nat L * MaxUint32 ->
   Z.of_nat (length (chunks L P)) <= MaxUint32).
Proof.
  intros HL. destruct (chunks_decomp L P HL) as (full & b & HX & HPe & Hf & Hb).
  rewrite HX. split; [|split; [|split]].
  - apply chunks_ok_snoc; auto.
    + destruct Hb as [Hb | [_ ->]]; cbn; lia.
    + intros Hfull. destruct Hb as [Hb | [Hb _]]; [lia | congruence].
  - intros E. apply (f_equal length) in E. rewrite length_app in E. cbn in E. lia.
  - rewrite concat_app. cbn. rewrite app_nil_r. symmetry. exact HPe.
  - intros HP. rewrite HPe, length_app, (length_concat_L L full Hf) in HP.
    rewrite length_app. cbn [length]. unfold MaxUint32 in *.
    destruct Hb as [Hb | [-> ->]]; cbn in *; nia.
Qed.

Lemma DecryptWriter_good (c : AEAD) (L : nat) (nonce ad P : bytes) :
  (1 <= L)%nat ->
  Z.of_nat (length nonce) = NonceSize c - 4 ->
  Z.of_nat (length P) <= Z.of_nat L * MaxUint32 ->
  exists w, DecryptWriter c nonce ad = Ret w /\ dw_out w = [] /\ dw_buffer w = [] /\
    DW_good c L (nonce0 nonce) (ad_tag c nonce ad) w 1 (chunks L P) (stream_encrypt c L nonce ad P).
Proof.
  intros HL Hn HP.
  destruct (DecryptWriter_ok c nonce ad Hn) as (w & Hw & Hb & Hbuf & Hout).
  destruct (chunks_props L P HL) as (Hok & Hne & _ & Hlen). specialize (Hlen HP).
  exists w. split; [exact Hw|]. split; [exact Hout|]. split; [exact Hbuf|].
  split; [exact Hb|]. rewrite Hbuf. unfold MaxUint32 in Hlen.
  split; [exact Hok|]. split; [exact Hne|]. split; [lia|]. split; [lia|].
  split; [reflexivity|]. cbn. lia.
Qed.

Section EncWriter_more.

Variable c : AEAD.
Variable L : nat.
Variables n0 T : bytes.
Hypothesis HL : (1 <= L)%nat.

Lemma EncWriter_WriteByte_ok (w : EncWriter) (Q : bytes) (b : byte) :
  EW_inv c L n0 T w Q ->
  Z.of_nat (length (Q ++ [b])) <= Z.of_nat L * MaxUint32 ->
  exists w', EncWriter_WriteByte c L w b = Ret (w', None) /\ EW_inv c L n0 T w' (Q ++ [b]).
Proof.
  intros (full & Hf & Hseq & Hn & Had & Her & Hcl & HQ & Hbl & Hbe & Hout) Hb.
  unfold EncWriter_WriteByte. rewrite Hcl, Her.
  destruct (Nat.ltb_spec (length (ew_buffer w)) L) as [Hlt|Hge].
  - eexists; split; [reflexivity|].
    exists full. ew_proj. repeat split; auto.
    + rewrite HQ, <- app_assoc. reflexivity.
    + rewrite length_app. cbn. lia.
    + intros E. apply (f_equal length) in E. rewrite length_app in E. cbn in E. lia.
  - assert (HbL : length (ew_buffer w) = L) by lia.
    rewrite HQ, !length_app, (length_concat_L L full Hf), HbL in Hb. cbn [length] in Hb.
    unfold MaxUint32 in Hb.
    assert (Hfk : Z.of_nat (length full) + 1 < 2 ^ 32 - 1).
    { apply (Z.mul_lt_mono_pos_l (Z.of_nat L)); [lia|]. nia. }
    assert (Hs : ew_seqNum w <> MaxUint32) by (rewrite Hseq; unfold MaxUint32; lia).
    rewrite (EncWriter_nextNonce_ok w Hs). cbv beta iota zeta.
    eexists; split; [reflexivity|].
    exists (full ++ [ew_buffer w]). ew_proj. repeat split.
    + apply Forall_app. split; [exact Hf|]. constructor; [exact HbL | constructor].
    + rewrite length_app. cbn [length]. rewrite Hseq, u32_incr_small by lia. lia.
    + intros s. rewrite put_seq_put_seq. apply Hn.
    + exact Had.
    + exact Her.
    + exact Hcl.
    + rewrite HQ, concat_app. cbn [concat]. rewrite app_nil_r. reflexivity.
    + cbn. lia.
    + discriminate.
    + rewrite Hout, seal_inter_snoc, Hn, Had, Hseq, take_ge by lia.
      do 3 f_equal. lia.
Qed.

Lemma EncWriter_writebytes_ok (bs : bytes) :
  forall w Q,
  EW_inv c L n0 T w Q ->
  Z.of_nat (length (Q ++ bs)) <= Z.of_nat L * MaxUint32 ->
  exists w', EncWriter_writebytes c L w bs = Ret (w', None) /\ EW_inv c L n0 T w' (Q ++ bs).
Proof.
  induction bs as [|b bs IH]; intros w Q Hinv Hb.
  - exists w. cbn. rewrite app_nil_r. auto.
  - cbn [EncWriter_writebytes].
    destruct (EncWriter_WriteByte_ok w Q b Hinv) as (w1 & Heq & Hinv1).
    + rewrite length_app in *. cbn in *. lia.
    + rewrite Heq. replace (Q ++ b :: bs) with ((Q ++ [b]) ++ bs)
        by (rewrite <- app_assoc; reflexivity).
      apply IH; [exact Hinv1|]. rewrite <- app_assoc. exact Hb.
Qed.

(** the [for] loop of [ReadFrom] seals every full fragment and [Close]
    seals the rest *)
Lemma ew_readfrom_loop_ok (fuel : nat) :
  forall full w carry r n,
  (length r < fuel)%nat ->
  Forall (fun x => length x = L) full ->
  ew_seqNum w = Z.of_nat (length full) + 1 ->
  (forall s, put_seq (ew_nonce w) s = put_seq n0 s) ->
  ew_associatedData w = x00 :: T -> ew_err w = None -> ew_closed w = false ->
  ew_out w = seal_inter c n0 T 1 full ->
  Z.of_nat (length (concat full ++ carry :: r)) <= Z.of_nat L * MaxUint32 ->
  exists w', ew_readfrom_loop c L fuel w r carry n = (w', [], (n + length r)%nat, None) /\
    ew_out w' = seal_frags c n0 T 1 (chunks L (concat full ++ carry :: r)) /\
    ew_closed w' = true.
Proof.
  induction fuel as [|f IH];
    intros full w carry r n Hfuel Hf Hseq Hn Had Her Hcl Hout Hbound; [lia|].
  cbn [ew_readfrom_loop]. unfold readFrom.
  destruct (Nat.ltb_spec (length r) L) as [Hlt|Hge].
  - rewrite take_ge, drop_ge by lia.
    rewrite (EncWriter_Close_ok c L n0 T HL (ew_set_buffer w (carry :: r)) (concat full ++ carry :: r)).
    + eexists; split; [reflexivity|]. split; reflexivity.
    + exists full. ew_proj. repeat split; auto; try (cbn; lia); try discriminate.
  - cbv zeta.
    rewrite length_app, (length_concat_L L full Hf) in Hbound. cbn [length] in Hbound.
    unfold MaxUint32 in *.
    assert (Hk : Z.of_nat (length full) + 1 < 2 ^ 32 - 1).
    { apply (Z.mul_lt_mono_pos_l (Z.of_nat L)); [lia|]. nia. }
    assert (Hs : ew_seqNum w <> MaxUint32) by (rewrite Hseq; unfold MaxUint32; lia).
    rewrite (EncWriter_nextNonce_ok w Hs). cbv beta iota zeta.
    assert (Htk : take L (carry :: take L r) = take L (carry :: r)).
    { destruct L as [|m] eqn:E; [lia|]. cbn [take].
      rewrite take_take, Nat.min_l by lia. reflexivity. }
    assert (Hcarry : nth L (carry :: take L r) x00 :: drop L r = drop L (carry :: r)).
    { destruct L as [|m] eqn:E; [lia|]. cbn [nth drop].
      rewrite nth_take_lt by lia. apply nth_cons_drop. lia. }
    rewrite Htk.
    edestruct (IH (full ++ [take L (carry :: r)])
      (ew_emit (mkEncWriter (u32_incr (ew_seqNum w)) (put_seq (ew_nonce w) (ew_seqNum w))
                 (ew_associatedData w) (ew_buffer w) (ew_err w) (ew_closed w) (ew_out w))
               (Seal c (put_seq (ew_nonce w) (ew_seqNum w)) (take L (carry :: r)) (ew_associatedData w)))
      (nth L (carry :: take L r) x00) (drop L r) (n + L)%nat) as (w' & Heq & Hout' & Hcl'); ew_proj.
    + rewrite length_drop. lia.
    + apply Forall_app. split; [exact Hf|]. constructor; [|constructor].
      rewrite length_take. cbn. lia.
    + rewrite length_app. cbn [length].
      rewrite Hseq, u32_incr_small by lia. lia.
    + intros s. rewrite put_seq_put_seq. apply Hn.
    + exact Had.
    + exact Her.
    + exact Hcl.
    + rewrite Hout, seal_inter_snoc, Hn, Had, Hseq. do 3 f_equal. lia.
    + rewrite Hcarry, concat_app. cbn [concat]. rewrite app_nil_r, <- app_assoc, take_drop.
      rewrite length_app, (length_concat_L L full Hf). cbn [length]. unfold MaxUint32. lia.
    + exists w'. rewrite Heq. split.
      * rewrite length_drop. f_equal. f_equal. lia.
      * rewrite Hcarry, concat_app in Hout'. cbn [concat] in Hout'.
        rewrite app_nil_r, <- app_assoc, take_drop in Hout'. auto.
Qed.

(** [ReadFrom] encrypts what it reads as one stream with the fragments
    sealed before; bytes of an earlier [Write] still in the buffer are not
    part of it *)
Lemma EncWriter_ReadFrom_ok (w : EncWriter) (full : list bytes) (P : bytes) :
  (1 <= Overhead c)%nat ->
  Forall (fun x => length x = L) full ->
  ew_seqNum w = Z.of_nat (length full) + 1 ->
  (forall s, put_seq (ew_nonce w) s = put_seq n0 s) ->
  ew_associatedData w = x00 :: T -> ew_err w = None -> ew_closed w = false ->
  ew_out w = seal_inter c n0 T 1 full ->
  (P <> [] \/ full = []) ->
  Z.of_nat (length (concat full ++ P)) <= Z.of_nat L * MaxUint32 ->
  exists w', EncWriter_ReadFrom c L w P = Ret (w', [], length P, None) /\
    ew_out w' = seal_frags c n0 T 1 (chunks L (concat full ++ P)) /\
    ew_closed w' = true.
Proof.
  intros Htau Hf Hseq Hn Had Her Hcl Hout Hne Hbound.
  unfold EncWriter_ReadFrom. rewrite Hcl, Her.
  destruct (Nat.eqb_spec (Overhead c) 0); [lia|].
  unfold readFrom.
  destruct (Nat.ltb_spec (length P) (L + 1)) as [Hlt|Hge].
  - rewrite take_ge, drop_ge by lia.
    rewrite (EncWriter_Close_ok c L n0 T HL (ew_set_buffer w P) (concat full ++ P)).
    + eexists; split; [reflexivity|]. split; reflexivity.
    + exists full. ew_proj. repeat split; auto; try lia.
      intros ->. destruct Hne; [congruence | assumption].
  - cbv zeta.
    rewrite length_app, (length_concat_L L full Hf) in Hbound.
    unfold MaxUint32 in *.
    assert (Hk : Z.of_nat (length full) + 1 < 2 ^ 32 - 1).
    { apply (Z.mul_lt_mono_pos_l (Z.of_nat L)); [lia|]. nia. }
    assert (Hs : ew_seqNum w <> MaxUint32) by (rewrite Hseq; unfold MaxUint32; lia).
    rewrite (EncWriter_nextNonce_ok w Hs). cbv beta iota zeta.
    rewrite take_take, Nat.min_l by lia.
    assert (Hcarry : nth L (take (L + 1) P) x00 :: drop (L + 1) P = drop L P).
    { rewrite nth_take_lt by lia. replace (L + 1)%nat with (S L) by lia.
      apply nth_cons_drop. lia. }
    destruct (ew_readfrom_loop_ok (S (length (drop (L + 1) P))) (full ++ [take L P])
      (ew_emit (mkEncWriter (u32_incr (ew_seqNum w)) (put_seq (ew_nonce w) (ew_seqNum w))
                 (ew_associatedData w) (ew_buffer w) (ew_err w) (ew_closed w) (ew_out w))
               (Seal c (put_seq (ew_nonce w) (ew_seqNum w)) (take L P) (ew_associatedData w)))
      (nth L (take (L + 1) P) x00) (drop (L + 1) P) (length (take (L + 1) P)))
      as (w' & Heq & Hout' & Hcl'); ew_proj.
    + lia.
    + apply Forall_app. split; [exact Hf|]. constructor; [|constructor].
      rewrite length_take. lia.
    + rewrite length_app. cbn [length].
      rewrite Hseq, u32_incr_small by lia. lia.
    + intros s. rewrite put_seq_put_seq. apply Hn.
    + exact Had.
    + exact Her.
    + exact Hcl.
    + rewrite Hout, seal_inter_snoc, Hn, Had, Hseq. do 3 f_equal. lia.
    + rewrite Hcarry, concat_app. cbn [concat]. rewrite app_nil_r, <- app_assoc, take_drop.
      rewrite length_app, (length_concat_L L full Hf). unfold MaxUint32. lia.
    + exists w'. rewrite Heq. split.
      * rewrite length_take, length_drop. do 3 f_equal. lia.
      * rewrite Hcarry, concat_app in Hout'. cbn [concat] in Hout'.
        rewrite app_nil_r, <- app_assoc, take_drop in Hout'. auto.
Qed.

End EncWriter_more.

Lemma encrypt_by_writebytes_ok (c : AEAD) (L : nat) (nonce ad P : bytes) :
  (1 <= L)%nat ->
  Z.of_nat (length nonce) = NonceSize c - 4 ->
  Z.of_nat (length P) <= Z.of_nat L * MaxUint32 ->
  encrypt_by_writebytes c L nonce ad P = Ret (stream_encrypt c L nonce ad P, None).
Proof.
  intros HL Hn HP.
  destruct (EncryptWriter_ok c L nonce ad Hn) as (w & Hw & Hinv).
  destruct (@EncWriter_writebytes_ok c L _ _ HL P w [] Hinv HP) as (w1 & Hw1 & Hinv1).
  unfold encrypt_by_writebytes. rewrite Hw, Hw1.
  rewrite (EncWriter_Close_ok c L _ _ HL w1 _ Hinv1). reflexivity.
Qed.

(** Extra X1 ([EncWriter.Write], [DecWriter.Write], [Close]): a plaintext
    written to an [EncWriter] in any pieces and closed gives a ciphertext
    that a [DecWriter] turns back into the plaintext, whatever pieces the
    ciphertext is written in, for an AEAD whose [Open] undoes [Seal]. *)
Theorem EncWriter_DecWriter_roundtrip (c : AEAD) (L : nat) (nonce ad : bytes) (ps : list bytes) :
  (1 <= L)%nat ->
  (forall n p a, length (Seal c n p a) = (length p + Overhead c)%nat) ->
  (forall n p a, Open c n (Seal c n p a) a = Some p) ->
  Z.of_nat (length nonce) = NonceSize c - 4 ->
  Z.of_nat (length (concat ps)) <= Z.of_nat L * MaxUint32 ->
  exists C, encrypt_by_writes c L nonce ad ps = Ret (C, None) /\
    forall qs, concat qs = C -> decrypt_by_writes c L nonce ad qs = Ret (concat ps, None).
Proof.
  intros HL Hsl Hos Hn HP.
  destruct (encrypt_by_writes_ok c L nonce ad ps HL Hn HP) as [He _].
  eexists; split; [exact He|]. intros qs Hqs.
  destruct (DecryptWriter_good c L nonce ad (concat ps) HL Hn HP)
    as (w & Hw & Hout & _ & Hg).
  rewrite <- Hqs, <- (app_nil_r (concat qs)) in Hg.
  destruct (@DecWriter_writes_good c L _ _ HL Hsl Hos qs w 1 _ [] Hg)
    as (w1 & Xd & Xs' & Hw1 & HXs & Hout1 & Hg1).
  destruct (@dw_close_good c L _ _ HL Hsl Hos w1 _ Xs' Hg1) as (w2 & Hc & Hout2 & _).
  unfold decrypt_by_writes. rewrite Hw, Hw1, Hc, Hout2, Hout1, Hout.
  destruct (chunks_props L (concat ps) HL) as (_ & _ & Hcc & _).
  rewrite app_nil_l, <- concat_app, <- HXs, Hcc. reflexivity.
Qed.

(** Extra X2 ([EncWriter.WriteByte]): writing a plaintext byte by byte
    with [WriteByte] and closing gives the same ciphertext and error as
    one [Write] of the whole plaintext and [Close]. *)
Theorem encrypt_by_writebytes_same_as_Write (c : AEAD) (L : nat) (nonce ad P : bytes) :
  (1 <= L)%nat ->
  Z.of_nat (length nonce) = NonceSize c - 4 ->
  Z.of_nat (length P) <= Z.of_nat L * MaxUint32 ->
  encrypt_by_writebytes c L nonce ad P = encrypt_by_writes c L nonce ad [P].
Proof.
  intros HL Hn HP.
  rewrite (encrypt_by_writebytes_ok c L nonce ad P HL Hn HP).
  assert (HP' : Z.of_nat (length (concat [P])) <= Z.of_nat L * MaxUint32)
    by (cbn; rewrite app_nil_r; exact HP).
  destruct (encrypt_by_writes_ok c L nonce ad [P] HL Hn HP') as [He _].
  rewrite He. cbn. rewrite app_nil_r. reflexivity.
Qed.

(** Extra X3 ([EncWriter.WriteByte], [DecWriter.WriteByte]): the
    ciphertext produced byte by byte by [EncWriter.WriteByte] is decrypted
    back to the plaintext by [DecWriter.WriteByte] byte by byte and
    [Close]. *)
Theorem WriteByte_roundtrip (c : AEAD) (L : nat) (nonce ad P : bytes) :
  (1 <= L)%nat ->
  (forall n p a, length (Seal c n p a) = (length p + Overhead c)%nat) ->
  (forall n p a, Open c n (Seal c n p a) a = Some p) ->
  Z.of_nat (length nonce) = NonceSize c - 4 ->
  Z.of_nat (length P) <= Z.of_nat L * MaxUint32 ->
  exists C, encrypt_by_writebytes c L nonce ad P = Ret (C, None) /\
    decrypt_by_writebytes c L nonce ad C = Ret (P, None).
Proof.
  intros HL Hsl Hos Hn HP.
  exists (stream_encrypt c L nonce ad P).
  split; [exact (encrypt_by_writebytes_ok c L nonce ad P HL Hn HP)|].
  destruct (DecryptWriter_good c L nonce ad P HL Hn HP) as (w & Hw & Hout & _ & Hg).
  rewrite <- (app_nil_r (stream_encrypt c L nonce ad P)) in Hg.
  destruct (@DecWriter_writebytes_good c L _ _ HL Hsl Hos _ w 1 _ [] Hg)
    as (w1 & Xd & Xs' & Hw1 & HXs & Hout1 & Hg1).
  destruct (@dw_close_good c L _ _ HL Hsl Hos w1 _ Xs' Hg1) as (w2 & Hc & Hout2 & _).
  unfold decrypt_by_writebytes. rewrite Hw, Hw1, Hc, Hout2, Hout1, Hout.
  destruct (chunks_props L P HL) as (_ & _ & Hcc & _).
  rewrite app_nil_l, <- concat_app, <- HXs, Hcc. reflexivity.
Qed.

(** Extra X4 ([EncWriter.ReadFrom]): on a fresh [EncWriter],
    [ReadFrom] reads the whole source, reports its length and no error,
    closes the writer, and emits the same ciphertext as one [Write] of the
    source followed by [Close] (for an AEAD with a tag). *)
Theorem EncWriter_ReadFrom_same_as_Write (c : AEAD) (L : nat) (nonce ad P : bytes) :
  (1 <= L)%nat -> (1 <= Overhead c)%nat ->
  Z.of_nat (length nonce) = NonceSize c - 4 ->
  Z.of_nat (length P) <= Z.of_nat L * MaxUint32 ->
  exists w w', EncryptWriter c nonce ad = Ret w /\
    EncWriter_ReadFrom c L w P = Ret (w', [], length P, None) /\ ew_closed w' = true /\
    encrypt_by_writes c L nonce ad [P] = Ret (ew_out w', None).
Proof.
  intros HL Htau Hn HP.
  destruct (EncryptWriter_ok c L nonce ad Hn)
    as (w & Hw & full & Hf & Hseq & Hnn & Had & Her & Hcl & HQ & Hbl & Hbe & Hout).
  assert (Hb : ew_buffer w = []) by (symmetry in HQ; apply app_eq_nil in HQ; tauto).
  specialize (Hbe Hb). subst full.
  destruct (@EncWriter_ReadFrom_ok c L _ _ HL w [] P Htau Hf Hseq Hnn Had Her Hcl Hout
              (or_intror eq_refl) HP) as (w' & Hr & Hout' & Hcl').
  exists w, w'. split; [exact Hw|]. split; [exact Hr|]. split; [exact Hcl'|].
  assert (HP' : Z.of_nat (length (concat [P])) <= Z.of_nat L * MaxUint32)
    by (cbn; rewrite app_nil_r; exact HP).
  destruct (encrypt_by_writes_ok c L nonce ad [P] HL Hn HP') as [He _].
  rewrite He, Hout'. cbn. rewrite app_nil_r. reflexivity.
Qed.

(** Extra X5 ([DecWriter.ReadFrom]): on a fresh [DecWriter], [ReadFrom]
    of a stream produced by an [EncWriter] reads it all, reports its
    length and no error, closes the writer and forwards exactly the
    plaintext. *)
Theorem DecWriter_ReadFrom_roundtrip (c : AEAD) (L : nat) (nonce ad : bytes) (ps : list bytes) :
  (1 <= L)%nat ->
  (forall n p a, length (Seal c n p a) = (length p + Overhead c)%nat) ->
  (forall n p a, Open c n (Seal c n p a) a = Some p) ->
  Z.of_nat (length nonce) = NonceSize c - 4 ->
  Z.of_nat (length (concat ps)) <= Z.of_nat L * MaxUint32 ->
  exists C w w', encrypt_by_writes c L nonce ad ps = Ret (C, None) /\
    DecryptWriter c nonce ad = Ret w /\
    DecWriter_ReadFrom c L w C = Ret (w', [], length C, None) /\
    dw_out w' = concat ps /\ dw_closed w' = true.
Proof.
  intros HL Hsl Hos Hn HP.
  destruct (encrypt_by_writes_ok c L nonce ad ps HL Hn HP) as [He _].
  destruct (DecryptWriter_good c L nonce ad (concat ps) HL Hn HP)
    as (w & Hw & Hout & _ & Hb & Hok & Hne & _ & Hs2 & _).
  destruct (@DecWriter_ReadFrom_good c L _ _ HL Hsl Hos w 1 _ _ Hb Hok Hne
              ltac:(lia) Hs2 eq_refl) as (w' & Hr & Hout' & Hcl').
  exists (stream_encrypt c L nonce ad (concat ps)), w, w'.
  split; [exact He|]. split; [exact Hw|]. split; [exact Hr|]. split; [|exact Hcl'].
  rewrite Hout', Hout. destruct (chunks_props L (concat ps) HL) as (_ & _ & Hcc & _).
  exact Hcc.
Qed.

(** Extra X6 ([EncWriter.ReadFrom]): bytes buffered by an earlier
    [Write] (at most one fragment) are discarded by [ReadFrom], which
    restarts with a fresh buffer: the output is the encryption of the
    [ReadFrom] source alone. *)
Theorem EncWriter_ReadFrom_drops_buffered (c : AEAD) (L : nat) (nonce ad q P : bytes) :
  (1 <= L)%nat -> (1 <= Overhead c)%nat ->
  Z.of_nat (length nonce) = NonceSize c - 4 ->
  (length q <= L)%nat ->
  Z.of_nat (length P) <= Z.of_nat L * MaxUint32 ->
  exists w w1 w2, EncryptWriter c nonce ad = Ret w /\
    EncWriter_Write c L w q = Ret (w1, length q, None) /\
    EncWriter_ReadFrom c L w1 P = Ret (w2, [], length P, None) /\
    ew_out w2 = stream_encrypt c L nonce ad P.
Proof.
  intros HL Htau Hn Hq HP.
  destruct (EncryptWriter_ok c L nonce ad Hn) as (w & Hw & Hinv).
  destruct (EncWriter_Write_ok c L _ _ HL w [] q Hinv) as (w1 & Hw1 & Hinv1).
  { cbn. unfold MaxUint32. nia. }
  destruct Hinv1 as (full & Hf & Hseq & Hnn & Had & Her & Hcl & HQ & Hbl & Hbe & Hout).
  assert (Hfull : full = []).
  { destruct full as [|x full']; [reflexivity|].
    destruct (ew_buffer w1) as [|y buf] eqn:Eb; [apply Hbe; reflexivity|].
    exfalso. apply (f_equal length) in HQ. cbn [app] in HQ.
    rewrite length_app, (length_concat_L L (x :: full') Hf) in HQ. cbn [length] in HQ. lia. }
  subst full.
  destruct (@EncWriter_ReadFrom_ok c L _ _ HL w1 [] P Htau Hf Hseq Hnn Had Her Hcl Hout
              (or_intror eq_refl) HP) as (w2 & Hr & Hout2 & _).
  exists w, w1, w2. auto.
Qed.

(** Extra X7 ([DecWriter.ReadFrom]): ciphertext bytes buffered by an
    earlier [Write] (at most one fragment) are discarded by [ReadFrom]:
    decryption succeeds on the [ReadFrom] source alone and forwards its
    plaintext. *)
Theorem DecWriter_ReadFrom_drops_buffered (c : AEAD) (L : nat) (nonce ad q : bytes)
    (ps : list bytes) :
  (1 <= L)%nat ->
  (forall n p a, length (Seal c n p a) = (length p + Overhead c)%nat) ->
  (forall n p a, Open c n (Seal c n p a) a = Some p) ->
  Z.of_nat (length nonce) = NonceSize c - 4 ->
  (length q <= L + Overhead c)%nat ->
  Z.of_nat (length (concat ps)) <= Z.of_nat L * MaxUint32 ->
  exists C w w1 w2, encrypt_by_writes c L nonce ad ps = Ret (C, None) /\
    DecryptWriter c nonce ad = Ret w /\
    DecWriter_Write c L w q = Ret (w1, length q, None) /\
    DecWriter_ReadFrom c L w1 C = Ret (w2, [], length C, None) /\
    dw_out w2 = concat ps.
Proof.
  intros HL Hsl Hos Hn Hq HP.
  destruct (encrypt_by_writes_ok c L nonce ad ps HL Hn HP) as [He _].
  destruct (DecryptWriter_good c L nonce ad (concat ps) HL Hn HP)
    as (w & Hw & Hout & Hbuf & Hb & Hok & Hne & _ & Hs2 & _).
  pose proof Hb as (Herr & _ & _ & _ & Hcl).
  assert (Hw1 : DecWriter_Write c L w q = Ret (dw_set_buffer w q, length q, None)).
  { unfold DecWriter_Write. rewrite Hcl, Herr, Hbuf. cbn [length Nat.ltb Nat.leb].
    cbn [dw_write_loop].
    destruct (Nat.ltb_spec (L + Overhead c) (length q)); [lia | reflexivity]. }
  destruct (@DecWriter_ReadFrom_good c L _ _ HL Hsl Hos (dw_set_buffer w q) 1 _ _
              (dw_base_set_buffer _ _ w 1 q Hb) Hok Hne ltac:(lia) Hs2 eq_refl)
    as (w2 & Hr & Hout2 & _).
  exists (stream_encrypt c L nonce ad (concat ps)), w, (dw_set_buffer w q), w2.
  split; [exact He|]. split; [exact Hw|]. split; [exact Hw1|]. split; [exact Hr|].
  rewrite Hout2. cbn [dw_set_buffer dw_out]. rewrite Hout.
  destruct (chunks_props L (concat ps) HL) as (_ & _ & Hcc & _). exact Hcc.
Qed.

Lemma length_seal_frags_seq (c : AEAD) (n0 T : bytes) (s s' : Z) (Xs : list bytes) :
  (forall n p a, length (Seal c n p a) = (length p + Overhead c)%nat) ->
  length (seal_frags c n0 T s Xs) = length (seal_frags c n0 T s' Xs).
Proof.
  intros Hsl. revert s s'. induction Xs as [|x [|y Xs] IH]; intros s s'; [reflexivity| |].
  - cbn. rewrite !Hsl. reflexivity.
  - change (seal_frags c n0 T s (x :: y :: Xs))
      with (Seal c (put_seq n0 s) x (x00 :: T) ++ seal_frags c n0 T (s + 1) (y :: Xs)).
    change (seal_frags c n0 T s' (x :: y :: Xs))
      with (Seal c (put_seq n0 s') x (x00 :: T) ++ seal_frags c n0 T (s' + 1) (y :: Xs)).
    rewrite !length_app, !Hsl, (IH (s + 1) (s' + 1)). reflexivity.
Qed.

(** the fast path of [readFragment] leaves [offset] alone *)
Lemma DecReader_readFragment_offset (c : AEAD) (L : nat) (r : DecReader) (plen fro : nat) :
  (1 + L <= plen)%nat ->
  dr_offset (fst (fst (DecReader_readFragment c L r plen fro))) = dr_offset r.
Proof.
  intros Hp. unfold DecReader_readFragment, readFrom.
  destruct (dr_seqNum r =? 0); [reflexivity|]. cbv zeta iota.
  destruct (fro =? 0)%nat eqn:Ef; [apply Nat.eqb_eq in Ef | apply Nat.eqb_neq in Ef];
  (destruct (Nat.ltb_spec (length (dr_src r)) (1 + (L + Overhead c) - fro)) as [Hl|Hl];
   [ match goal with |- context [(length ?b <? Overhead c)%nat] =>
       destruct (Nat.ltb_spec (length b) (Overhead c)) end; [reflexivity|];
     unfold dr_open; destruct (Open _ _ _ _); cbv beta iota zeta; [|reflexivity];
     match goal with |- context [(plen <? ?m)%nat] => destruct (Nat.ltb_spec plen m) as [Hq|Hq] end;
     [ exfalso; cbn [length] in Hq; rewrite length_take in Hq; lia | reflexivity ]
   | unfold dr_open; destruct (Open _ _ _ _); cbv beta iota zeta; [|reflexivity];
     destruct (Nat.ltb_spec plen L); [lia | reflexivity] ]).
Qed.

Section DecReader_more.

Variable c : AEAD.
Variable L : nat.
Variables n0 T : bytes.
Hypothesis HL : (1 <= L)%nat.
Hypothesis Hseal_len : forall n p a, length (Seal c n p a) = (length p + Overhead c)%nat.
Hypothesis Hopen_seal : forall n p a, Open c n (Seal c n p a) a = Some p.

Local Abbreviation DR_good := (DR_good c L n0 T).

(** [readFragment(nil, fro)], as [ReadByte] calls it *)
Lemma readFragment_zero (r : DecReader) (fro : nat) (s : Z) (x : bytes) (Xs : list bytes) :
  dr_base n0 T r s -> dr_offset r = 0%nat -> chunks_ok true L (x :: Xs) ->
  1 <= s -> s + Z.of_nat (length (x :: Xs)) <= 2 ^ 32 ->
  dr_view r fro (seal_frags c n0 T s (x :: Xs)) ->
  exists r1 e,
    DecReader_readFragment c L r 0 fro = (r1, [], e) /\
    ((e = Some EOF /\ x = [] /\ Xs = []) \/
     (e = None /\ dr_plaintextBuffer r1 = x /\ x <> [] /\
      DR_good (dr_set_offset r1 1) Xs (drop 1 x))).
Proof.
  intros Hb Hoff Hok Hs1 Hs2 Hv.
  destruct Xs as [|y Xs].
  - cbn in Hv, Hok. destruct Hok as [Hx _].
    destruct (readFragment_final c L n0 T HL Hseal_len Hopen_seal r 0 fro s x Hb Hoff Hs1 Hx Hv)
      as (r3 & Hrf & Herr & Hcl & Hfr & Hn & Hpb).
    rewrite Hrf. revert Hpb. destruct x as [|b x'].
    + intros _. exists r3, (Some EOF). split; [reflexivity|]. left; auto.
    + cbn [length Nat.ltb Nat.leb take]. intros [Ho Hpb]. exists r3, None.
      split; [reflexivity|]. right. split; [reflexivity|]. split; [exact Hpb|].
      split; [discriminate|].
      unfold DR_good. cbn [dr_set_offset dr_err dr_nonce dr_firstRead dr_offset
        dr_plaintextBuffer dr_closed dr_seqNum].
      rewrite Hfr, Hpb. split; [exact Herr|]. split; [exact Hn|].
      split; [exact I|]. split; [congruence|]. split; [reflexivity|left; auto].
  - destruct Hok as [Hx Hok'].
    rewrite seal_frags_cons in Hv by discriminate.
    pose proof (chunks_ok_false_hd L HL y Xs Hok') as Hy.
    assert (HS' : seal_frags c n0 T (s + 1) (y :: Xs) <> []).
    { intros E. pose proof (length_seal_frags_cons c L n0 T HL Hseal_len (s + 1) y Xs) as Hl.
      rewrite E in Hl. cbn [length] in Hl. lia. }
    cbn [length] in Hs2.
    assert (Hs4 : s + 1 < 2 ^ 32) by lia.
    destruct (readFragment_inter c L n0 T HL Hseal_len Hopen_seal r 0 fro s x _ Hb Hoff Hs1 Hs4 Hx HS' Hv)
      as (r3 & Hrf & Hb3 & Hcs & Hpb).
    rewrite Hrf. destruct (Nat.ltb_spec 0 L) as [_|]; [|lia].
    destruct Hpb as [Ho Hpb].
    exists r3, None. split; [reflexivity|]. right. split; [reflexivity|].
    split; [exact Hpb|]. split; [intros ->; cbn in Hx; lia|].
    destruct Hb3 as (Herr & Hs3 & Hn & Had & Hcl & Hfr).
    unfold DR_good. cbn [dr_set_offset dr_err dr_nonce dr_firstRead dr_offset
      dr_plaintextBuffer dr_closed dr_seqNum dr_associatedData dr_carry dr_src].
    rewrite Hfr, Hs3, Hpb. split; [exact Herr|]. split; [exact Hn|].
    split; [apply (chunks_ok_weaken L false); exact Hok'|].
    split; [intros _; cbn [length]; lia|].
    split; [reflexivity|]. right. split; [discriminate|]. auto.
Qed.

Lemma DecReader_ReadByte_good (r : DecReader) (Xs : list bytes) (pend : bytes) :
  DR_good r Xs pend ->
  exists r' res, DecReader_ReadByte c L r = Ret (r', res) /\
    ((pend ++ concat Xs = [] /\ res = inr EOF) \/
     (exists b R, pend ++ concat Xs = b :: R /\ res = inl b /\
        exists Xs' pend', DR_good r' Xs' pend' /\ pend' ++ concat Xs' = R)).
Proof.
  intros Hg. pose proof Hg as (Herr & Hn & Hok & Hsq & Hrest).
  assert (Hk : forall r0 fro x Xs', Xs = x :: Xs' -> pend = [] ->
     dr_base n0 T r0 (dr_seqNum r) -> dr_offset r0 = 0%nat ->
     dr_view r0 fro (seal_frags c n0 T (dr_seqNum r) Xs) ->
     exists r' res,
       match DecReader_readFragment c L r0 0 fro with
       | (r1, _, Some e) => Ret (r1, inr e)
       | (r1, _, None) =>
           match dr_plaintextBuffer r1 with
           | [] => Panic
           | b :: _ => Ret (dr_set_offset r1 1, inl b)
           end
       end = Ret (r', res) /\
       ((pend ++ concat Xs = [] /\ res = inr EOF) \/
        (exists b R, pend ++ concat Xs = b :: R /\ res = inl b /\
           exists Xs' pend', DR_good r' Xs' pend' /\ pend' ++ concat Xs' = R))).
  { intros r0 fro x Xs' -> -> Hb0 Hoff0 Hv0.
    destruct (Hsq ltac:(discriminate)) as [Hs1 Hs2].
    destruct (readFragment_zero r0 fro (dr_seqNum r) x Xs' Hb0 Hoff0 Hok Hs1 Hs2 Hv0)
      as (r1 & e & Hrf & [(-> & -> & ->) | (-> & Hpb & Hx & Hg1)]); rewrite Hrf.
    - exists r1, (inr EOF). split; [reflexivity|]. left. auto.
    - rewrite Hpb. destruct x as [|b x']; [congruence|].
      exists (dr_set_offset r1 1), (inl b). split; [reflexivity|]. right.
      exists b, (x' ++ concat Xs'). split; [reflexivity|]. split; [reflexivity|].
      exists Xs', x'. split; [exact Hg1|reflexivity]. }
  unfold DecReader_ReadByte. rewrite Herr.
  destruct (dr_firstRead r) eqn:Hfr.
  - destruct Hrest as (HXs & Hp & Hoff & Hcl & Had & Hsrc).
    destruct Xs as [|x Xs']; [congruence|].
    apply (Hk (dr_clear_firstRead r) 0%nat x Xs'); auto.
    + unfold dr_base. cbn. auto 7.
    + left. split; [reflexivity|]. exact Hsrc.
  - destruct Hrest as [Hpend Hst].
    assert (Hend : pend = [] ->
      exists r' res,
        (if dr_closed r then Ret (r, inr EOF)
         else match DecReader_readFragment c L (dr_set_offset r 0) 0 1 with
              | (r1, _, Some e) => Ret (r1, inr e)
              | (r1, _, None) =>
                  match dr_plaintextBuffer r1 with
                  | [] => Panic
                  | b :: _ => Ret (dr_set_offset r1 1, inl b)
                  end
              end) = Ret (r', res) /\
        ((pend ++ concat Xs = [] /\ res = inr EOF) \/
         (exists b R, pend ++ concat Xs = b :: R /\ res = inl b /\
            exists Xs' pend', DR_good r' Xs' pend' /\ pend' ++ concat Xs' = R))).
    { intros Hp0. destruct Hst as [[-> Hcl] | (HXs & Hcl & Had & Hcs)].
      - rewrite Hcl. exists r, (inr EOF). split; [reflexivity|]. left.
        rewrite Hp0. auto.
      - rewrite Hcl. destruct Xs as [|x Xs']; [congruence|].
        apply (Hk (dr_set_offset r 0) 1%nat x Xs'); auto.
        + unfold dr_base. cbn. auto 7.
        + right. split; [reflexivity|]. exact Hcs. }
    destruct (Nat.ltb_spec 0 (dr_offset r)) as [Ho|Ho]; cbn [andb].
    + destruct (Nat.ltb_spec (dr_offset r) (length (dr_plaintextBuffer r))) as [Ho2|Ho2].
      * exists (dr_set_offset r (S (dr_offset r))),
          (inl (nth (dr_offset r) (dr_plaintextBuffer r) x00)).
        split; [reflexivity|]. right.
        exists (nth (dr_offset r) (dr_plaintextBuffer r) x00),
          (drop (S (dr_offset r)) (dr_plaintextBuffer r) ++ concat Xs).
        rewrite <- Hpend. split.
        { rewrite <- (nth_cons_drop _ _ Ho2). reflexivity. }
        split; [reflexivity|].
        exists Xs, (drop (S (dr_offset r)) (dr_plaintextBuffer r)). split; [|reflexivity].
        apply (DR_good_set_offset c L n0 T r Xs pend); auto.
      * apply Hend. rewrite <- Hpend. apply drop_ge. lia.
    + apply Hend. rewrite <- Hpend. reflexivity.
Qed.

Lemma copyBytes_DecReader (fuel : nat) :
  forall r Xs pend out,
  DR_good r Xs pend -> (length (pend ++ concat Xs) < fuel)%nat ->
  exists r', copyBytes (DecReader_ReadByte c L) fuel r out = Ret (r', out ++ pend ++ concat Xs, None).
Proof.
  induction fuel as [|f IH]; intros r Xs pend out Hg Hf; [lia|].
  cbn [copyBytes].
  destruct (DecReader_ReadByte_good r Xs pend Hg)
    as (r' & res & Hrb & [[HE ->] | (b & R & HE & -> & Xs' & pend' & Hg' & HR)]);
    rewrite Hrb.
  - exists r'. rewrite HE, app_nil_r. reflexivity.
  - rewrite HE in Hf |- *. cbn [length] in Hf.
    destruct (IH r' Xs' pend' (out ++ [b]) Hg') as (r'' & Hc).
    { rewrite HR. lia. }
    exists r''. rewrite Hc, HR, <- app_assoc. reflexivity.
Qed.

(** [Read] on a reader with nothing left to deliver reports [io.EOF] *)
Lemma DecReader_Read_empty (r : DecReader) (Xs : list bytes) (pend : bytes) (plen : nat) :
  DR_good r Xs pend -> pend ++ concat Xs = [] -> (1 <= plen)%nat ->
  exists r', DecReader_Read c L r plen = (r', [], Some EOF).
Proof.
  intros Hg HE Hp. pose proof Hg as (Herr & Hn & Hok & Hsq & Hrest).
  apply app_eq_nil in HE as [-> HE].
  assert (HX : Xs = [] \/ Xs = [[]]).
  { destruct Xs as [|x [|y Xs']]; [left; reflexivity| |].
    - cbn in HE. rewrite app_nil_r in HE. subst. right; reflexivity.
    - exfalso. pose proof (chunks_ok_cons_L L true x (y :: Xs') Hok ltac:(discriminate)).
      cbn in HE. apply app_eq_nil in HE as [-> _]. cbn in *. lia. }
  unfold DecReader_Read. rewrite Herr.
  destruct (dr_firstRead r) eqn:Hfr.
  - destruct Hrest as (HXs & _ & Hoff & Hcl & Had & Hsrc).
    destruct HX as [-> | ->]; [congruence|].
    destruct (Hsq HXs) as [Hs1 _].
    assert (Hb : dr_base n0 T (dr_clear_firstRead r) (dr_seqNum r))
      by (unfold dr_base; cbn; auto 7).
    destruct (readFragment_final c L n0 T HL Hseal_len Hopen_seal (dr_clear_firstRead r) plen 0
                (dr_seqNum r) [] Hb Hoff Hs1 ltac:(cbn; lia) (or_introl (conj eq_refl Hsrc)))
      as (r3 & Hrf & _).
    rewrite Hrf. cbn [length]. destruct (Nat.ltb_spec plen 0); [lia|].
    exists r3. reflexivity.
  - destruct Hrest as [Hpend Hst]. cbn zeta iota. cbn [length]. rewrite Nat.sub_0_r.
    assert (Hend : forall r2, dr_base n0 T r2 (dr_seqNum r) \/ dr_closed r2 = true ->
      dr_closed r2 = dr_closed r -> dr_offset r2 = 0%nat ->
      dr_carry r2 :: dr_src r2 = dr_carry r :: dr_src r ->
      exists r',
        (if dr_closed r2 then (r2, [], Some EOF)
         else let '(r3, d3, e3) := DecReader_readFragment c L r2 plen 1 in (r3, d3, e3))
        = (r', [], Some EOF)).
    { intros r2 Hb2 Hcl2 Hoff2 Hcs2.
      destruct (dr_closed r2) eqn:Hc2; [exists r2; reflexivity|].
      destruct Hb2 as [Hb2|]; [|congruence].
      destruct Hst as [[_ Hcl] | (HXs & Hcl & Had & Hcs)]; [congruence|].
      destruct HX as [-> | ->]; [congruence|].
      destruct (Hsq HXs) as [Hs1 _].
      rewrite <- Hcs2 in Hcs.
      destruct (readFragment_final c L n0 T HL Hseal_len Hopen_seal r2 plen 1
                  (dr_seqNum r) [] Hb2 Hoff2 Hs1 ltac:(cbn; lia) (or_intror (conj eq_refl Hcs)))
        as (r3 & Hrf & _).
      rewrite Hrf. cbn [length]. destruct (Nat.ltb_spec plen 0); [lia|].
      exists r3. reflexivity. }
    assert (Hbase : forall r2, dr_closed r2 = dr_closed r -> dr_err r2 = None ->
      dr_seqNum r2 = dr_seqNum r -> dr_nonce r2 = dr_nonce r ->
      dr_associatedData r2 = dr_associatedData r -> dr_firstRead r2 = false ->
      dr_base n0 T r2 (dr_seqNum r) \/ dr_closed r2 = true).
    { intros r2 Hc Hr2e Hs Hn2 Ha Hf2. destruct (dr_closed r2) eqn:E; [right; reflexivity|left].
      destruct Hst as [[_ Hcl] | (_ & _ & Had & _)]; [congruence|].
      unfold dr_base. rewrite Hn2, Ha. auto 7. }
    destruct (Nat.ltb_spec 0 (dr_offset r)) as [Ho|Ho].
    + rewrite Hpend. cbn [length]. rewrite Nat.min_0_r.
      destruct (Nat.eqb_spec 0 plen); [lia|]. cbn [take app]. rewrite Nat.sub_0_r.
      apply (Hend (dr_set_offset r 0)); [apply Hbase| ..]; cbn; auto.
    + apply Hend; [apply Hbase| ..]; auto; lia.
Qed.

(** a consumer reading with buffers of at least one byte, the first one
    not of exactly [L] bytes, receives the whole plaintext and [io.EOF] *)
Lemma DecReader_drive_good (sizes : list nat) :
  forall r Xs pend,
  DR_good r Xs pend -> Forall (fun k => (1 <= k)%nat) sizes ->
  (dr_firstRead r = true -> forall k ks, sizes = k :: ks -> k <> L) ->
  (length (pend ++ concat Xs) < length sizes)%nat ->
  DecReader_drive c L r sizes = (pend ++ concat Xs, Some EOF).
Proof.
  induction sizes as [|k ks IH]; intros r Xs pend Hg Hs Hfirst Hlen; [cbn in Hlen; lia|].
  inversion Hs as [|? ? Hk Hks]; subst.
  cbn [DecReader_drive].
  destruct (pend ++ concat Xs) as [|b0 R0] eqn:HE.
  - destruct (DecReader_Read_empty r Xs pend k Hg HE Hk) as (r' & Hrd).
    rewrite Hrd. reflexivity.
  - destruct (DecReader_Read_good c L n0 T HL Hseal_len Hopen_seal r Xs pend k Hg Hk)
      as (r' & d & e & R' & Hrd & HR & Hd & Hd0 & He & Hfr' & Hst).
    rewrite Hrd. rewrite HE in HR. try rewrite HE in Hlen.
    destruct He as [-> | (-> & ->)].
    + destruct (Hst ltac:(right; intros [H1 H2]; exact (Hfirst H1 k ks eq_refl H2)))
        as (Xs' & pend' & Hg' & HR').
      assert (Hdne : d <> []) by (intros ->; rewrite (Hd0 eq_refl) in HR; cbn in HR; discriminate).
      rewrite (IH r' Xs' pend' Hg' Hks ltac:(congruence)).
      * rewrite HR', HR. reflexivity.
      * rewrite HR'. apply (f_equal length) in HR. rewrite length_app in HR.
        cbn [length] in HR, Hlen. destruct d; [congruence|]. cbn [length] in HR. lia.
    + rewrite HR, app_nil_r. reflexivity.
Qed.

(** the [for] loop of [WriteTo] forwards every remaining fragment *)
Lemma dr_writeto_loop_good (fuel : nat) :
  forall r Xs out,
  DR_good r Xs [] -> dr_firstRead r = false -> dr_offset r = 0%nat -> dr_closed r = false ->
  (length (dr_src r) < fuel)%nat ->
  exists r', dr_writeto_loop c L fuel r out = (r', out ++ concat Xs, None).
Proof.
  induction fuel as [|f IH]; intros r Xs out Hg Hfr Hoff Hcl Hf; [lia|].
  pose proof Hg as (_ & _ & Hok & Hsq & Hrest). rewrite Hfr in Hrest.
  destruct Hrest as [_ [[_ Hc] | (HXs & _ & _ & Hcs)]]; [congruence|].
  destruct (readFragment_carry c L n0 T HL Hseal_len Hopen_seal r Xs (1 + L + Overhead c)
              Hg Hfr Hoff Hcl)
    as (x & Xs' & r3 & e3 & -> & Hrf & He & Hfr3 & Hg3).
  specialize (Hg3 ltac:(lia)).
  assert (Hx : (length x <= L)%nat).
  { destruct Xs' as [|y Xs'']; [cbn in Hok; tauto|].
    rewrite (chunks_ok_cons_L L true x (y :: Xs'') Hok ltac:(discriminate)). lia. }
  rewrite take_ge in Hrf by lia. rewrite drop_ge in Hg3 by lia.
  pose proof (DecReader_readFragment_offset c L r (1 + L + Overhead c) 1 ltac:(lia)) as Hoff3.
  rewrite Hrf in Hoff3. cbn [fst] in Hoff3.
  pose proof Hg3 as (_ & _ & _ & _ & Hrest3). rewrite Hfr3 in Hrest3.
  destruct Hrest3 as [_ Hst3].
  cbn [dr_writeto_loop]. rewrite Hrf.
  destruct He as [[-> Hfin] | (-> & -> & _)].
  - destruct Hst3 as [[-> Hc3] | (HXs' & Hc3 & _ & Hcs3)].
    + specialize (Hfin eq_refl). lia.
    + rewrite Hc3.
      destruct (IH r3 Xs' (out ++ x) Hg3 Hfr3 ltac:(congruence) Hc3) as (r' & Hl).
      { destruct (Hsq HXs) as [_ _].
        rewrite seal_frags_cons in Hcs by exact HXs'.
        apply (f_equal length) in Hcs, Hcs3. rewrite length_app, Hseal_len in Hcs.
        rewrite (length_seal_frags_seq c n0 T (dr_seqNum r + 1) (dr_seqNum r3) Xs' Hseal_len) in Hcs.
        cbn [length] in Hcs, Hcs3.
        destruct Xs' as [|y Xs'']; [congruence|].
        rewrite (chunks_ok_cons_L L true x (y :: Xs'') Hok ltac:(discriminate)) in Hcs. lia. }
      exists r'. rewrite Hl. cbn [concat]. rewrite app_assoc. reflexivity.
  - destruct Hst3 as [[_ Hc3] | (HXs' & _)]; [|congruence].
    rewrite Hc3. exists r3. cbn [concat]. rewrite app_nil_r. reflexivity.
Qed.

Lemma DecReader_WriteTo_good (r : DecReader) (Xs : list bytes) (pend : bytes) :
  DR_good r Xs pend ->
  exists r', DecReader_WriteTo c L r =
    (r', pend ++ concat Xs,
     if dr_firstRead r then None else match Xs with [] => Some EOF | _ :: _ => None end).
Proof.
  intros Hg. pose proof Hg as (Herr & Hn & Hok & Hsq & Hrest).
  unfold DecReader_WriteTo. rewrite Herr.
  assert (Hloop : forall r2 out, DR_good r2 Xs [] -> dr_firstRead r2 = false ->
            dr_offset r2 = 0%nat -> dr_closed r2 = false ->
            exists r', dr_writeto_loop c L (S (length (dr_src r2))) r2 out = (r', out ++ concat Xs, None)).
  { intros r2 out Hg2 Hf2 Ho2 Hc2. apply dr_writeto_loop_good; auto. }
  destruct (dr_firstRead r) eqn:Hfr.
  - destruct Hrest as (HXs & -> & Hoff & Hcl & Had & Hsrc).
    destruct Xs as [|x Xs']; [congruence|].
    destruct (Hsq HXs) as [Hs1 Hs2].
    assert (Hb : dr_base n0 T (dr_clear_firstRead r) (dr_seqNum r))
      by (unfold dr_base; cbn; auto 7).
    destruct (readFragment_good c L n0 T HL Hseal_len Hopen_seal (dr_clear_firstRead r)
                (1 + L + Overhead c) 0 (dr_seqNum r) x Xs' Hb Hoff Hok Hs1 Hs2
                (or_introl (conj eq_refl Hsrc)))
      as (r1 & e1 & Hrf & He & _ & Hfr1 & Hg1).
    specialize (Hg1 ltac:(lia)).
    assert (Hx : (length x <= L)%nat).
    { destruct Xs' as [|y Xs'']; [cbn in Hok; tauto|].
      rewrite (chunks_ok_cons_L L true x (y :: Xs'') Hok ltac:(discriminate)). lia. }
    rewrite take_ge in Hrf by lia. rewrite drop_ge in Hg1 by lia.
    pose proof (DecReader_readFragment_offset c L (dr_clear_firstRead r) (1 + L + Overhead c) 0
                  ltac:(lia)) as Hoff1.
    rewrite Hrf in Hoff1. cbn [fst dr_clear_firstRead dr_offset] in Hoff1.
    pose proof Hg1 as (_ & _ & _ & _ & Hrest1). rewrite Hfr1 in Hrest1.
    destruct Hrest1 as [_ Hst1].
    rewrite Hrf.
    destruct He as [[-> Hfin] | (-> & -> & _)].
    + destruct Hst1 as [[-> Hc1] | (HXs' & Hc1 & _)].
      * specialize (Hfin eq_refl). lia.
      * rewrite Hc1, Hoff1, Hoff. cbn zeta iota.
        cbv [Nat.ltb Nat.leb]. cbn zeta iota. rewrite Hc1.
        destruct (dr_writeto_loop_good (S (length (dr_src r1))) r1 Xs' x Hg1 Hfr1
                    ltac:(congruence) Hc1 ltac:(lia)) as (r' & Hl).
        exists r'. rewrite Hl. reflexivity.
    + destruct Hst1 as [[_ Hc1] | (HXs' & _)]; [|congruence].
      rewrite Hc1. exists r1. cbn [concat]. rewrite !app_nil_r. reflexivity.
  - destruct Hrest as [Hpend Hst]. cbn zeta iota.
    assert (Hg0 : DR_good (dr_set_offset r 0) Xs []).
    { apply (DR_good_set_offset c L n0 T r Xs pend); auto. }
    destruct (Nat.ltb_spec 0 (dr_offset r)) as [Ho|Ho].
    + rewrite Hpend. cbn [app].
      change (dr_closed (dr_set_offset r 0)) with (dr_closed r).
      destruct Hst as [[-> Hcl] | (HXs & Hcl & _)].
      * rewrite Hcl. exists (dr_set_offset r 0). rewrite app_nil_r. reflexivity.
      * rewrite Hcl.
        destruct (dr_writeto_loop_good (S (length (dr_src (dr_set_offset r 0)))) (dr_set_offset r 0)
                    Xs pend Hg0 Hfr eq_refl Hcl ltac:(lia)) as (r' & Hl).
        exists r'. rewrite Hl. destruct Xs; [congruence|reflexivity].
    + assert (Hp0 : pend = []) by (rewrite <- Hpend; reflexivity). subst pend.
      assert (Hoff0 : dr_offset r = 0%nat) by lia.
      assert (Hg' : DR_good r Xs []) by exact Hg.
      destruct Hst as [[-> Hcl] | (HXs & Hcl & _)].
      * rewrite Hcl. exists r. reflexivity.
      * rewrite Hcl.
        destruct (dr_writeto_loop_good (S (length (dr_src r))) r Xs [] Hg' Hfr Hoff0 Hcl
                    ltac:(lia)) as (r' & Hl).
        exists r'. rewrite Hl. destruct Xs; [congruence|reflexivity].
Qed.

End DecReader_more.

Lemma DecryptReader_good (c : AEAD) (L : nat) (nonce ad P : bytes) :
  (1 <= L)%nat ->
  Z.of_nat (length nonce) = NonceSize c - 4 ->
  Z.of_nat (length P) <= Z.of_nat L * MaxUint32 ->
  exists r, DecryptReader c (stream_encrypt c L nonce ad P) nonce ad = Ret r /\
    dr_firstRead r = true /\ dr_err r = None /\
    DR_good c L (nonce0 nonce) (ad_tag c nonce ad) r (chunks L P) [].
Proof.
  intros HL Hn HP.
  destruct (chunks_props L P HL) as (Hok & Hne & _ & Hlen). specialize (Hlen HP).
  unfold MaxUint32 in Hlen.
  unfold DecryptReader. rewrite Hn, Z.eqb_refl. cbn [negb].
  eexists. split; [reflexivity|]. split; [reflexivity|]. split; [reflexivity|].
  unfold DR_good. cbn [dr_err dr_nonce dr_seqNum dr_firstRead dr_offset dr_closed
                       dr_associatedData dr_src].
  split; [reflexivity|]. split; [reflexivity|]. split; [exact Hok|].
  split; [intros _; lia|].
  repeat split; auto.
Qed.

Lemma chunks_single (L : nat) (P : bytes) :
  (length P <= L)%nat -> chunks L P = [P].
Proof.
  intros H. unfold chunks. destruct (length P) eqn:E; [reflexivity|].
  cbn [chunks_aux]. rewrite E. destruct (Nat.ltb_spec L (S n)); [lia|reflexivity].
Qed.

(** Extra X8 ([DecReader.Read]): reading a valid stream with buffers of
    at least one byte, the first not of length [L], until an error, yields
    exactly the plaintext and ends with [io.EOF] (given more reads than
    plaintext bytes). *)
Theorem DecReader_Read_roundtrip (c : AEAD) (L : nat) (nonce ad P : bytes) (sizes : list nat) :
  (1 <= L)%nat ->
  (forall n p a, length (Seal c n p a) = (length p + Overhead c)%nat) ->
  (forall n p a, Open c n (Seal c n p a) a = Some p) ->
  Z.of_nat (length nonce) = NonceSize c - 4 ->
  Z.of_nat (length P) <= Z.of_nat L * MaxUint32 ->
  Forall (fun k => (1 <= k)%nat) sizes ->
  (forall k ks, sizes = k :: ks -> k <> L) ->
  (length P < length sizes)%nat ->
  decrypt_by_reads c L nonce ad (stream_encrypt c L nonce ad P) sizes = Ret (P, Some EOF).
Proof.
  intros HL Hsl Hos Hn HP Hs Hfirst Hlen.
  destruct (DecryptReader_good c L nonce ad P HL Hn HP) as (r & Hr & Hfr & _ & Hg).
  destruct (chunks_props L P HL) as (_ & _ & Hcat & _).
  unfold decrypt_by_reads. rewrite Hr. f_equal.
  pose proof (DecReader_drive_good c L _ _ HL Hsl Hos sizes r (chunks L P) [] Hg Hs
                (fun _ => Hfirst)) as Hd.
  rewrite Hcat in Hd. apply Hd. exact Hlen.
Qed.

(** Extra X9 ([DecReader.WriteTo]): on a fresh [DecReader] over a valid
    stream, [WriteTo] forwards exactly the plaintext and returns no error. *)
Theorem DecReader_WriteTo_roundtrip (c : AEAD) (L : nat) (nonce ad P : bytes) :
  (1 <= L)%nat ->
  (forall n p a, length (Seal c n p a) = (length p + Overhead c)%nat) ->
  (forall n p a, Open c n (Seal c n p a) a = Some p) ->
  Z.of_nat (length nonce) = NonceSize c - 4 ->
  Z.of_nat (length P) <= Z.of_nat L * MaxUint32 ->
  exists r r', DecryptReader c (stream_encrypt c L nonce ad P) nonce ad = Ret r /\
    DecReader_WriteTo c L r = (r', P, None).
Proof.
  intros HL Hsl Hos Hn HP.
  destruct (DecryptReader_good c L nonce ad P HL Hn HP) as (r & Hr & Hfr & _ & Hg).
  destruct (chunks_props L P HL) as (_ & _ & Hcat & _).
  destruct (DecReader_WriteTo_good c L _ _ HL Hsl Hos r (chunks L P) [] Hg) as (r' & Hw).
  exists r, r'. split; [exact Hr|]. rewrite Hw, Hfr, Hcat. reflexivity.
Qed.

(** Extra X10 ([DecReader.ReadByte], [copyBytes]): [copyBytes] over
    [DecReader.ReadByte] on a valid stream collects exactly the plaintext
    and returns no error. *)
Theorem DecReader_ReadByte_roundtrip (c : AEAD) (L : nat) (nonce ad P : bytes) (fuel : nat) :
  (1 <= L)%nat ->
  (forall n p a, length (Seal c n p a) = (length p + Overhead c)%nat) ->
  (forall n p a, Open c n (Seal c n p a) a = Some p) ->
  Z.of_nat (length nonce) = NonceSize c - 4 ->
  Z.of_nat (length P) <= Z.of_nat L * MaxUint32 ->
  (length P < fuel)%nat ->
  exists r r', DecryptReader c (stream_encrypt c L nonce ad P) nonce ad = Ret r /\
    copyBytes (DecReader_ReadByte c L) fuel r [] = Ret (r', P, None).
Proof.
  intros HL Hsl Hos Hn HP Hf.
  destruct (DecryptReader_good c L nonce ad P HL Hn HP) as (r & Hr & Hfr & _ & Hg).
  destruct (chunks_props L P HL) as (_ & _ & Hcat & _).
  destruct (copyBytes_DecReader c L _ _ HL Hsl Hos fuel r (chunks L P) [] [] Hg
              ltac:(rewrite Hcat; exact Hf)) as (r' & Hc).
  exists r, r'. split; [exact Hr|]. rewrite Hc, Hcat. reflexivity.
Qed.

(** Extra X11 ([DecReader.Read] then [DecReader.WriteTo]): after a first
    [Read] with a buffer of [k >= 1] bytes, [k <> L], either the whole
    plaintext came with [io.EOF], or a following [WriteTo] forwards the
    rest of the plaintext, with no error or [io.EOF]. *)
Theorem DecReader_Read_then_WriteTo (c : AEAD) (L : nat) (nonce ad P : bytes) (k : nat) :
  (1 <= L)%nat ->
  (forall n p a, length (Seal c n p a) = (length p + Overhead c)%nat) ->
  (forall n p a, Open c n (Seal c n p a) a = Some p) ->
  Z.of_nat (length nonce) = NonceSize c - 4 ->
  Z.of_nat (length P) <= Z.of_nat L * MaxUint32 ->
  (1 <= k)%nat -> k <> L ->
  exists r0 r1 d e,
    DecryptReader c (stream_encrypt c L nonce ad P) nonce ad = Ret r0 /\
    DecReader_Read c L r0 k = (r1, d, e) /\
    ((e = Some EOF /\ d = P) \/
     (e = None /\ exists r2 R e', DecReader_WriteTo c L r1 = (r2, R, e') /\
        d ++ R = P /\ (e' = None \/ e' = Some EOF))).
Proof.
  intros HL Hsl Hos Hn HP Hk HkL.
  destruct (DecryptReader_good c L nonce ad P HL Hn HP) as (r & Hr & Hfr & _ & Hg).
  destruct (chunks_props L P HL) as (_ & _ & Hcat & _).
  destruct (DecReader_Read_good c L _ _ HL Hsl Hos r (chunks L P) [] k Hg Hk)
    as (r1 & d & e & R' & Hrd & HR & _ & _ & He & Hfr1 & Hst).
  rewrite Hcat in HR. cbn [app] in HR.
  exists r, r1, d, e. split; [exact Hr|]. split; [exact Hrd|].
  destruct He as [-> | (-> & ->)].
  - right. split; [reflexivity|].
    destruct (Hst ltac:(right; intros [_ E]; exact (HkL E))) as (Xs' & pend' & Hg' & HR').
    destruct (DecReader_WriteTo_good c L _ _ HL Hsl Hos r1 Xs' pend' Hg') as (r2 & Hw).
    rewrite Hfr1 in Hw.
    eexists _, _, _. split; [exact Hw|]. split; [rewrite HR', HR; reflexivity|].
    destruct Xs'; auto.
  - left. split; [reflexivity|]. rewrite HR, app_nil_r. reflexivity.
Qed.

(** Extra X12 ([DecReader.WriteTo] after a partial [Read]): for a
    single-fragment plaintext, a first [Read] of [k] bytes, [1 <= k < |P|],
    returns the first [k] bytes and [WriteTo] then forwards the others and
    returns [io.EOF], since the reader is already closed. *)
Theorem DecReader_WriteTo_after_partial_Read (c : AEAD) (L : nat) (nonce ad P : bytes) (k : nat) :
  (1 <= L)%nat ->
  (forall n p a, length (Seal c n p a) = (length p + Overhead c)%nat) ->
  (forall n p a, Open c n (Seal c n p a) a = Some p) ->
  Z.of_nat (length nonce) = NonceSize c - 4 ->
  (length P <= L)%nat -> (1 <= k)%nat -> (k < length P)%nat ->
  exists r0 r1 r2,
    DecryptReader c (stream_encrypt c L nonce ad P) nonce ad = Ret r0 /\
    DecReader_Read c L r0 k = (r1, take k P, None) /\
    DecReader_WriteTo c L r1 = (r2, drop k P, Some EOF).
Proof.
  intros HL Hsl Hos Hn HPL Hk HkP.
  assert (HP : Z.of_nat (length P) <= Z.of_nat L * MaxUint32) by (unfold MaxUint32; nia).
  destruct (DecryptReader_good c L nonce ad P HL Hn HP) as (r0 & Hr & Hfr & Herr & Hg).
  rewrite (chunks_single L P HPL) in Hg.
  pose proof Hg as (_ & _ & Hok & Hsq & Hrest). rewrite Hfr in Hrest.
  destruct Hrest as (HXs & _ & Hoff & _ & _ & Hsrc).
  destruct (Hsq HXs) as [Hs1 Hs2].
  assert (Hb : dr_base (nonce0 nonce) (ad_tag c nonce ad) (dr_clear_firstRead r0) (dr_seqNum r0)).
  { destruct Hg as (He0 & Hn0 & _ & _ & Hrest). rewrite Hfr in Hrest.
    destruct Hrest as (_ & _ & _ & Hcl & Had & _).
    unfold dr_base; cbn; auto 7. }
  destruct (readFragment_good c L _ _ HL Hsl Hos (dr_clear_firstRead r0) k 0 (dr_seqNum r0) P []
              Hb Hoff Hok Hs1 Hs2 (or_introl (conj eq_refl Hsrc)))
    as (r3 & e3 & Hrf & He & Herr3 & Hfr3 & Hg3).
  specialize (Hg3 Hk).
  destruct He as [[-> _] | (_ & _ & Hle)]; [|lia].
  pose proof Hg3 as (_ & _ & _ & _ & Hrest3). rewrite Hfr3 in Hrest3.
  destruct Hrest3 as [Hpend _].
  assert (Hdne : drop k P <> []).
  { intros E. apply (f_equal length) in E. rewrite length_drop in E. cbn in E. lia. }
  destruct (Nat.ltb_spec 0 (dr_offset r3)) as [Ho|Ho]; [|congruence].
  assert (Hread : DecReader_Read c L r0 k = (dr_set_offset r3 (dr_offset r3 + 0), take k P, None)).
  { rewrite (DecReader_Read_first c L r0 r3 k (take k P) Herr Hfr Hrf Herr3 Hfr3).
    rewrite length_take, Nat.min_l by lia. rewrite Nat.sub_diag.
    unfold DecReader_Read. rewrite Herr3, Hfr3. cbn zeta iota. cbn [length].
    destruct (Nat.ltb_spec 0 (dr_offset r3)) as [_|]; [|lia].
    rewrite Nat.min_0_l. change (0 - 0)%nat with 0%nat. cbn [Nat.eqb firstn app]. rewrite !app_nil_r. reflexivity. }
  assert (Hg4 : DR_good c L (nonce0 nonce) (ad_tag c nonce ad)
                  (dr_set_offset r3 (dr_offset r3 + 0)) [] (drop k P)).
  { apply (DR_good_set_offset c L _ _ r3 [] (drop k P)); auto.
    rewrite Nat.add_0_r. destruct (Nat.ltb_spec 0 (dr_offset r3)); [exact Hpend|lia]. }
  destruct (DecReader_WriteTo_good c L _ _ HL Hsl Hos _ [] (drop k P) Hg4) as (r2 & Hw).
  exists r0, (dr_set_offset r3 (dr_offset r3 + 0)), r2.
  split; [exact Hr|]. split; [exact Hread|]. rewrite Hw. cbn [concat]. rewrite app_nil_r.
  change (dr_firstRead (dr_set_offset r3 (dr_offset r3 + 0))) with (dr_firstRead r3).
  rewrite Hfr3. reflexivity.
Qed.


Lemma chunks_aux_fuel (L : nat) (f1 f2 : nat) (P : bytes) :
  (1 <= L)%nat -> (length P <= f1)%nat -> (length P <= f2)%nat ->
  chunks_aux f1 L P = chunks_aux f2 L P.
Proof.
  intros HL. revert f2 P. induction f1 as [|f IH]; intros [|g] P H1 H2; cbn [chunks_aux].
  - reflexivity.
  - destruct (Nat.ltb_spec L (length P)); [lia|reflexivity].
  - destruct (Nat.ltb_spec L (length P)); [lia|reflexivity].
  - destruct (Nat.ltb_spec L (length P)); [|reflexivity].
    f_equal. apply IH; rewrite length_drop; lia.
Qed.

Lemma chunks_unfold (L : nat) (Q : bytes) :
  (1 <= L)%nat ->
  chunks L Q = if (L <? length Q)%nat then take L Q :: chunks L (drop L Q) else [Q].
Proof.
  intros HL. unfold chunks at 1. destruct (length Q) as [|m] eqn:E.
  - cbn. reflexivity.
  - cbn [chunks_aux]. rewrite E. destruct (Nat.ltb_spec L (S m)); [|reflexivity].
    f_equal. unfold chunks. apply chunks_aux_fuel; auto; rewrite length_drop; lia.
Qed.

Lemma chunks_nonempty (L : nat) (Q : bytes) : (1 <= L)%nat -> chunks L Q <> [].
Proof. intros HL. rewrite chunks_unfold by exact HL. destruct (_ <? _)%nat; discriminate. Qed.

Section EncReader_correct.

Variable c : AEAD.
Variable L : nat.
Variables n0 T : bytes.
Hypothesis HL : (1 <= L)%nat.
Hypothesis Hseal_len : forall n p a, length (Seal c n p a) = (length p + Overhead c)%nat.

Lemma ER_readFragment (r : EncReader) (plen fro : nat) (Q x : bytes) (Xs : list bytes) :
  er_err r = None -> (forall s', put_seq (er_nonce r) s' = put_seq n0 s') ->
  er_closed r = false -> er_firstRead r = false -> er_offset r = 0%nat ->
  er_associatedData r = x00 :: T ->
  1 <= er_seqNum r -> er_seqNum r + Z.of_nat (length (chunks L Q)) <= 2 ^ 32 ->
  (fro = 0%nat /\ er_src r = Q) \/ (fro = 1%nat /\ er_carry r :: er_src r = Q) ->
  chunks L Q = x :: Xs ->
  exists r',
    EncReader_readFragment c L r plen fro =
      (r', take plen (Seal c (put_seq n0 (er_seqNum r)) x
                        (match Xs with [] => x80 | _ => x00 end :: T)),
       match Xs with
       | [] => if (length x + Overhead c <=? plen)%nat then Some EOF else None
       | _ => None
       end) /\
    ER_good L n0 T r' /\ er_firstRead r' = false /\
    er_closed r' = match Xs with [] => true | _ => false end /\
    ((plen < length x + Overhead c)%nat ->
     er_ciphertextBuffer r' = Seal c (put_seq n0 (er_seqNum r)) x
                                (match Xs with [] => x80 | _ => x00 end :: T) /\
     er_offset r' = plen) /\
    ((length x + Overhead c <= plen)%nat -> er_offset r' = 0%nat) /\
    match Xs with
    | [] => True
    | _ => er_carry r' :: er_src r' = drop L Q /\ er_seqNum r' = er_seqNum r + 1
    end /\
    ER_out c L n0 T r' = er_pend r' ++ seal_frags c n0 T (er_seqNum r + 1) Xs.
Proof.
  intros Herr Hn Hcl Hfr Hoff Had Hs1 Hs2 Hv Hch.
  unfold EncReader_readFragment.
  assert (Hs0 : (er_seqNum r =? 0) = false) by (apply Z.eqb_neq; lia). rewrite Hs0.
  destruct (readFrom (er_src r) (1 + L - fro)) as [[data rest] e] eqn:Hrd.
  assert (Hv' : (if (fro =? 0)%nat then data else er_carry r :: data) = take (S L) Q /\
                rest = drop (S L) Q /\
                e = (if (length Q <? S L)%nat then Some EOF else None)).
  { unfold readFrom in Hrd. injection Hrd as <- <- <-.
    destruct Hv as [[-> <-] | [-> <-]].
    - cbn [Nat.eqb]. replace (1 + L - 0)%nat with (S L) by lia.
      split; [reflexivity|]. split; reflexivity.
    - cbn [Nat.eqb Nat.sub Nat.add]. rewrite Nat.sub_0_r.
      split; [reflexivity|]. split; reflexivity. }
  destruct Hv' as (Hbuf & -> & ->).
  cbv zeta. rewrite Hbuf. rewrite !Hn, Had. cbn [set_final].
  rewrite (chunks_unfold L Q HL) in Hch, Hs2.
  destruct (Nat.ltb_spec L (length Q)) as [HLQ|HLQ].
  - injection Hch as Hx HXs. subst x.
    destruct (Nat.ltb_spec (length Q) (S L)) as [|_]; [lia|].
    destruct Xs as [|y Ys]; [exfalso; exact (chunks_nonempty L (drop L Q) HL HXs)|].
    rewrite take_take, Nat.min_l by lia. rewrite nth_take_lt by lia.
    rewrite HXs in Hs2. cbn [length] in Hs2.
    assert (Hinc : u32_incr (er_seqNum r) = er_seqNum r + 1) by (apply u32_incr_small; lia).
    rewrite length_take, (Nat.min_l L (length Q)) by lia.
    destruct (Nat.ltb_spec plen (L + Overhead c)) as [Hp|Hp].
    + eexists. split; [reflexivity|].
      unfold ER_good, ER_out, ER_tail, er_rest, er_pend.
      cbn [er_err er_nonce er_firstRead er_closed er_associatedData er_seqNum er_carry
           er_src er_offset er_ciphertextBuffer].
      rewrite Hfr, Hcl. cbn iota.
      rewrite Hinc, (nth_cons_drop Q L HLQ), HXs. cbn [length].
      split; [split; [exact Herr|]; split; [intros s'; apply put_seq_put_seq|];
              split; [intros H; discriminate H|]; intros _; split; [reflexivity|lia]|].
      split; [reflexivity|]. split; [reflexivity|].
      rewrite Hseal_len, length_take, Nat.min_l by lia.
      split; [intros _; split; [reflexivity|]; lia|].
      split; [intros; lia|]. split; [split; reflexivity|]. reflexivity.
    + eexists. split.
      { rewrite (take_ge (Seal _ _ _ _) plen) by (rewrite Hseal_len, length_take; lia). reflexivity. }
      unfold ER_good, ER_out, ER_tail, er_rest, er_pend.
      cbn [er_err er_nonce er_firstRead er_closed er_associatedData er_seqNum er_carry
           er_src er_offset er_ciphertextBuffer].
      rewrite Hfr, Hcl. cbn iota.
      rewrite Hinc, (nth_cons_drop Q L HLQ), HXs, Hoff. cbn [length].
      split; [split; [exact Herr|]; split; [intros s'; apply put_seq_put_seq|];
              split; [intros H; discriminate H|]; intros _; split; [reflexivity|lia]|].
      split; [reflexivity|]. split; [reflexivity|].
      split; [intros; lia|]. split; [reflexivity|]. split; [split; reflexivity|]. reflexivity.
  - injection Hch as <- <-.
    destruct (Nat.ltb_spec (length Q) (S L)) as [_|]; [|lia].
    rewrite take_ge by lia.
    destruct (Nat.ltb_spec plen (length Q + Overhead c)) as [Hp|Hp].
    + eexists. split.
      { destruct (Nat.leb_spec (length Q + Overhead c) plen); [lia|reflexivity]. }
      unfold ER_good, ER_out, ER_tail, er_rest, er_pend.
      cbn [er_err er_nonce er_firstRead er_closed er_associatedData er_seqNum er_carry
           er_src er_offset er_ciphertextBuffer].
      split; [split; [exact Herr|]; split; [intros s'; apply put_seq_put_seq|];
              split; [rewrite Hfr; intros H; discriminate H|]; intros H; discriminate H|].
      split; [exact Hfr|]. split; [reflexivity|].
      rewrite Hseal_len.
      split; [intros _; split; [reflexivity|]; lia|].
      split; [intros; lia|]. split; [exact I|]. cbn [seal_frags]. rewrite !app_nil_r. reflexivity.
    + eexists. split.
      { destruct (Nat.leb_spec (length Q + Overhead c) plen); [|lia].
        rewrite take_ge by (rewrite Hseal_len; lia). reflexivity. }
      unfold ER_good, ER_out, ER_tail, er_rest, er_pend.
      cbn [er_err er_nonce er_firstRead er_closed er_associatedData er_seqNum er_carry
           er_src er_offset er_ciphertextBuffer].
      split; [split; [exact Herr|]; split; [intros s'; apply put_seq_put_seq|];
              split; [rewrite Hfr; intros H; discriminate H|]; intros H; discriminate H|].
      split; [exact Hfr|]. split; [reflexivity|].
      split; [intros; lia|]. split; [intros; exact Hoff|]. split; [exact I|]. cbn [seal_frags].
      rewrite !app_nil_r. reflexivity.
Qed.


Lemma seal_frags_head (s : Z) (x : bytes) (Xs : list bytes) :
  seal_frags c n0 T s (x :: Xs)
  = Seal c (put_seq n0 s) x (match Xs with [] => x80 | _ => x00 end :: T)
    ++ seal_frags c n0 T (s + 1) Xs.
Proof. destruct Xs; cbn [seal_frags]; [rewrite app_nil_r|]; reflexivity. Qed.

Lemma ER_good_set_offset (r : EncReader) (o : nat) :
  ER_good L n0 T r -> er_firstRead r = false -> ER_good L n0 T (er_set_offset r o).
Proof.
  intros (Herr & Hn & _ & Hlive) Hfr. unfold ER_good, er_rest in *. cbn.
  rewrite Hfr in *. split; [exact Herr|]. split; [exact Hn|].
  split; [discriminate|]. exact Hlive.
Qed.

Lemma ER_out_set_offset (r : EncReader) (o : nat) :
  ER_out c L n0 T (er_set_offset r o)
  = (if (0 <? o)%nat then drop o (er_ciphertextBuffer r) else []) ++ ER_tail c L n0 T r.
Proof. reflexivity. Qed.

(** the first chunk of a non-final split has [L] bytes, a final one at most [L] *)
Lemma chunks_head_length (Q x : bytes) (Xs : list bytes) :
  chunks L Q = x :: Xs -> (length x <= L)%nat /\ (Xs <> [] -> length x = L).
Proof.
  intros Hch. rewrite (chunks_unfold L Q HL) in Hch.
  destruct (Nat.ltb_spec L (length Q)).
  - injection Hch as <- _. rewrite length_take. split; [lia|]. intros _. lia.
  - injection Hch as <- <-. split; [lia|]. congruence.
Qed.

Lemma ER_fragment (r : EncReader) (plen fro : nat) (Q : bytes) :
  er_err r = None -> (forall s', put_seq (er_nonce r) s' = put_seq n0 s') ->
  er_closed r = false -> er_firstRead r = false -> er_offset r = 0%nat ->
  er_associatedData r = x00 :: T ->
  1 <= er_seqNum r -> er_seqNum r + Z.of_nat (length (chunks L Q)) <= 2 ^ 32 ->
  (fro = 0%nat /\ er_src r = Q) \/ (fro = 1%nat /\ er_carry r :: er_src r = Q) ->
  (1 <= plen)%nat ->
  exists r3 d3 e3,
    EncReader_readFragment c L r plen fro = (r3, d3, e3) /\
    ER_good L n0 T r3 /\ er_firstRead r3 = false /\
    d3 ++ ER_out c L n0 T r3 = seal_frags c n0 T (er_seqNum r) (chunks L Q) /\
    (length d3 <= plen)%nat /\
    ((e3 = None /\ d3 <> [] /\
      ((0 < er_offset r3)%nat \/
       (er_offset r3 = 0%nat /\ er_closed r3 = false /\ length d3 = (L + Overhead c)%nat))) \/
     (e3 = Some EOF /\ ER_out c L n0 T r3 = [])).
Proof.
  intros Herr Hn Hcl Hfr Hoff Had Hs1 Hs2 Hv Hp.
  destruct (chunks L Q) as [|x Xs] eqn:Hch; [exfalso; exact (chunks_nonempty L Q HL Hch)|].
  destruct (chunks_head_length Q x Xs Hch) as [HxL Hx].
  rewrite <- Hch in Hs2.
  destruct (ER_readFragment r plen fro Q x Xs Herr Hn Hcl Hfr Hoff Had
              Hs1 Hs2 Hv Hch)
    as (r3 & Hrf & Hg3 & Hfr3 & Hcl3 & Hslow & Hfast & _ & Hout3).
  set (ct := Seal c (put_seq n0 (er_seqNum r)) x (match Xs with [] => x80 | _ => x00 end :: T))
    in *.
  assert (Hct : length ct = (length x + Overhead c)%nat) by apply Hseal_len.
  assert (Hpend : er_pend r3 = drop plen ct).
  { unfold er_pend. destruct (Nat.ltb_spec plen (length x + Overhead c)) as [Hlt|Hge].
    - destruct (Hslow Hlt) as [-> ->]. destruct (Nat.ltb_spec 0 plen); [reflexivity|lia].
    - rewrite (Hfast Hge). cbn. symmetry. apply drop_ge. lia. }
  eexists _, _, _. split; [exact Hrf|]. split; [exact Hg3|]. split; [exact Hfr3|].
  split.
  { rewrite Hout3, Hpend, app_assoc, take_drop, seal_frags_head. reflexivity. }
  split; [rewrite length_take; lia|].
  destruct Xs as [|y Ys].
  - destruct (Nat.leb_spec (length x + Overhead c) plen) as [Hle|Hlt].
    + right. split; [reflexivity|]. rewrite Hout3, Hpend, drop_ge by lia. reflexivity.
    + left. split; [reflexivity|]. split.
      * intros E. apply (f_equal length) in E. rewrite length_take in E. cbn in E. lia.
      * left. destruct (Hslow Hlt) as [_ ->]. lia.
  - specialize (Hx ltac:(discriminate)).
    left. split; [reflexivity|]. split.
    + intros E. apply (f_equal length) in E. rewrite length_take in E. cbn in E. lia.
    + destruct (Nat.ltb_spec plen (length x + Overhead c)) as [Hlt|Hge].
      * left. destruct (Hslow Hlt) as [_ ->]. lia.
      * right. split; [exact (Hfast Hge)|]. split; [exact Hcl3|].
        rewrite length_take. lia.
Qed.


Lemma EncReader_Read_first (r r1 : EncReader) (plen : nat) (d1 : bytes) :
  er_err r = None -> er_firstRead r = true ->
  EncReader_readFragment c L (er_clear_firstRead r) plen 0 = (r1, d1, None) ->
  er_err r1 = None -> er_firstRead r1 = false ->
  EncReader_Read c L r plen =
    let '(r', d', e') := EncReader_Read c L r1 (plen - length d1) in (r', d1 ++ d', e').
Proof.
  intros Herr Hfr Hrf Herr1 Hfr1.
  unfold EncReader_Read. rewrite Herr, Hfr, Hrf, Herr1, Hfr1. cbn zeta iota.
  cbn [length app]. rewrite Nat.sub_0_r.
  destruct (0 <? er_offset r1)%nat.
  - destruct (Nat.min _ _ =? _)%nat; [reflexivity|].
    cbn zeta iota. destruct (er_closed _); [reflexivity|].
    match goal with |- context [EncReader_readFragment ?a ?b ?c ?d ?e] =>
      destruct (EncReader_readFragment a b c d e) as [[r3 d3] e3] end.
    rewrite app_assoc. reflexivity.
  - destruct (er_closed r1); [rewrite app_nil_r; reflexivity|].
    match goal with |- context [EncReader_readFragment ?a ?b ?c ?d ?e] =>
      destruct (EncReader_readFragment a b c d e) as [[r3 d3] e3] end.
    reflexivity.
Qed.

Lemma EncReader_Read_nf (r : EncReader) (plen : nat) :
  ER_good L n0 T r -> er_firstRead r = false -> (1 <= plen \/ 0 < er_offset r)%nat ->
  exists r' d e,
    EncReader_Read c L r plen = (r', d, e) /\
    ER_good L n0 T r' /\ er_firstRead r' = false /\
    d ++ ER_out c L n0 T r' = ER_out c L n0 T r /\ (length d <= plen)%nat /\
    ((e = None /\ (d <> [] \/ plen = 0%nat)) \/ (e = Some EOF /\ ER_out c L n0 T r' = [])).
Proof.
  intros Hg Hfr Hp. pose proof Hg as (Herr & Hn & _ & Hlive).
  unfold EncReader_Read. rewrite Herr, Hfr. cbn zeta iota. cbn [length]. rewrite Nat.sub_0_r.
  destruct (Nat.ltb_spec 0 (er_offset r)) as [Ho|Ho].
  - set (pend := drop (er_offset r) (er_ciphertextBuffer r)).
    assert (Hpend : er_pend r = pend)
      by (unfold er_pend; destruct (Nat.ltb_spec 0 (er_offset r)); [reflexivity|lia]).
    destruct (Nat.eqb_spec (Nat.min plen (length pend)) plen) as [Heq|Hne].
    + eexists _, _, _. split; [reflexivity|].
      split; [apply ER_good_set_offset; assumption|]. split; [exact Hfr|].
      split.
      { rewrite ER_out_set_offset. unfold ER_out. rewrite Hpend.
        destruct (Nat.ltb_spec 0 (er_offset r + Nat.min plen (length pend))); [|lia].
        rewrite <- drop_drop. fold pend. rewrite app_nil_l, app_assoc, take_drop.
        reflexivity. }
      split; [rewrite length_app, length_take; cbn; lia|].
      left. split; [reflexivity|].
      destruct plen as [|p]; [right; reflexivity|left].
      intros E. apply (f_equal length) in E. rewrite length_app, length_take in E.
      lia.
    + assert (Hmin : Nat.min plen (length pend) = length pend) by lia.
      rewrite Hmin, take_ge by lia. rewrite app_nil_l.
      change (er_closed (er_set_offset r 0)) with (er_closed r).
      destruct (er_closed r) eqn:Hc.
      * eexists _, _, _. split; [reflexivity|].
        split; [apply ER_good_set_offset; assumption|]. split; [exact Hfr|].
        split.
        { rewrite ER_out_set_offset. unfold ER_out, ER_tail. rewrite Hpend, Hc. cbn.
          rewrite app_nil_r. reflexivity. }
        split; [lia|].
        right. split; [reflexivity|]. rewrite ER_out_set_offset. unfold ER_tail. rewrite Hc.
        reflexivity.
      * destruct (Hlive eq_refl) as (Had & Hs1 & Hs2). unfold er_rest in Hs2. rewrite Hfr in Hs2.
        destruct (ER_fragment (er_set_offset r 0) (plen - length pend) 1
                    (er_carry r :: er_src r) Herr Hn Hc Hfr eq_refl Had Hs1 Hs2
                    (or_intror (conj eq_refl eq_refl)) ltac:(lia))
          as (r3 & d3 & e3 & Hrf & Hg3 & Hfr3 & Hout3 & Hl3 & He3).
        rewrite Hrf. eexists _, _, _. split; [reflexivity|].
        split; [exact Hg3|]. split; [exact Hfr3|].
        split.
        { rewrite <- app_assoc, Hout3. unfold ER_out, ER_tail, er_rest.
          rewrite Hpend, Hc, Hfr. reflexivity. }
        split; [rewrite length_app; lia|].
        destruct He3 as [(-> & Hd3 & _) | (-> & Hout0)].
        -- left. split; [reflexivity|]. left. intros E. apply app_eq_nil in E. tauto.
        -- right. split; [reflexivity|exact Hout0].
  - assert (Hpend : er_pend r = []) by (unfold er_pend; destruct (Nat.ltb_spec 0 (er_offset r)); [lia|reflexivity]).
    destruct (er_closed r) eqn:Hc.
    + eexists _, _, _. split; [reflexivity|].
      split; [exact Hg|]. split; [exact Hfr|].
      split; [reflexivity|]. split; [cbn; lia|].
      right. split; [reflexivity|]. unfold ER_out, ER_tail. rewrite Hpend, Hc. reflexivity.
    + destruct (Hlive eq_refl) as (Had & Hs1 & Hs2). unfold er_rest in Hs2. rewrite Hfr in Hs2.
      destruct (ER_fragment r plen 1 (er_carry r :: er_src r) Herr Hn Hc Hfr ltac:(lia) Had
                  Hs1 Hs2 (or_intror (conj eq_refl eq_refl)) ltac:(lia))
        as (r3 & d3 & e3 & Hrf & Hg3 & Hfr3 & Hout3 & Hl3 & He3).
      rewrite Hrf. eexists _, _, _. split; [reflexivity|].
      split; [exact Hg3|]. split; [exact Hfr3|].
      split.
      { rewrite app_nil_l, Hout3. unfold ER_out, ER_tail, er_rest. rewrite Hpend, Hc, Hfr.
        reflexivity. }
      split; [exact Hl3|].
      destruct He3 as [(-> & Hd3 & _) | (-> & Hout0)].
      * left. split; [reflexivity|]. left. exact Hd3.
      * right. split; [reflexivity|exact Hout0].
Qed.


Lemma EncReader_Read_good (r : EncReader) (plen : nat) :
  ER_good L n0 T r -> (1 <= plen)%nat ->
  (er_firstRead r = true -> plen <> (L + Overhead c)%nat) ->
  exists r' d e,
    EncReader_Read c L r plen = (r', d, e) /\
    ER_good L n0 T r' /\ er_firstRead r' = false /\
    d ++ ER_out c L n0 T r' = ER_out c L n0 T r /\ (length d <= plen)%nat /\
    ((e = None /\ d <> []) \/ (e = Some EOF /\ ER_out c L n0 T r' = [])).
Proof.
  intros Hg Hp Hfirst.
  destruct (er_firstRead r) eqn:Hfr.
  2:{ destruct (EncReader_Read_nf r plen Hg Hfr (or_introl Hp))
        as (r' & d & e & Hrd & Hg' & Hfr' & Hout & Hl & He).
      exists r', d, e. do 5 (split; [assumption|]).
      destruct He as [(-> & [Hd | Hd]) | He]; [left; auto | lia | right; auto]. }
  specialize (Hfirst eq_refl).
  pose proof Hg as (Herr & Hn & Hfr0 & Hlive). destruct (Hfr0 Hfr) as [Hoff Hcl].
  destruct (Hlive Hcl) as (Had & Hs1 & Hs2). unfold er_rest in Hs2. rewrite Hfr in Hs2.
  destruct (ER_fragment (er_clear_firstRead r) plen 0 (er_src r) Herr Hn Hcl eq_refl Hoff Had
              Hs1 Hs2 (or_introl (conj eq_refl eq_refl)) Hp)
    as (r1 & d1 & e1 & Hrf & Hg1 & Hfr1 & Hout1 & Hl1 & He1).
  assert (Hout : ER_out c L n0 T r = seal_frags c n0 T (er_seqNum r) (chunks L (er_src r))).
  { unfold ER_out, ER_tail, er_pend, er_rest. rewrite Hoff, Hcl, Hfr. reflexivity. }
  destruct He1 as [(-> & Hd1 & Hst) | (-> & Hout0)].
  - pose proof Hg1 as (Herr1 & _).
    rewrite (EncReader_Read_first r r1 plen d1 Herr Hfr Hrf Herr1 Hfr1).
    destruct (EncReader_Read_nf r1 (plen - length d1) Hg1 Hfr1
                ltac:(destruct Hst as [Ho | (_ & _ & Hl)]; [right; exact Ho | left; lia]))
      as (r' & d & e & Hrd & Hg' & Hfr' & Hout' & Hl & He).
    rewrite Hrd. exists r', (d1 ++ d), e.
    split; [reflexivity|]. split; [exact Hg'|]. split; [exact Hfr'|].
    split; [rewrite <- app_assoc, Hout', Hout1, Hout; reflexivity|].
    split; [rewrite length_app; lia|].
    destruct He as [(-> & _) | He]; [left; split; [reflexivity|] | right; exact He].
    intros E. apply app_eq_nil in E. tauto.
  - unfold EncReader_Read. rewrite Herr, Hfr, Hrf. cbn zeta iota.
    exists r1, d1, (Some EOF). split; [reflexivity|]. split; [exact Hg1|].
    split; [exact Hfr1|]. split; [rewrite Hout0, app_nil_r, Hout; rewrite Hout0, app_nil_r in Hout1; exact Hout1|].
    split; [exact Hl1|]. right. split; [reflexivity|exact Hout0].
Qed.

(** the [for] loop of [WriteTo] forwards every remaining fragment *)
Lemma er_writeto_loop_good (fuel : nat) :
  forall r out,
  er_err r = None -> (forall s', put_seq (er_nonce r) s' = put_seq n0 s') ->
  er_closed r = false -> er_firstRead r = false -> er_offset r = 0%nat ->
  er_associatedData r = x00 :: T ->
  1 <= er_seqNum r ->
  er_seqNum r + Z.of_nat (length (chunks L (er_carry r :: er_src r))) <= 2 ^ 32 ->
  (length (er_src r) < fuel)%nat ->
  exists r', er_writeto_loop c L fuel r out =
    (r', out ++ seal_frags c n0 T (er_seqNum r) (chunks L (er_carry r :: er_src r)), None).
Proof.
  induction fuel as [|f IH]; intros r out Herr Hn Hcl Hfr Hoff Had Hs1 Hs2 Hf; [lia|].
  set (Q := er_carry r :: er_src r) in *.
  destruct (chunks L Q) as [|x Xs] eqn:Hch; [exfalso; exact (chunks_nonempty L Q HL Hch)|].
  destruct (chunks_head_length Q x Xs Hch) as [HxL Hx].
  rewrite <- Hch in Hs2.
  destruct (ER_readFragment r (1 + L + Overhead c) 1 Q x Xs Herr Hn Hcl Hfr Hoff Had
              Hs1 Hs2 (or_intror (conj eq_refl eq_refl)) Hch)
    as (r3 & Hrf & Hg3 & Hfr3 & Hcl3 & _ & Hfast & Hmid & _).
  rewrite take_ge in Hrf by (rewrite Hseal_len; lia).
  cbn [er_writeto_loop]. rewrite Hrf. rewrite seal_frags_head.
  destruct Xs as [|y Ys].
  - destruct (Nat.leb_spec (length x + Overhead c) (1 + L + Overhead c)); [|lia].
    rewrite Hcl3. exists r3. cbn [seal_frags]. rewrite !app_nil_r. reflexivity.
  - rewrite Hcl3. destruct Hmid as [Hcs3 Hseq3].
    pose proof Hg3 as (Herr3 & Hn3 & _ & Hlive3).
    destruct (Hlive3 Hcl3) as (Had3 & Hs13 & Hs23).
    unfold er_rest in Hs23. rewrite Hfr3 in Hs23.
    assert (HLQ : (L < length Q)%nat).
    { rewrite (chunks_unfold L Q HL) in Hch. destruct (Nat.ltb_spec L (length Q)); [lia|].
      injection Hch as _ E. discriminate E. }
    assert (Hch3 : chunks L (er_carry r3 :: er_src r3) = y :: Ys).
    { rewrite Hcs3. rewrite (chunks_unfold L Q HL) in Hch.
      destruct (Nat.ltb_spec L (length Q)); [|lia]. injection Hch as _ E. exact E. }
    assert (Hlen3 : (length (er_src r3) < f)%nat).
    { apply (f_equal length) in Hcs3. rewrite length_drop in Hcs3. cbn [length] in Hcs3.
      subst Q. cbn [length] in HLQ, Hcs3. lia. }
    destruct (IH r3 (out ++ Seal c (put_seq n0 (er_seqNum r)) x (x00 :: T)) Herr3 Hn3 Hcl3 Hfr3
                (Hfast ltac:(lia)) Had3 Hs13 Hs23 Hlen3) as (r' & Hl).
    exists r'. rewrite Hl, Hch3, Hseq3, app_assoc. reflexivity.
Qed.

Lemma EncReader_WriteTo_good (r : EncReader) :
  ER_good L n0 T r ->
  exists r', EncReader_WriteTo c L r =
    (r', ER_out c L n0 T r,
     if er_firstRead r then None else if er_closed r then Some EOF else None).
Proof.
  intros Hg. pose proof Hg as (Herr & Hn & Hfr0 & Hlive).
  unfold EncReader_WriteTo.
  destruct (er_firstRead r) eqn:Hfr.
  - destruct (Hfr0 eq_refl) as [Hoff Hcl].
    destruct (Hlive Hcl) as (Had & Hs1 & Hs2). unfold er_rest in Hs2. rewrite Hfr in Hs2.
    assert (Hout : ER_out c L n0 T r = seal_frags c n0 T (er_seqNum r) (chunks L (er_src r))).
    { unfold ER_out, ER_tail, er_pend, er_rest. rewrite Hoff, Hcl, Hfr. reflexivity. }
    rewrite Hout.
    destruct (chunks L (er_src r)) as [|x Xs] eqn:Hch;
      [exfalso; exact (chunks_nonempty L _ HL Hch)|].
    destruct (chunks_head_length _ x Xs Hch) as [HxL Hx].
    rewrite <- Hch in Hs2.
    destruct (ER_readFragment (er_clear_firstRead r) (1 + L + Overhead c) 0 (er_src r) x Xs
                Herr Hn Hcl eq_refl Hoff Had Hs1 Hs2 (or_introl (conj eq_refl eq_refl)) Hch)
      as (r1 & Hrf & Hg1 & Hfr1 & Hcl1 & _ & Hfast & Hmid & _).
    rewrite take_ge in Hrf by (rewrite Hseal_len; lia).
    rewrite Hrf. rewrite seal_frags_head.
    destruct Xs as [|y Ys].
    + destruct (Nat.leb_spec (length x + Overhead c) (1 + L + Overhead c)); [|lia].
      rewrite Hcl1. exists r1. cbn [seal_frags]. rewrite !app_nil_r. reflexivity.
    + rewrite Hcl1. cbn zeta iota.
      pose proof Hg1 as (Herr1 & Hn1 & _ & Hlive1).
      rewrite Herr1, (Hfast ltac:(lia)). cbn [Nat.ltb Nat.leb]. cbn zeta iota. rewrite Hcl1.
      destruct Hmid as [Hcs1 Hseq1].
      destruct (Hlive1 Hcl1) as (Had1 & Hs11 & Hs21).
      unfold er_rest in Hs21. rewrite Hfr1 in Hs21.
      assert (Hch1 : chunks L (er_carry r1 :: er_src r1) = y :: Ys).
      { rewrite Hcs1. rewrite (chunks_unfold L _ HL) in Hch.
        destruct (Nat.ltb_spec L (length (er_src r))) as [|Hge].
        - injection Hch as _ E. exact E.
        - injection Hch as _ E. discriminate E. }
      destruct (er_writeto_loop_good (S (length (er_src r1))) r1
                  (Seal c (put_seq n0 (er_seqNum r)) x (x00 :: T))
                  Herr1 Hn1 Hcl1 Hfr1 (Hfast ltac:(lia)) Had1 Hs11 Hs21 ltac:(lia))
        as (r' & Hl).
      change (er_seqNum (er_clear_firstRead r)) with (er_seqNum r).
      rewrite Hl, Hch1, Hseq1. exists r'. reflexivity.
  - cbn zeta iota. rewrite Herr.
    assert (Hstep : exists r2, (if (0 <? er_offset r)%nat
               then (er_set_offset r 0, [] ++ drop (er_offset r) (er_ciphertextBuffer r))
               else (r, [])) = (r2, er_pend r) /\
             er_closed r2 = er_closed r /\ er_offset r2 = 0%nat /\ er_err r2 = None /\
             er_firstRead r2 = false /\ er_nonce r2 = er_nonce r /\
             er_associatedData r2 = er_associatedData r /\ er_seqNum r2 = er_seqNum r /\
             er_carry r2 = er_carry r /\ er_src r2 = er_src r).
    { unfold er_pend. destruct (0 <? er_offset r)%nat eqn:Ho.
      - eexists. split; [reflexivity|]. cbn. auto 10.
      - apply Nat.ltb_ge in Ho. exists r. split; [reflexivity|]. repeat split; auto; lia. }
    destruct Hstep as (r2 & -> & Hcl2 & Hoff2 & Herr2 & Hfr2 & Hn2 & Had2 & Hseq2 & Hc2 & Hsrc2).
    unfold ER_out, ER_tail. rewrite <- Hcl2.
    destruct (er_closed r2) eqn:Hcl.
    + exists r2. rewrite app_nil_r. reflexivity.
    + rewrite <- Hcl2 in Hlive. destruct (Hlive eq_refl) as (Had & Hs1 & Hs2).
      unfold er_rest in Hs2 |- *. rewrite Hfr in Hs2 |- *.
      rewrite <- Hn2 in Hn. rewrite <- Had2 in Had. rewrite <- Hseq2 in Hs1, Hs2 |- *.
      rewrite <- Hc2, <- Hsrc2 in Hs2 |- *.
      destruct (er_writeto_loop_good (S (length (er_src r2))) r2 (er_pend r)
                  Herr2 Hn Hcl Hfr2 Hoff2 Had Hs1 Hs2 ltac:(lia)) as (r' & Hl).
      exists r'. exact Hl.
Qed.


(** [readFragment(nil, .)] followed by [ciphertextBuffer[0]], as [ReadByte] does it *)
Lemma ER_readbyte_fragment (r : EncReader) (fro : nat) (Q : bytes) :
  (1 <= Overhead c)%nat ->
  er_err r = None -> (forall s', put_seq (er_nonce r) s' = put_seq n0 s') ->
  er_closed r = false -> er_firstRead r = false -> er_offset r = 0%nat ->
  er_associatedData r = x00 :: T ->
  1 <= er_seqNum r -> er_seqNum r + Z.of_nat (length (chunks L Q)) <= 2 ^ 32 ->
  (fro = 0%nat /\ er_src r = Q) \/ (fro = 1%nat /\ er_carry r :: er_src r = Q) ->
  exists r' b R,
    match EncReader_readFragment c L r 0 fro with
    | (r1, _, Some e) => Ret (r1, inr e)
    | (r1, _, None) =>
        match er_ciphertextBuffer r1 with
        | [] => Panic
        | b :: _ => Ret (er_set_offset r1 1, inl b)
        end
    end = Ret (r', inl b) /\
    seal_frags c n0 T (er_seqNum r) (chunks L Q) = b :: R /\
    ER_good L n0 T r' /\ ER_out c L n0 T r' = R.
Proof.
  intros Hov Herr Hn Hcl Hfr Hoff Had Hs1 Hs2 Hview.
  destruct (chunks L Q) as [|x Xs] eqn:Hch; [exfalso; exact (chunks_nonempty L Q HL Hch)|].
  rewrite <- Hch in Hs2.
  destruct (ER_readFragment r 0 fro Q x Xs Herr Hn Hcl Hfr Hoff Had Hs1 Hs2 Hview Hch)
    as (r1 & Hrf & Hg1 & Hfr1 & _ & Hslow & _ & _ & Hout1).
  assert (He : match Xs with
               | [] => if (length x + Overhead c <=? 0)%nat then Some EOF else None
               | _ => None end = @None error).
  { destruct Xs; [destruct (Nat.leb_spec (length x + Overhead c) 0); [lia|reflexivity] | reflexivity]. }
  rewrite He in Hrf. clear He.
  destruct (Hslow ltac:(lia)) as [Hcb Hoff1].
  rewrite Hrf. cbn iota. rewrite Hcb, seal_frags_head.
  pose proof (Hseal_len (put_seq n0 (er_seqNum r)) x
                (match Xs with [] => x80 | _ => x00 end :: T)) as Hlen.
  destruct (Seal c (put_seq n0 (er_seqNum r)) x (match Xs with [] => x80 | _ => x00 end :: T))
    as [|b R0] eqn:Hct; [cbn in Hlen; lia|].
  exists (er_set_offset r1 1), b, (R0 ++ seal_frags c n0 T (er_seqNum r + 1) Xs).
  split; [reflexivity|]. split; [reflexivity|].
  split; [exact (ER_good_set_offset r1 1 Hg1 Hfr1)|].
  rewrite ER_out_set_offset, Hcb. cbn [Nat.ltb Nat.leb]. cbn iota.
  unfold ER_out, er_pend in Hout1. rewrite Hoff1 in Hout1. cbn in Hout1.
  rewrite Hout1. reflexivity.
Qed.

Lemma EncReader_ReadByte_good (r : EncReader) :
  (1 <= Overhead c)%nat -> ER_good L n0 T r ->
  exists r' res, EncReader_ReadByte c L r = Ret (r', res) /\
    ((ER_out c L n0 T r = [] /\ res = inr EOF) \/
     (exists b R, ER_out c L n0 T r = b :: R /\ res = inl b /\
        ER_good L n0 T r' /\ ER_out c L n0 T r' = R)).
Proof.
  intros Hov Hg. pose proof Hg as (Herr & Hn & Hfr0 & Hlive).
  unfold EncReader_ReadByte. rewrite Herr.
  destruct (er_firstRead r) eqn:Hfr.
  - destruct (Hfr0 eq_refl) as [Hoff Hcl].
    destruct (Hlive Hcl) as (Had & Hs1 & Hs2). unfold er_rest in Hs2. rewrite Hfr in Hs2.
    destruct (ER_readbyte_fragment (er_clear_firstRead r) 0 (er_src r) Hov Herr Hn Hcl eq_refl
                Hoff Had Hs1 Hs2 (or_introl (conj eq_refl eq_refl)))
      as (r' & b & R & Hrb & Hsf & Hg' & Hout').
    rewrite Hrb. exists r', (inl b). split; [reflexivity|]. right. exists b, R.
    split; [|split; [reflexivity|split; assumption]].
    unfold ER_out, ER_tail, er_pend, er_rest. rewrite Hoff, Hcl, Hfr. exact Hsf.
  - destruct ((0 <? er_offset r) && (er_offset r <? length (er_ciphertextBuffer r)))%nat eqn:Hin.
    + apply andb_true_iff in Hin as [Ho1 Ho2].
      apply Nat.ltb_lt in Ho1, Ho2.
      eexists _, _. split; [reflexivity|]. right.
      exists (nth (er_offset r) (er_ciphertextBuffer r) x00),
             (drop (S (er_offset r)) (er_ciphertextBuffer r) ++ ER_tail c L n0 T r).
      split; [|split; [reflexivity|split]].
      * unfold ER_out, er_pend. destruct (Nat.ltb_spec 0 (er_offset r)); [|lia].
        rewrite <- (nth_cons_drop _ _ Ho2). reflexivity.
      * exact (ER_good_set_offset r _ Hg Hfr).
      * rewrite ER_out_set_offset. reflexivity.
    + assert (Hpend : er_pend r = []).
      { unfold er_pend. destruct (Nat.ltb_spec 0 (er_offset r)); [|reflexivity].
        apply andb_false_iff in Hin as [H1|H2]; [discriminate H1|].
        apply Nat.ltb_ge in H2. apply drop_ge. exact H2. }
      destruct (er_closed r) eqn:Hcl.
      * eexists _, _. split; [reflexivity|]. left. split; [|reflexivity].
        unfold ER_out, ER_tail. rewrite Hpend, Hcl. reflexivity.
      * destruct (Hlive eq_refl) as (Had & Hs1 & Hs2). unfold er_rest in Hs2. rewrite Hfr in Hs2.
        destruct (ER_readbyte_fragment (er_set_offset r 0) 1 (er_carry r :: er_src r) Hov
                    Herr Hn Hcl Hfr eq_refl Had Hs1 Hs2 (or_intror (conj eq_refl eq_refl)))
          as (r' & b & R & Hrb & Hsf & Hg' & Hout').
        rewrite Hrb. exists r', (inl b). split; [reflexivity|]. right. exists b, R.
        split; [|split; [reflexivity|split; assumption]].
        unfold ER_out, ER_tail. rewrite Hpend, Hcl. unfold er_rest. rewrite Hfr. exact Hsf.
Qed.

(** [copyBytes] over [ReadByte] yields exactly what is left of the stream *)
Lemma copyBytes_EncReader (fuel : nat) :
  (1 <= Overhead c)%nat ->
  forall r out, ER_good L n0 T r -> (length (ER_out c L n0 T r) < fuel)%nat ->
  exists r', copyBytes (EncReader_ReadByte c L) fuel r out
             = Ret (r', out ++ ER_out c L n0 T r, None).
Proof.
  intros Hov. induction fuel as [|f IH]; intros r out Hg Hf; [lia|].
  destruct (EncReader_ReadByte_good r Hov Hg) as (r1 & res & Hrb & [(Ho & ->) | (b & R & Ho & -> & Hg1 & Ho1)]).
  - cbn [copyBytes]. rewrite Hrb. exists r1. rewrite Ho, app_nil_r. reflexivity.
  - cbn [copyBytes]. rewrite Hrb.
    rewrite Ho in Hf. cbn [length] in Hf.
    destruct (IH r1 (out ++ [b]) Hg1 ltac:(rewrite Ho1; lia)) as (r' & Hc).
    exists r'. rewrite Hc, Ho1, Ho, <- app_assoc. reflexivity.
Qed.


Lemma EncReader_drive_good (sizes : list nat) :
  forall r, ER_good L n0 T r -> Forall (fun k => (1 <= k)%nat) sizes ->
  (er_firstRead r = true -> forall k ks, sizes = k :: ks -> k <> (L + Overhead c)%nat) ->
  (length (ER_out c L n0 T r) < length sizes)%nat ->
  EncReader_drive c L r sizes = (ER_out c L n0 T r, Some EOF).
Proof.
  induction sizes as [|k ks IH]; intros r Hg Hs Hfirst Hlen; [cbn in Hlen; lia|].
  inversion Hs as [|? ? Hk Hks]; subst.
  destruct (EncReader_Read_good r k Hg Hk (fun H => Hfirst H k ks eq_refl))
    as (r' & d & e & Hrd & Hg' & Hfr' & Hout & _ & He).
  cbn [EncReader_drive]. rewrite Hrd.
  destruct He as [(-> & Hd) | (-> & Hout0)].
  - rewrite (IH r' Hg' Hks (fun H => ltac:(rewrite Hfr' in H; discriminate H))).
    + rewrite Hout. reflexivity.
    + rewrite <- Hout, length_app in Hlen. cbn [length] in Hlen.
      destruct d; [congruence|cbn [length] in Hlen; lia].
  - rewrite <- Hout, Hout0, app_nil_r. reflexivity.
Qed.

End EncReader_correct.

Lemma EncryptReader_good (c : AEAD) (L : nat) (nonce ad P : bytes) :
  (1 <= L)%nat ->
  Z.of_nat (length nonce) = NonceSize c - 4 ->
  Z.of_nat (length P) <= Z.of_nat L * MaxUint32 ->
  exists r, EncryptReader c P nonce ad = Ret r /\ er_firstRead r = true /\
    ER_good L (nonce0 nonce) (ad_tag c nonce ad) r /\
    ER_out c L (nonce0 nonce) (ad_tag c nonce ad) r = stream_encrypt c L nonce ad P.
Proof.
  intros HL Hn HP.
  destruct (chunks_props L P HL) as (_ & _ & _ & Hlen). specialize (Hlen HP).
  unfold MaxUint32 in Hlen.
  unfold EncryptReader. rewrite Hn, Z.eqb_refl. cbn [negb].
  eexists. split; [reflexivity|]. split; [reflexivity|]. split.
  - unfold ER_good, er_rest. cbn [er_err er_nonce er_firstRead er_offset er_closed er_associatedData er_seqNum er_src]. split; [reflexivity|]. split; [reflexivity|].
    split; [intros _; split; reflexivity|]. intros _. split; [reflexivity|]. lia.
  - reflexivity.
Qed.

(** Extra X13 ([EncReader.Read]): reading an [EncReader] with buffers of
    at least one byte, the first not of length [L + Overhead()], until an
    error, yields exactly the stream an [EncWriter] produces and ends with
    [io.EOF] (given more reads than ciphertext bytes). *)
Theorem EncReader_Read_roundtrip (c : AEAD) (L : nat) (nonce ad P : bytes) (sizes : list nat) :
  (1 <= L)%nat ->
  (forall n p a, length (Seal c n p a) = (length p + Overhead c)%nat) ->
  Z.of_nat (length nonce) = NonceSize c - 4 ->
  Z.of_nat (length P) <= Z.of_nat L * MaxUint32 ->
  Forall (fun k => (1 <= k)%nat) sizes ->
  (forall k ks, sizes = k :: ks -> k <> (L + Overhead c)%nat) ->
  (length (stream_encrypt c L nonce ad P) < length sizes)%nat ->
  encrypt_by_reads c L nonce ad P sizes = Ret (stream_encrypt c L nonce ad P, Some EOF).
Proof.
  intros HL Hsl Hn HP Hs Hfirst Hlen.
  destruct (EncryptReader_good c L nonce ad P HL Hn HP) as (r & Hr & Hfr & Hg & Hout).
  unfold encrypt_by_reads. rewrite Hr. rewrite <- Hout.
  rewrite (EncReader_drive_good c L _ _ HL Hsl sizes r Hg Hs (fun _ => Hfirst));
    [reflexivity|]. rewrite Hout. exact Hlen.
Qed.

(** Extra X14 ([EncReader.WriteTo]): on a fresh [EncReader], [WriteTo]
    forwards exactly the stream an [EncWriter] produces and returns no
    error. *)
Theorem EncReader_WriteTo_roundtrip (c : AEAD) (L : nat) (nonce ad P : bytes) :
  (1 <= L)%nat ->
  (forall n p a, length (Seal c n p a) = (length p + Overhead c)%nat) ->
  Z.of_nat (length nonce) = NonceSize c - 4 ->
  Z.of_nat (length P) <= Z.of_nat L * MaxUint32 ->
  exists r r', EncryptReader c P nonce ad = Ret r /\
    EncReader_WriteTo c L r = (r', stream_encrypt c L nonce ad P, None).
Proof.
  intros HL Hsl Hn HP.
  destruct (EncryptReader_good c L nonce ad P HL Hn HP) as (r & Hr & Hfr & Hg & Hout).
  destruct (EncReader_WriteTo_good c L _ _ HL Hsl r Hg) as (r' & Hw).
  exists r, r'. split; [exact Hr|]. rewrite Hw, Hout, Hfr. reflexivity.
Qed.

(** Extra X15 ([EncReader.ReadByte], [copyBytes]): for an AEAD with a
    tag, [copyBytes] over [EncReader.ReadByte] collects exactly the stream
    an [EncWriter] produces and returns no error. *)
Theorem EncReader_ReadByte_roundtrip (c : AEAD) (L : nat) (nonce ad P : bytes) (fuel : nat) :
  (1 <= L)%nat ->
  (forall n p a, length (Seal c n p a) = (length p + Overhead c)%nat) ->
  (1 <= Overhead c)%nat ->
  Z.of_nat (length nonce) = NonceSize c - 4 ->
  Z.of_nat (length P) <= Z.of_nat L * MaxUint32 ->
  (length (stream_encrypt c L nonce ad P) < fuel)%nat ->
  exists r r', EncryptReader c P nonce ad = Ret r /\
    copyBytes (EncReader_ReadByte c L) fuel r [] = Ret (r', stream_encrypt c L nonce ad P, None).
Proof.
  intros HL Hsl Hov Hn HP Hf.
  destruct (EncryptReader_good c L nonce ad P HL Hn HP) as (r & Hr & Hfr & Hg & Hout).
  destruct (copyBytes_EncReader c L _ _ HL Hsl fuel Hov r [] Hg ltac:(rewrite Hout; exact Hf))
    as (r' & Hc).
  exists r, r'. split; [exact Hr|]. rewrite Hc, Hout. reflexivity.
Qed.

(** Extra X16 ([EncReader.Read] then [EncReader.WriteTo]): after a first
    [Read] with a buffer of [k >= 1] bytes, [k <> L + Overhead()], either
    the whole stream came with [io.EOF], or a following [WriteTo] forwards
    the rest of the stream, with no error or [io.EOF]. *)
Theorem EncReader_Read_then_WriteTo (c : AEAD) (L : nat) (nonce ad P : bytes) (k : nat) :
  (1 <= L)%nat ->
  (forall n p a, length (Seal c n p a) = (length p + Overhead c)%nat) ->
  Z.of_nat (length nonce) = NonceSize c - 4 ->
  Z.of_nat (length P) <= Z.of_nat L * MaxUint32 ->
  (1 <= k)%nat -> k <> (L + Overhead c)%nat ->
  exists r0 r1 d e,
    EncryptReader c P nonce ad = Ret r0 /\
    EncReader_Read c L r0 k = (r1, d, e) /\
    ((e = Some EOF /\ d = stream_encrypt c L nonce ad P) \/
     (e = None /\ exists r2 R e', EncReader_WriteTo c L r1 = (r2, R, e') /\
        d ++ R = stream_encrypt c L nonce ad P /\ (e' = None \/ e' = Some EOF))).
Proof.
  intros HL Hsl Hn HP Hk Hkne.
  destruct (EncryptReader_good c L nonce ad P HL Hn HP) as (r0 & Hr & Hfr & Hg & Hout).
  destruct (EncReader_Read_good c L _ _ HL Hsl r0 k Hg Hk (fun _ => Hkne))
    as (r1 & d & e & Hrd & Hg1 & Hfr1 & Hout1 & _ & He).
  exists r0, r1, d, e. split; [exact Hr|]. split; [exact Hrd|].
  destruct He as [(-> & _) | (-> & Hout0)].
  - right. split; [reflexivity|].
    destruct (EncReader_WriteTo_good c L _ _ HL Hsl r1 Hg1) as (r2 & Hw).
    rewrite Hfr1 in Hw.
    eexists _, _, _. split; [exact Hw|]. split; [rewrite Hout1; exact Hout|].
    destruct (er_closed r1); [right|left]; reflexivity.
  - left. split; [reflexivity|]. rewrite <- Hout, <- Hout1, Hout0, app_nil_r. reflexivity.
Qed.

Lemma copyBuffer_EncReader_DecWriter (c : AEAD) (L : nat) (n0 T : bytes) (K : nat) :
  (1 <= L)%nat ->
  (forall n p a, length (Seal c n p a) = (length p + Overhead c)%nat) ->
  (forall n p a, Open c n (Seal c n p a) a = Some p) ->
  (1 <= K)%nat -> K <> (L + Overhead c)%nat ->
  forall fuel r w s Xs written,
  ER_good L n0 T r -> DW_good c L n0 T w s Xs (ER_out c L n0 T r) ->
  (length (ER_out c L n0 T r) < fuel)%nat ->
  exists r' w' n s' Xd Xs',
    copyBuffer (EncReader_Read c L) (DecWriter_Write c L) fuel K r w written
      = Ret (r', w', n, None) /\
    Xs = Xd ++ Xs' /\ dw_out w' = dw_out w ++ concat Xd /\ DW_good c L n0 T w' s' Xs' [].
Proof.
  intros HL Hsl Hos HK HKne fuel.
  induction fuel as [|f IH]; intros r w s Xs written Hg Hw Hf; [lia|].
  destruct (EncReader_Read_good c L _ _ HL Hsl r K Hg HK (fun _ => HKne))
    as (r1 & d & e & Hrd & Hg1 & _ & Hout1 & _ & He).
  cbn [copyBuffer]. rewrite Hrd. cbv zeta.
  rewrite <- Hout1 in Hw, Hf. rewrite length_app in Hf.
  destruct (Nat.ltb_spec 0 (length d)) as [Hd|Hd].
  - destruct (@DecWriter_Write_good c L _ _ HL Hsl Hos w s Xs d _ Hw)
      as (w1 & Xd1 & Xs1 & Hw1 & HX1 & Ho1 & Hg1').
    rewrite Hw1.
    destruct He as [(-> & _) | (-> & Hout0)].
    + destruct (IH r1 w1 _ Xs1 (if (0 <? length d)%nat
                                 then wrap64 (written + Z.of_nat (length d)) else written)
                  Hg1 Hg1' ltac:(lia))
        as (r' & w' & n & s' & Xd2 & Xs2 & Hc & HX2 & Ho2 & Hg2).
      rewrite Hc. exists r', w', n, s', (Xd1 ++ Xd2), Xs2.
      split; [reflexivity|]. split; [rewrite HX1, HX2, app_assoc; reflexivity|].
      split; [rewrite Ho2, Ho1, concat_app, app_assoc; reflexivity|]. exact Hg2.
    + rewrite Hout0 in Hg1'. eexists _, _, _, _, Xd1, Xs1.
      split; [reflexivity|]. split; [exact HX1|]. split; [exact Ho1|]. exact Hg1'.
  - destruct He as [(-> & Hne) | (-> & Hout0)].
    + destruct d; [congruence|cbn [length] in Hd; lia].
    + destruct d; [|cbn [length] in Hd; lia].
      rewrite Hout0 in Hw. cbn [app] in Hw.
      eexists _, _, _, _, [], Xs.
      split; [reflexivity|]. split; [reflexivity|].
      split; [rewrite app_nil_r; reflexivity|]. exact Hw.
Qed.

(** Extra X17 ([copyBuffer], as in the third chain of [Fuzz]): copying a
    fresh [EncReader] into a fresh [DecWriter] with [copyBuffer] and a
    buffer of [K >= 1] bytes, [K <> L + Overhead()], and closing the
    [DecWriter] succeeds and forwards exactly the plaintext, given enough
    iterations. *)
Theorem Fuzz_EncReader_copyBuffer_DecWriter (c : AEAD) (L : nat) (nonce ad P : bytes)
    (K fuel : nat) :
  (1 <= L)%nat ->
  (forall n p a, length (Seal c n p a) = (length p + Overhead c)%nat) ->
  (forall n p a, Open c n (Seal c n p a) a = Some p) ->
  Z.of_nat (length nonce) = NonceSize c - 4 ->
  Z.of_nat (length P) <= Z.of_nat L * MaxUint32 ->
  (1 <= K)%nat -> K <> (L + Overhead c)%nat ->
  (length (stream_encrypt c L nonce ad P) < fuel)%nat ->
  exists r w r' w' n w'',
    EncryptReader c P nonce ad = Ret r /\ DecryptWriter c nonce ad = Ret w /\
    copyBuffer (EncReader_Read c L) (DecWriter_Write c L) fuel K r w 0 = Ret (r', w', n, None) /\
    DecWriter_Close c w' = (w'', None) /\ dw_out w'' = P.
Proof.
  intros HL Hsl Hos Hn HP HK HKne Hf.
  destruct (EncryptReader_good c L nonce ad P HL Hn HP) as (r & Hr & _ & Hg & Hout).
  destruct (DecryptWriter_good c L nonce ad P HL Hn HP) as (w & Hw & Hwo & _ & Hdg).
  rewrite <- Hout in Hdg, Hf.
  destruct (copyBuffer_EncReader_DecWriter c L _ _ K HL Hsl Hos HK HKne fuel r w 1 _ 0 Hg Hdg Hf)
    as (r' & w' & n & s' & Xd & Xs' & Hc & HX & Ho & Hg').
  destruct (@dw_close_good c L _ _ HL Hsl Hos w' s' Xs' Hg') as (w'' & Hcl & Ho' & _).
  exists r, w, r', w', n, w''. split; [exact Hr|]. split; [exact Hw|]. split; [exact Hc|].
  split; [exact Hcl|]. rewrite Ho', Ho, Hwo, app_nil_l, <- concat_app, <- HX.
  destruct (chunks_props L P HL) as (_ & _ & Hcc & _). exact Hcc.
Qed.

(** ** Instances of the properties above on the toy AEAD *)

Lemma EncWriter_DecWriter_roundtrip_witness :
  exists C, encrypt_by_writes toy_aead 2 toy_nonce [] [[x01; x02]; [x03; x04; x05]] = Ret (C, None) /\
    forall qs, concat qs = C ->
      decrypt_by_writes toy_aead 2 toy_nonce [] qs = Ret (concat [[x01; x02]; [x03; x04; x05]], None).
Proof.
  apply (EncWriter_DecWriter_roundtrip toy_aead 2 toy_nonce [] [[x01; x02]; [x03; x04; x05]]).
  - lia.
  - exact toy_seal_length.
  - exact toy_open_seal.
  - reflexivity.
  - unfold MaxUint32. cbn. lia.
Defined.

Lemma encrypt_by_writebytes_same_as_Write_witness :
  encrypt_by_writebytes toy_aead 2 toy_nonce [] [x01; x02; x03; x04; x05]
  = encrypt_by_writes toy_aead 2 toy_nonce [] [[x01; x02; x03; x04; x05]].
Proof.
  apply (encrypt_by_writebytes_same_as_Write toy_aead 2 toy_nonce [] [x01; x02; x03; x04; x05]).
  - lia.
  - reflexivity.
  - unfold MaxUint32. cbn. lia.
Defined.

Lemma WriteByte_roundtrip_witness :
  exists C, encrypt_by_writebytes toy_aead 2 toy_nonce [] [x01; x02; x03; x04; x05] = Ret (C, None) /\
    decrypt_by_writebytes toy_aead 2 toy_nonce [] C = Ret ([x01; x02; x03; x04; x05], None).
Proof.
  apply (WriteByte_roundtrip toy_aead 2 toy_nonce [] [x01; x02; x03; x04; x05]).
  - lia.
  - exact toy_seal_length.
  - exact toy_open_seal.
  - reflexivity.
  - unfold MaxUint32. cbn. lia.
Defined.

Lemma EncWriter_ReadFrom_same_as_Write_witness :
  exists w w', EncryptWriter toy_aead toy_nonce [] = Ret w /\
    EncWriter_ReadFrom toy_aead 2 w [x01; x02; x03; x04; x05] = Ret (w', [], length [x01; x02; x03; x04; x05], None) /\
    ew_closed w' = true /\
    encrypt_by_writes toy_aead 2 toy_nonce [] [[x01; x02; x03; x04; x05]] = Ret (ew_out w', None).
Proof.
  apply (EncWriter_ReadFrom_same_as_Write toy_aead 2 toy_nonce [] [x01; x02; x03; x04; x05]).
  - lia.
  - cbn. lia.
  - reflexivity.
  - unfold MaxUint32. cbn. lia.
Defined.

Lemma DecWriter_ReadFrom_roundtrip_witness :
  exists C w w', encrypt_by_writes toy_aead 2 toy_nonce [] [[x01; x02]; [x03; x04; x05]] = Ret (C, None) /\
    DecryptWriter toy_aead toy_nonce [] = Ret w /\
    DecWriter_ReadFrom toy_aead 2 w C = Ret (w', [], length C, None) /\
    dw_out w' = concat [[x01; x02]; [x03; x04; x05]] /\ dw_closed w' = true.
Proof.
  apply (DecWriter_ReadFrom_roundtrip toy_aead 2 toy_nonce [] [[x01; x02]; [x03; x04; x05]]).
  - lia.
  - exact toy_seal_length.
  - exact toy_open_seal.
  - reflexivity.
  - unfold MaxUint32. cbn. lia.
Defined.

Lemma EncWriter_ReadFrom_drops_buffered_witness :
  exists w w1 w2, EncryptWriter toy_aead toy_nonce [] = Ret w /\
    EncWriter_Write toy_aead 2 w [x0a] = Ret (w1, length [x0a], None) /\
    EncWriter_ReadFrom toy_aead 2 w1 [x01; x02; x03; x04; x05] = Ret (w2, [], length [x01; x02; x03; x04; x05], None) /\
    ew_out w2 = stream_encrypt toy_aead 2 toy_nonce [] [x01; x02; x03; x04; x05].
Proof.
  apply (EncWriter_ReadFrom_drops_buffered toy_aead 2 toy_nonce [] [x0a] [x01; x02; x03; x04; x05]).
  - lia.
  - cbn. lia.
  - reflexivity.
  - cbn. lia.
  - unfold MaxUint32. cbn. lia.
Defined.

Lemma DecWriter_ReadFrom_drops_buffered_witness :
  exists C w w1 w2, encrypt_by_writes toy_aead 2 toy_nonce [] [[x01; x02]; [x03; x04; x05]] = Ret (C, None) /\
    DecryptWriter toy_aead toy_nonce [] = Ret w /\
    DecWriter_Write toy_aead 2 w [x0a] = Ret (w1, length [x0a], None) /\
    DecWriter_ReadFrom toy_aead 2 w1 C = Ret (w2, [], length C, None) /\
    dw_out w2 = concat [[x01; x02]; [x03; x04; x05]].
Proof.
  apply (DecWriter_ReadFrom_drops_buffered toy_aead 2 toy_nonce [] [x0a] [[x01; x02]; [x03; x04; x05]]).
  - lia.
  - exact toy_seal_length.
  - exact toy_open_seal.
  - reflexivity.
  - cbn. lia.
  - unfold MaxUint32. cbn. lia.
Defined.

Lemma DecReader_Read_roundtrip_witness :
  decrypt_by_reads toy_aead 2 toy_nonce [] (stream_encrypt toy_aead 2 toy_nonce [] [x01; x02; x03; x04; x05])
    [3; 3; 3; 3; 3; 3]%nat = Ret ([x01; x02; x03; x04; x05], Some EOF).
Proof.
  apply (DecReader_Read_roundtrip toy_aead 2 toy_nonce [] [x01; x02; x03; x04; x05] [3; 3; 3; 3; 3; 3]%nat).
  - lia.
  - exact toy_seal_length.
  - exact toy_open_seal.
  - reflexivity.
  - unfold MaxUint32. cbn. lia.
  - repeat (constructor; [lia|]). constructor.
  - intros k ks Hk. injection Hk as <- _. cbn. lia.
  - vm_compute. lia.
Defined.

Lemma DecReader_WriteTo_roundtrip_witness :
  exists r r', DecryptReader toy_aead (stream_encrypt toy_aead 2 toy_nonce [] [x01; x02; x03; x04; x05]) toy_nonce [] = Ret r /\
    DecReader_WriteTo toy_aead 2 r = (r', [x01; x02; x03; x04; x05], None).
Proof.
  apply (DecReader_WriteTo_roundtrip toy_aead 2 toy_nonce [] [x01; x02; x03; x04; x05]).
  - lia.
  - exact toy_seal_length.
  - exact toy_open_seal.
  - reflexivity.
  - unfold MaxUint32. cbn. lia.
Defined.

Lemma DecReader_ReadByte_roundtrip_witness :
  exists r r', DecryptReader toy_aead (stream_encrypt toy_aead 2 toy_nonce [] [x01; x02; x03; x04; x05]) toy_nonce [] = Ret r /\
    copyBytes (DecReader_ReadByte toy_aead 2) 6 r [] = Ret (r', [x01; x02; x03; x04; x05], None).
Proof.
  apply (DecReader_ReadByte_roundtrip toy_aead 2 toy_nonce [] [x01; x02; x03; x04; x05] 6).
  - lia.
  - exact toy_seal_length.
  - exact toy_open_seal.
  - reflexivity.
  - unfold MaxUint32. cbn. lia.
  - cbn. lia.
Defined.

Lemma DecReader_Read_then_WriteTo_witness :
  exists r0 r1 d e,
    DecryptReader toy_aead (stream_encrypt toy_aead 2 toy_nonce [] [x01; x02; x03; x04; x05]) toy_nonce [] = Ret r0 /\
    DecReader_Read toy_aead 2 r0 3 = (r1, d, e) /\
    ((e = Some EOF /\ d = [x01; x02; x03; x04; x05]) \/
     (e = None /\ exists r2 R e', DecReader_WriteTo toy_aead 2 r1 = (r2, R, e') /\
        d ++ R = [x01; x02; x03; x04; x05] /\ (e' = None \/ e' = Some EOF))).
Proof.
  apply (DecReader_Read_then_WriteTo toy_aead 2 toy_nonce [] [x01; x02; x03; x04; x05] 3).
  - lia.
  - exact toy_seal_length.
  - exact toy_open_seal.
  - reflexivity.
  - unfold MaxUint32. cbn. lia.
  - lia.
  - lia.
Defined.

Lemma DecReader_WriteTo_after_partial_Read_witness :
  exists r0 r1 r2,
    DecryptReader toy_aead (stream_encrypt toy_aead 2 toy_nonce [] [x01; x02]) toy_nonce [] = Ret r0 /\
    DecReader_Read toy_aead 2 r0 1 = (r1, take 1 [x01; x02], None) /\
    DecReader_WriteTo toy_aead 2 r1 = (r2, drop 1 [x01; x02], Some EOF).
Proof.
  apply (DecReader_WriteTo_after_partial_Read toy_aead 2 toy_nonce [] [x01; x02] 1).
  - lia.
  - exact toy_seal_length.
  - exact toy_open_seal.
  - reflexivity.
  - cbn. lia.
  - lia.
  - cbn. lia.
Defined.

Lemma EncReader_Read_roundtrip_witness :
  encrypt_by_reads toy_aead 2 toy_nonce [] [x01; x02; x03; x04; x05] (repeat 3%nat 12)
  = Ret (stream_encrypt toy_aead 2 toy_nonce [] [x01; x02; x03; x04; x05], Some EOF).
Proof.
  apply (EncReader_Read_roundtrip toy_aead 2 toy_nonce [] [x01; x02; x03; x04; x05] (repeat 3%nat 12)).
  - lia.
  - exact toy_seal_length.
  - reflexivity.
  - unfold MaxUint32. cbn. lia.
  - cbn. repeat (constructor; [lia|]). constructor.
  - intros k ks Hk. cbn in Hk. injection Hk as <- _. cbn. lia.
  - vm_compute. lia.
Defined.

Lemma EncReader_WriteTo_roundtrip_witness :
  exists r r', EncryptReader toy_aead [x01; x02; x03; x04; x05] toy_nonce [] = Ret r /\
    EncReader_WriteTo toy_aead 2 r = (r', stream_encrypt toy_aead 2 toy_nonce [] [x01; x02; x03; x04; x05], None).
Proof.
  apply (EncReader_WriteTo_roundtrip toy_aead 2 toy_nonce [] [x01; x02; x03; x04; x05]).
  - lia.
  - exact toy_seal_length.
  - reflexivity.
  - unfold MaxUint32. cbn. lia.
Defined.

Lemma EncReader_ReadByte_roundtrip_witness :
  exists r r', EncryptReader toy_aead [x01; x02; x03; x04; x05] toy_nonce [] = Ret r /\
    copyBytes (EncReader_ReadByte toy_aead 2) 12 r []
    = Ret (r', stream_encrypt toy_aead 2 toy_nonce [] [x01; x02; x03; x04; x05], None).
Proof.
  apply (EncReader_ReadByte_roundtrip toy_aead 2 toy_nonce [] [x01; x02; x03; x04; x05] 12).
  - lia.
  - exact toy_seal_length.
  - cbn. lia.
  - reflexivity.
  - unfold MaxUint32. cbn. lia.
  - vm_compute. lia.
Defined.

Lemma EncReader_Read_then_WriteTo_witness :
  exists r0 r1 d e,
    EncryptReader toy_aead [x01; x02; x03; x04; x05] toy_nonce [] = Ret r0 /\
    EncReader_Read toy_aead 2 r0 3 = (r1, d, e) /\
    ((e = Some EOF /\ d = stream_encrypt toy_aead 2 toy_nonce [] [x01; x02; x03; x04; x05]) \/
     (e = None /\ exists r2 R e', EncReader_WriteTo toy_aead 2 r1 = (r2, R, e') /\
        d ++ R = stream_encrypt toy_aead 2 toy_nonce [] [x01; x02; x03; x04; x05] /\ (e' = None \/ e' = Some EOF))).
Proof.
  apply (EncReader_Read_then_WriteTo toy_aead 2 toy_nonce [] [x01; x02; x03; x04; x05] 3).
  - lia.
  - exact toy_seal_length.
  - reflexivity.
  - unfold MaxUint32. cbn. lia.
  - lia.
  - cbn. lia.
Defined.

Lemma Fuzz_EncReader_copyBuffer_DecWriter_witness :
  exists r w r' w' n w'',
    EncryptReader toy_aead [x01; x02; x03; x04; x05] toy_nonce [] = Ret r /\ DecryptWriter toy_aead toy_nonce [] = Ret w /\
    copyBuffer (EncReader_Read toy_aead 2) (DecWriter_Write toy_aead 2) 12 3 r w 0
      = Ret (r', w', n, None) /\
    DecWriter_Close toy_aead w' = (w'', None) /\ dw_out w'' = [x01; x02; x03; x04; x05].
Proof.
  apply (Fuzz_EncReader_copyBuffer_DecWriter toy_aead 2 toy_nonce [] [x01; x02; x03; x04; x05] 3 12).
  - lia.
  - exact toy_seal_length.
  - exact toy_open_seal.
  - reflexivity.
  - unfold MaxUint32. cbn. lia.
  - lia.
  - cbn. lia.
  - vm_compute. lia.
Defined.
